(** * Flash Attention CPU fallback (flash_attention_fallback.py)

    A shallow embedding of the module: the three entry points
    [flash_attn_func], [flash_attn_varlen_func] and [FlashAttention.forward],
    and the module body with its [print].

    - A tensor is a handle on a buffer of the heap: the buffer's index, a
      dtype, a shape, and for every element (in row-major order) its offset in
      the buffer.  Views ([transpose], a [reshape] that needs no copy) share
      the buffer of the tensor they come from; every other torch operator
      allocates a buffer; [masked_fill_] writes in place.
    - Buffer cells hold real numbers, the infinities and NaN.  The
      arithmetic of a floating dtype is a parameter: [fl d x] is what an
      operation on elements of dtype [d] stores when its exact result is the
      real [x] (a number of the format near [x], or an infinity when [x] is
      out of its range), and [fexp d x] is what the exponential of the
      library returns at [x].  On the special values the operations follow
      IEEE 754.  A theorem that needs a property of the format (that 0 and 1
      are numbers of it, a bound on the rounding error, a range without
      overflow) has it as a hypothesis.
    - An entry point is a computation in a state-and-exception monad over the
      process state: the heap, what was printed, the warnings issued, and
      whether the module is loaded.  A raised exception keeps the state
      reached so far.
    - Next to the entry points stands [flash_attn_trace], the same sequence
      of operators on tensor values without the heap; [flash_attn_func_run]
      proves that the entry point computes it.  The properties of the
      specification, C1 to C10, are the theorems of the last part. *)

From Stdlib Require Import String.
From Stdlib Require Import Reals Lra Lia ZArith Bool Arith List.
Import ListNotations.

Set Implicit Arguments.

(** ** Numbers *)

Inductive num : Type :=
| Fin (x : R)
| PInf
| NInf
| NaN.

(** The dtypes of the model: the floating ones, which the module is written
    for, and [torch.bool], the dtype of the causal mask. *)
Inductive dtype : Type := TorchBool | Float16 | BFloat16 | Float32 | Float64.

Definition is_floating (d : dtype) : bool :=
  match d with TorchBool => false | _ => true end.

Definition dtype_eqb (a b : dtype) : bool :=
  match a, b with
  | TorchBool, TorchBool | Float16, Float16 | BFloat16, BFloat16
  | Float32, Float32 | Float64, Float64 => true
  | _, _ => false
  end.

Section Fallback.

(** The arithmetic of the dtypes.  [fl d x]: the element of dtype [d] an
    operation stores when its exact result is [x].  [fexp d x]: the
    exponential of the library at the number [x] of dtype [d]. *)
Variable fl : dtype -> R -> num.
Variable fexp : dtype -> R -> num.

Definition nadd (d : dtype) (a b : num) : num :=
  match a, b with
  | Fin x, Fin y => fl d (x + y)
  | NaN, _ | _, NaN => NaN
  | PInf, NInf | NInf, PInf => NaN
  | PInf, _ | _, PInf => PInf
  | NInf, _ | _, NInf => NInf
  end.

Definition nsub (d : dtype) (a b : num) : num :=
  match a, b with
  | Fin x, Fin y => fl d (x - y)
  | NaN, _ | _, NaN => NaN
  | PInf, PInf | NInf, NInf => NaN
  | PInf, _ | _, NInf => PInf
  | NInf, _ | _, PInf => NInf
  end.

Definition nmul (d : dtype) (a b : num) : num :=
  match a, b with
  | Fin x, Fin y => fl d (x * y)
  | NaN, _ | _, NaN => NaN
  | Fin x, PInf | PInf, Fin x =>
      if Req_EM_T x 0 then NaN else if Rlt_dec 0 x then PInf else NInf
  | Fin x, NInf | NInf, Fin x =>
      if Req_EM_T x 0 then NaN else if Rlt_dec 0 x then NInf else PInf
  | PInf, PInf | NInf, NInf => PInf
  | PInf, NInf | NInf, PInf => NInf
  end.

Definition ndiv (d : dtype) (a b : num) : num :=
  match a, b with
  | Fin x, Fin y =>
      if Req_EM_T y 0
      then (if Req_EM_T x 0 then NaN else if Rlt_dec 0 x then PInf else NInf)
      else fl d (x / y)
  | NaN, _ | _, NaN => NaN
  | Fin _, _ => Fin 0
  | PInf, Fin y => if Rlt_dec y 0 then NInf else PInf
  | NInf, Fin y => if Rlt_dec y 0 then PInf else NInf
  | _, _ => NaN
  end.

Definition nexp (d : dtype) (a : num) : num :=
  match a with
  | Fin x => fexp d x
  | PInf => PInf
  | NInf => Fin 0
  | NaN => NaN
  end.

(** The larger of two elements; NaN if one of them is. *)
Definition nmax (a b : num) : num :=
  match a, b with
  | NaN, _ | _, NaN => NaN
  | PInf, _ | _, PInf => PInf
  | NInf, x | x, NInf => x
  | Fin x, Fin y => Fin (Rmax x y)
  end.

(** What [.bool()] makes of a cell: everything but zero is true. *)
Definition truthy (a : num) : bool :=
  match a with
  | Fin x => if Req_EM_T x 0 then false else true
  | _ => true
  end.

Definition is_fin (a : num) : bool :=
  match a with Fin _ => true | _ => false end.

(** Sums are accumulated element by element, each addition stored in the
    dtype; the order in which torch adds the elements is its own. *)
Definition nsum (d : dtype) (l : list num) : num :=
  fold_right (nadd d) (Fin 0) l.

Definition nmaxl (l : list num) : num := fold_right nmax NInf l.

(** One element of the softmax of a row, by the formula of the library:
    the exponential of the element over the sum of the exponentials, the
    maximum of the row being subtracted from every element first, as torch
    does.  A row that holds [+inf] or NaN, or nothing but [-inf], is NaN
    throughout. *)
Definition softmax_at (d : dtype) (row : list num) (x : num) : num :=
  ndiv d (nexp d (nsub d x (nmaxl row)))
       (nsum d (map (fun y => nexp d (nsub d y (nmaxl row))) row)).

(** ** Shapes and row-major indexing *)

Definition numel (sh : list nat) : nat := fold_right Nat.mul 1 sh.

(** The flat position of a multi-index, and back. *)
Fixpoint ravel (sh idx : list nat) : nat :=
  match sh, idx with
  | _ :: sh', i :: idx' => i * numel sh' + ravel sh' idx'
  | _, _ => 0
  end.

Fixpoint unravel (sh : list nat) (p : nat) : list nat :=
  match sh with
  | [] => []
  | _ :: sh' => p / numel sh' :: unravel sh' (p mod numel sh')
  end.

Fixpoint in_bounds (sh idx : list nat) : bool :=
  match sh, idx with
  | [], [] => true
  | d :: sh', i :: idx' => (i <? d) && in_bounds sh' idx'
  | _, _ => false
  end.

Fixpoint shape_eqb (a b : list nat) : bool :=
  match a, b with
  | [], [] => true
  | x :: a', y :: b' => (x =? y) && shape_eqb a' b'
  | _, _ => false
  end.

(** Exchange of the entries at positions [i] and [j]. *)
Definition swap (i j : nat) (l : list nat) : list nat :=
  map (fun k => nth (if k =? i then j else if k =? j then i else k) l 0)
      (seq 0 (length l)).

(** The elements of [l] at the positions [src], in that order. *)
Definition gather {A} (src : list nat) (l : list A) : list A :=
  flat_map (fun i => match nth_error l i with Some x => [x] | None => [] end) src.

(** A dimension argument as torch reads it: negative values count from the
    end; a rank-0 tensor accepts -1 and 0. *)
Definition norm_dim (rank : nat) (d : Z) : option nat :=
  let r := Z.of_nat (Nat.max rank 1) in
  if ((- r <=? d) && (d <? r))%Z then Some (Z.to_nat (d mod r)) else None.

(** For every position of the transposed tensor, the position it reads. *)
Definition transpose_src (sh : list nat) (i j : nat) : list nat :=
  map (fun p => ravel sh (swap i j (unravel (swap i j sh) p)))
      (seq 0 (numel (swap i j sh))).

Fixpoint upd {A} (i : nat) (x : A) (l : list A) : list A :=
  match l, i with
  | [], _ => []
  | _ :: l', 0 => x :: l'
  | y :: l', S i' => y :: upd i' x l'
  end.

(** ** Tensor values and the torch operators on them *)

(** An exception: the statement or operator that raises it, and its class. *)
Inductive prim : Type :=
| TupleUnpack | Pow | Transpose | Reshape | Matmul | MulScalar
| OnesLike | Triu | ToBool | MaskedFill | Softmax.

Inductive exn_class : Type :=
| ValueError | ZeroDivisionError | IndexError | RuntimeError.

Record exn : Type := Raise { raised_by : prim; class : exn_class }.

(** What a tensor holds: dtype, shape, and the elements in row-major order. *)
Record tval : Type := TVal { vdt : dtype; vshape : list nat; vdata : list num }.

Definition get (a : tval) (idx : list nat) : num :=
  nth (ravel (vshape a) idx) (vdata a) NaN.

(** [a.transpose(d0, d1)] *)
Definition v_transpose (d0 d1 : Z) (a : tval) : exn + tval :=
  let sh := vshape a in
  match norm_dim (length sh) d0, norm_dim (length sh) d1 with
  | Some i, Some j =>
      inr (TVal (vdt a) (swap i j sh) (gather (transpose_src sh i j) (vdata a)))
  | _, _ => inl (Raise Transpose IndexError)
  end.

(** [a.reshape] with every size given *)
Definition v_reshape (sh : list nat) (a : tval) : exn + tval :=
  if numel sh =? numel (vshape a)
  then inr (TVal (vdt a) sh (vdata a))
  else inl (Raise Reshape RuntimeError).

(** [torch.matmul(a, b)] on two batches of matrices with the same number of
    matrices, the case both call sites are in.  Operands of different dtypes,
    and boolean ones, are refused. *)
Definition v_matmul (a b : tval) : exn + tval :=
  match vshape a, vshape b with
  | [n; r; m], [n'; m'; c] =>
      if dtype_eqb (vdt a) (vdt b) && is_floating (vdt a)
         && (n =? n') && (m =? m')
      then inr (TVal (vdt a) [n; r; c]
             (map (fun p =>
                     match unravel [n; r; c] p with
                     | [k; i; j] =>
                         nsum (vdt a)
                              (map (fun t => nmul (vdt a) (get a [k; i; t])
                                                  (get b [k; t; j]))
                                   (seq 0 m))
                     | _ => NaN
                     end)
                  (seq 0 (numel [n; r; c]))))
      else inl (Raise Matmul RuntimeError)
  | _, _ => inl (Raise Matmul RuntimeError)
  end.

(** [a * s] for a Python float [s]: the scalar becomes an element of the
    dtype of the result. *)
Definition v_mul_scalar (s : R) (a : tval) : exn + tval :=
  let d := if is_floating (vdt a) then vdt a else Float32 in
  inr (TVal d (vshape a) (map (fun x => nmul d x (fl d s)) (vdata a))).

(** [torch.ones_like(a)] *)
Definition v_ones_like (a : tval) : exn + tval :=
  inr (TVal (vdt a) (vshape a) (repeat (Fin 1) (numel (vshape a)))).

(** [torch.triu(a, diagonal)]: in each matrix of the last two axes the
    elements below the given diagonal become zero. *)
Definition v_triu (diagonal : Z) (a : tval) : exn + tval :=
  let sh := vshape a in
  let r := length sh in
  if 2 <=? r
  then inr (TVal (vdt a) sh
         (map (fun p =>
                 let idx := unravel sh p in
                 let i := nth (r - 2) idx 0 in
                 let j := nth (r - 1) idx 0 in
                 if (diagonal <=? Z.of_nat j - Z.of_nat i)%Z
                 then nth p (vdata a) NaN else Fin 0)
              (seq 0 (length (vdata a)))))
  else inl (Raise Triu RuntimeError).

(** [a.bool()] *)
Definition v_bool (a : tval) : exn + tval :=
  inr (TVal TorchBool (vshape a)
            (map (fun x => if truthy x then Fin 1 else Fin 0) (vdata a))).

(** What [a.masked_fill_(mask, x)] leaves in [a], for a boolean mask of the
    shape of [a]. *)
Definition v_masked_fill (mask : tval) (x : num) (a : tval) : exn + tval :=
  if dtype_eqb (vdt mask) TorchBool && shape_eqb (vshape mask) (vshape a)
  then inr (TVal (vdt a) (vshape a)
         (map (fun '(y, m) => if truthy m then x else y)
              (combine (vdata a) (vdata mask))))
  else inl (Raise MaskedFill RuntimeError).

(** [F.softmax(a, dim)] *)
Definition v_softmax (dim : Z) (a : tval) : exn + tval :=
  let sh := vshape a in
  match norm_dim (length sh) dim with
  | Some d =>
      if is_floating (vdt a)
      then inr (TVal (vdt a) sh
             (map (fun p =>
                     let idx := unravel sh p in
                     softmax_at (vdt a)
                       (map (fun t => get a (upd d t idx)) (seq 0 (nth d sh 1)))
                       (nth p (vdata a) NaN))
                  (seq 0 (length (vdata a)))))
      else inl (Raise Softmax RuntimeError)
  | None => inl (Raise Softmax IndexError)
  end.

(** ** Python statements that can raise *)

(** [a, b, c, d = sh] *)
Definition unpack4 (sh : list nat) : exn + (nat * nat * nat * nat) :=
  match sh with
  | [a; b; c; d] => inr (a, b, c, d)
  | _ => inl (Raise TupleUnpack ValueError)
  end.

(** [n ** e] for an integer [n >= 0] and a float [e]: zero has no negative
    power. *)
Definition py_pow (n : nat) (e : R) : exn + R :=
  match n with
  | 0 =>
      if Rlt_dec e 0 then inl (Raise Pow ZeroDivisionError)
      else if Req_EM_T e 0 then inr 1%R else inr 0%R
  | _ => inr (Rpower (INR n) e)
  end.

(** ** The process state *)

(** A tensor object: the buffer it reads, its dtype and shape, and the offset
    in the buffer of each of its elements, in row-major order. *)
Record tensor : Type :=
  Tensor { buf : nat; dt : dtype; shape : list nat; offs : list nat }.

Inductive category : Type := UserWarning | DeprecationWarning | RuntimeWarning.

(** The state of the process: the buffers, the lines printed, the warnings
    issued, and whether this module is among the loaded ones. *)
Record world : Type :=
  World { heap : list (list num);
          stdout : list string;
          warned : list (category * string);
          imported : bool }.

Definition set_heap (h : list (list num)) (w : world) : world :=
  World h (stdout w) (warned w) (imported w).

Definition cell (w : world) (b o : nat) : num := nth o (nth b (heap w) []) NaN.

Definition contents (w : world) (t : tensor) : list num :=
  map (cell w (buf t)) (offs t).

Definition tval_of (w : world) (t : tensor) : tval :=
  TVal (dt t) (shape t) (contents w t).

(** ** The monad of the entry points *)

Definition M (A : Type) : Type := world -> world * (exn + A).

Definition ret {A} (a : A) : M A := fun w => (w, inr a).

Definition raise {A} (e : exn) : M A := fun w => (w, inl e).

Definition bind {A B} (m : M A) (k : A -> M B) : M B :=
  fun w =>
    match m w with
    | (w', inl e) => (w', inl e)
    | (w', inr a) => k a w'
    end.

Notation "x <- m ;; k" := (bind m (fun x => k))
  (at level 61, m at next level, right associativity).
Notation "' p <- m ;; k" := (bind m (fun x => match x with p => k end))
  (at level 61, p pattern, m at next level, right associativity).
Notation "m ;; k" := (bind m (fun _ => k))
  (at level 61, right associativity).

(** A statement that raises or yields a value and leaves the state alone. *)
Definition pure {A} (r : exn + A) : M A := fun w => (w, r).

(** A new buffer holding the elements of [r], and the tensor on it. *)
Definition alloc (r : tval) : M tensor :=
  fun w =>
    (set_heap (heap w ++ [vdata r]) w,
     inr (Tensor (length (heap w)) (vdt r) (vshape r) (seq 0 (length (vdata r))))).

(** The outcome of an operator that allocates its result. *)
Definition lift (r : exn + tval) : M tensor :=
  fun w => match r with inl e => (w, inl e) | inr x => alloc x w end.

(** [warnings.warn(msg, c)]: the warning is recorded; what the filters of the
    process then show of it is not modelled. *)
Definition warnings_warn (msg : string) (c : category) : M unit :=
  fun w => (World (heap w) (stdout w) (warned w ++ [(c, msg)]) (imported w), inr tt).

(** [print(msg)] *)
Definition print (msg : string) : M unit :=
  fun w => (World (heap w) (stdout w ++ [msg]) (warned w) (imported w), inr tt).

(** In-place writes of [x] at the offsets whose mask element is true. *)
Definition fill_cells (x : num) (mask : list num) (os : list nat)
    (b : list num) : list num :=
  fold_left (fun b' '(o, m) => if truthy m then upd o x b' else b')
            (combine os mask) b.

(** Whether [t.reshape(sh)] can be a view of [t], which torch decides from the
    strides of [t]; it copies otherwise.  The layout of a tensor in its
    buffer is not constrained here, so the decision is a parameter. *)
Variable reshape_is_view : tensor -> list nat -> bool.

(** [t.transpose(d0, d1)]: a view, on the buffer of [t]. *)
Definition transpose (t : tensor) (d0 d1 : Z) : M tensor :=
  match norm_dim (length (shape t)) d0, norm_dim (length (shape t)) d1 with
  | Some i, Some j =>
      ret (Tensor (buf t) (dt t) (swap i j (shape t))
                  (gather (transpose_src (shape t) i j) (offs t)))
  | _, _ => raise (Raise Transpose IndexError)
  end.

(** [t.reshape(sh)]: a view when it can be one, a copy otherwise. *)
Definition reshape (t : tensor) (sh : list nat) : M tensor :=
  if numel sh =? numel (shape t)
  then if reshape_is_view t sh
       then ret (Tensor (buf t) (dt t) sh (offs t))
       else fun w => alloc (TVal (dt t) sh (contents w t)) w
  else raise (Raise Reshape RuntimeError).

(** The torch operators that allocate their result. *)
Definition matmul (a b : tensor) : M tensor :=
  fun w => lift (v_matmul (tval_of w a) (tval_of w b)) w.

Definition mul_scalar (a : tensor) (s : R) : M tensor :=
  fun w => lift (v_mul_scalar s (tval_of w a)) w.

Definition ones_like (a : tensor) : M tensor :=
  fun w => lift (v_ones_like (tval_of w a)) w.

Definition triu (a : tensor) (diagonal : Z) : M tensor :=
  fun w => lift (v_triu diagonal (tval_of w a)) w.

Definition to_bool (a : tensor) : M tensor :=
  fun w => lift (v_bool (tval_of w a)) w.

Definition softmax (a : tensor) (dim : Z) : M tensor :=
  fun w => lift (v_softmax dim (tval_of w a)) w.

(** [a.masked_fill_(mask, x)]: writes into the buffer of [a], returns [a]. *)
Definition masked_fill_ (a mask : tensor) (x : num) : M tensor :=
  fun w =>
    match v_masked_fill (tval_of w mask) x (tval_of w a) with
    | inl e => (w, inl e)
    | inr _ =>
        (set_heap (upd (buf a)
                       (fill_cells x (contents w mask) (offs a)
                                   (nth (buf a) (heap w) []))
                       (heap w)) w,
         inr a)
    end.

(** ** The entry points *)

Definition flash_attn_func (q k v : tensor) (dropout_p : R)
    (softmax_scale : option R) (causal : bool) (window_size : Z * Z)
    (alibi_slopes : option tensor) (deterministic : bool) : M tensor :=
  warnings_warn
    "Using CPU fallback for Flash Attention. Performance will be slower than CUDA implementation."
    UserWarning ;;
  '(batch, seqlen, nheads, headdim) <- pure (unpack4 (shape q)) ;;
  softmax_scale <- pure match softmax_scale with
                        | None => py_pow headdim (- (1 / 2))
                        | Some s => inr s
                        end ;;
  qt <- transpose q 1 2 ;;
  q <- reshape qt [batch * nheads; seqlen; headdim] ;;
  kt <- transpose k 1 2 ;;
  k <- reshape kt [batch * nheads; seqlen; headdim] ;;
  vt <- transpose v 1 2 ;;
  v <- reshape vt [batch * nheads; seqlen; headdim] ;;
  kT <- transpose k (-2) (-1) ;;
  qk <- matmul q kT ;;
  scores <- mul_scalar qk softmax_scale ;;
  (if causal
   then ones <- ones_like scores ;;
        upper <- triu ones 1 ;;
        mask <- to_bool upper ;;
        masked_fill_ scores mask NInf ;;
        ret tt
   else ret tt) ;;
  attn_weights <- softmax scores (-1) ;;
  out <- matmul attn_weights v ;;
  out <- reshape out [batch; nheads; seqlen; headdim] ;;
  transpose out 1 2.

Definition flash_attn_varlen_func (q k v : tensor)
    (cu_seqlens_q cu_seqlens_k : tensor) (max_seqlen_q max_seqlen_k : nat)
    (dropout_p : R) (softmax_scale : option R) (causal : bool)
    (window_size : Z * Z) (alibi_slopes : option tensor)
    (deterministic : bool) : M tensor :=
  warnings_warn
    "Variable-length Flash Attention fallback not fully implemented. Using basic implementation."
    UserWarning ;;
  flash_attn_func q k v dropout_p softmax_scale causal
                  window_size alibi_slopes deterministic.

(** The class [FlashAttention]: what [__init__] stores, and [forward], which
    leaves the last three parameters of [flash_attn_func] at their defaults. *)
Record FlashAttention : Type :=
  { self_softmax_scale : option R; self_dropout_p : R }.

Definition FlashAttention_init (softmax_scale : option R)
    (attention_dropout : R) : FlashAttention :=
  {| self_softmax_scale := softmax_scale; self_dropout_p := attention_dropout |}.

Definition forward (self : FlashAttention) (q k v : tensor) (causal : bool)
  : M tensor :=
  flash_attn_func q k v (self_dropout_p self) (self_softmax_scale self) causal
                  ((-1)%Z, (-1)%Z) None false.

(** The statement at the end of the module, run when the module is loaded. *)
Definition advisory : string :=
  "⚠️  Using Flash Attention CPU fallback. Install CUDA version for better performance.".

Definition module_body : M unit := print advisory.

(** [import flash_attention_fallback]: the body runs unless the module is
    already among the loaded ones. *)
Definition import_module : M unit :=
  fun w =>
    if imported w then (w, inr tt)
    else module_body (World (heap w) (stdout w) (warned w) true).

(** What a process does with the module: it imports it, and calls its entry
    points. *)
Inductive call : Type :=
| Import
| CallFunc (q k v : tensor) (dropout_p : R) (softmax_scale : option R)
    (causal : bool) (window_size : Z * Z) (alibi_slopes : option tensor)
    (deterministic : bool)
| CallVarlen (q k v cu_seqlens_q cu_seqlens_k : tensor)
    (max_seqlen_q max_seqlen_k : nat) (dropout_p : R)
    (softmax_scale : option R) (causal : bool) (window_size : Z * Z)
    (alibi_slopes : option tensor) (deterministic : bool)
| CallForward (self : FlashAttention) (q k v : tensor) (causal : bool).

Definition run_call (c : call) (w : world) : world :=
  match c with
  | Import => fst (import_module w)
  | CallFunc q k v p s c ws al d => fst (flash_attn_func q k v p s c ws al d w)
  | CallVarlen q k v cq ck mq mk p s c ws al d =>
      fst (flash_attn_varlen_func q k v cq ck mq mk p s c ws al d w)
  | CallForward self q k v c => fst (forward self q k v c w)
  end.

Definition run_calls (cs : list call) (w : world) : world :=
  fold_left (fun w' c => run_call c w') cs w.

(** ** The values an entry point computes *)

Definition ebind {A B} (r : exn + A) (k : A -> exn + B) : exn + B :=
  match r with inl e => inl e | inr a => k a end.

Notation "'let?' x := r 'in' k" := (ebind r (fun x => k))
  (at level 10, x name, r at level 100, k at level 200).

(** The scores as they are when the softmax reads them, the attention
    weights, and the result. *)
Record trace : Type := Trace { t_scores : tval; t_weights : tval; t_out : tval }.

(** [flash_attn_func] on tensor values: the same operators in the same order,
    without the heap. *)
Definition flash_attn_trace (q k v : tval) (softmax_scale : option R)
    (causal : bool) : exn + trace :=
  let? dims := unpack4 (vshape q) in
  let '(batch, seqlen, nheads, headdim) := dims in
  let? scale := match softmax_scale with
                | None => py_pow headdim (- (1 / 2))
                | Some s => inr s
                end in
  let? qt := v_transpose 1 2 q in
  let? q := v_reshape [batch * nheads; seqlen; headdim] qt in
  let? kt := v_transpose 1 2 k in
  let? k := v_reshape [batch * nheads; seqlen; headdim] kt in
  let? vt := v_transpose 1 2 v in
  let? v := v_reshape [batch * nheads; seqlen; headdim] vt in
  let? kT := v_transpose (-2) (-1) k in
  let? qk := v_matmul q kT in
  let? scores := v_mul_scalar scale qk in
  let? scores := (if causal
                  then let? ones := v_ones_like scores in
                       let? upper := v_triu 1 ones in
                       let? mask := v_bool upper in
                       v_masked_fill mask NInf scores
                  else inr scores) in
  let? attn_weights := v_softmax (-1) scores in
  let? out := v_matmul attn_weights v in
  let? out := v_reshape [batch; nheads; seqlen; headdim] out in
  let? out := v_transpose 1 2 out in
  inr (Trace scores attn_weights out).

(** [a.transpose(1, 2).reshape(batch * nheads, seqlen, headdim)], what
    lines 47 to 49 make of query, key and value. *)
Definition merge_heads (batch seqlen nheads headdim : nat) (a : tval)
  : exn + tval :=
  let? t := v_transpose 1 2 a in
  v_reshape [batch * nheads; seqlen; headdim] t.

(** ** Predicates on the state *)

(** The buffer of [t] exists. *)
Definition live (w : world) (t : tensor) : Prop := buf t < length (heap w).

(** The buffer of [t] exists and [t] has one offset per element. *)
Definition wf (w : world) (t : tensor) : bool :=
  (buf t <? length (heap w)) && (length (offs t) =? numel (shape t)).

Definition real_valued (w : world) (t : tensor) : bool :=
  forallb is_fin (contents w t).

(** From [w] to [w'] buffers were added at the end, and nothing else
    changed. *)
Definition ext (w w' : world) : Prop :=
  (exists new, heap w' = heap w ++ new) /\
  stdout w' = stdout w /\ warned w' = warned w /\ imported w' = imported w.

(** From [w] to [w'] the first [n] buffers kept their cells and no buffer
    was dropped; nothing was printed, warned or imported. *)
Definition keeps (n : nat) (w w' : world) : Prop :=
  firstn n (heap w') = firstn n (heap w) /\
  length (heap w) <= length (heap w') /\
  stdout w' = stdout w /\ warned w' = warned w /\ imported w' = imported w.

(** [t] covers its buffer, cell by cell in order. *)
Definition dense (w : world) (t : tensor) : Prop :=
  offs t = seq 0 (length (nth (buf t) (heap w) [])).

(** A tensor value with one element per position of its shape. *)
Definition wfv (a : tval) : Prop := length (vdata a) = numel (vshape a).



(** ** What theorems ask of the arithmetic *)

(** The reals of [l] are numbers of dtype [d]: an operation whose exact
    result is one of them stores it. *)
Definition exact_on (d : dtype) (l : list R) : Prop :=
  forall x, In x l -> fl d x = Fin x.

(** The cell [a], if it holds a real, holds a number of dtype [d]. *)
Definition number_of (d : dtype) (a : num) : Prop :=
  match a with Fin x => fl d x = Fin x | _ => True end.

(** The standard model of floating-point arithmetic for dtype [d], with
    unit roundoff [u], underflow threshold [eta] and a range [omega] without
    overflow: a result within the range is stored as a number whose error is
    at most [u] times the result plus [eta]; zero is stored as zero; a
    stored number has the sign of the result, an infinity too, and NaN is
    never stored for a real result.  The exponential of 0 is 1, and at a
    number that is not positive it is a number between 0 and [1 + u]. *)
Record standard_model (d : dtype) (u eta omega : R) : Prop :=
  { sm_u : (0 <= u < 1)%R;
    sm_eta : (0 <= eta)%R;
    sm_zero : fl d 0 = Fin 0;
    sm_finite : forall x, (Rabs x <= omega)%R -> exists y, fl d x = Fin y;
    sm_error : forall x y, fl d x = Fin y ->
                 (Rabs (y - x) <= u * Rabs x + eta)%R;
    sm_pos : forall x y, fl d x = Fin y -> (0 <= x)%R -> (0 <= y)%R;
    sm_neg : forall x y, fl d x = Fin y -> (x <= 0)%R -> (y <= 0)%R;
    sm_pinf : forall x, fl d x = PInf -> (0 < x)%R;
    sm_ninf : forall x, fl d x = NInf -> (x < 0)%R;
    sm_nan : forall x, fl d x <> NaN;
    sm_exp_zero : fexp d 0 = Fin 1;
    sm_exp : forall x, (x <= 0)%R ->
               exists e, fexp d x = Fin e /\ (0 <= e <= 1 + u)%R }.




(** The scale [flash_attn_func] multiplies the scores by. *)
Definition effective_scale (softmax_scale : option R) (headdim : nat) : exn + R :=
  match softmax_scale with
  | Some s => inr s
  | None => py_pow headdim (- (1 / 2))
  end.

(** A scale is given, or the default one exists. *)
Definition defined_scale (softmax_scale : option R) (headdim : nat) : bool :=
  match softmax_scale with
  | Some _ => true
  | None => negb (headdim =? 0)
  end.

Definition scale_value (softmax_scale : option R) (headdim : nat) : R :=
  match softmax_scale with
  | Some s => s
  | None => Rpower (INR headdim) (- (1 / 2))
  end.

(** Query, key and value are tensors of the heap with the shape
    [(B, S, H, D)]. *)
Definition same_shape_inputs (w : world) (q k v : tensor) (B S H D : nat) : bool :=
  wf w q && wf w k && wf w v &&
  shape_eqb (shape q) [B; S; H; D] && shape_eqb (shape k) [B; S; H; D] &&
  shape_eqb (shape v) [B; S; H; D].

(** Query, key and value have one dtype, a floating one. *)
Definition floating_inputs (q k v : tensor) : bool :=
  dtype_eqb (dt k) (dt q) && dtype_eqb (dt v) (dt q) && is_floating (dt q).

(** The exceptions of the statements and torch operators [flash_attn_func]
    is made of. *)
Definition native_errors : list exn :=
  [Raise TupleUnpack ValueError; Raise Pow ZeroDivisionError;
   Raise Transpose IndexError; Raise Reshape RuntimeError;
   Raise Matmul RuntimeError].

(** A computation that reads nothing of the state but the heap, prints
    nothing and imports nothing: from two states with the same heap it gives
    the same result, the same heap and the same new warnings. *)
Definition respects {A} (m : M A) : Prop :=
  (forall w, stdout (fst (m w)) = stdout w /\ imported (fst (m w)) = imported w) /\
  (forall w1 w2, heap w1 = heap w2 ->
     snd (m w1) = snd (m w2) /\ heap (fst (m w1)) = heap (fst (m w2)) /\
     exists l, warned (fst (m w1)) = warned w1 ++ l /\
               warned (fst (m w2)) = warned w2 ++ l).

(** ** The concrete scenario of the specification

    batch = 1, seqlen = 2, heads = 1, headdim = 1; the query and the key are
    [[1], [1]] and the value is [[10], [20]].  A fourth tensor has three
    positions instead of two. *)

Definition scenario_world : world :=
  World [[Fin 1; Fin 1]; [Fin 1; Fin 1]; [Fin 10; Fin 20]; [Fin 1; Fin 1; Fin 1]]
        [] [] true.

Definition scenario_q : tensor := Tensor 0 Float32 [1; 2; 1; 1] [0; 1].
Definition scenario_k : tensor := Tensor 1 Float32 [1; 2; 1; 1] [0; 1].
Definition scenario_v : tensor := Tensor 2 Float32 [1; 2; 1; 1] [0; 1].
Definition longer_k : tensor := Tensor 3 Float32 [1; 3; 1; 1] [0; 1; 2].

(** What [keeps] says of the heap alone. *)
Definition heap_kept (n : nat) (w w' : world) : Prop :=
  firstn n (heap w') = firstn n (heap w) /\
  length (heap w) <= length (heap w').

(** The state in which the body of [flash_attn_func] starts. *)
Definition warned_fallback (w : world) : world :=
  World (heap w) (stdout w)
        (warned w ++ [(UserWarning,
           "Using CPU fallback for Flash Attention. Performance will be slower than CUDA implementation."%string)])
        (imported w).

(** A torch whose [reshape] never copies. *)
Definition always_view (t : tensor) (sh : list nat) : bool := true.

(** ** Warnings and early exits *)

(** The two warnings of the module. *)
Definition fallback_warning : category * string :=
  (UserWarning,
   "Using CPU fallback for Flash Attention. Performance will be slower than CUDA implementation."%string).

Definition varlen_warning : category * string :=
  (UserWarning,
   "Variable-length Flash Attention fallback not fully implemented. Using basic implementation."%string).

(** The warnings a call issues, in order. *)
Definition call_warnings (c : call) : list (category * string) :=
  match c with
  | Import => []
  | CallFunc _ _ _ _ _ _ _ _ _ => [fallback_warning]
  | CallVarlen _ _ _ _ _ _ _ _ _ _ _ _ _ => [varlen_warning; fallback_warning]
  | CallForward _ _ _ _ _ => [fallback_warning]
  end.

(** A computation that issues no warning. *)
Definition silent {A} (m : M A) : Prop :=
  forall w, warned (fst (m w)) = warned w.

(** The exits of [flash_attn_func] before its first tensor operation. *)
Definition exits_early (q : tensor) (softmax_scale : option R) : bool :=
  match shape q with
  | [_; _; _; headdim] => negb (defined_scale softmax_scale headdim)
  | _ => true
  end.

(** ** The exception of a call, read off shapes and dtypes

    The checks of [flash_attn_func] in the order the code meets them: the
    unpacking of [q.shape], the default scale, [transpose(1, 2)] and
    [reshape] of the key, the same of the value, the first [matmul], the
    second [matmul]. *)
Definition expected_exception (q k v : tensor) (softmax_scale : option R)
  : option exn :=
  match shape q with
  | [_; _; _; headdim] =>
      if negb (defined_scale softmax_scale headdim)
      then Some (Raise Pow ZeroDivisionError)
      else if length (shape k) <? 3 then Some (Raise Transpose IndexError)
      else if negb (numel (shape k) =? numel (shape q))
      then Some (Raise Reshape RuntimeError)
      else if length (shape v) <? 3 then Some (Raise Transpose IndexError)
      else if negb (numel (shape v) =? numel (shape q))
      then Some (Raise Reshape RuntimeError)
      else if negb (dtype_eqb (dt q) (dt k) && is_floating (dt q))
      then Some (Raise Matmul RuntimeError)
      else if negb (dtype_eqb (dt q) (dt v))
      then Some (Raise Matmul RuntimeError)
      else None
  | _ => Some (Raise TupleUnpack ValueError)
  end.

(** ** Scaled dot-product attention, element by element

    What lines 52 to 63 compute from a query, a key and a value of one
    shape [(B, S, H, D)], in the arithmetic of the dtype of the query: the
    score of query position [i] and key position [j] of batch [b] and head
    [h], the attention weight, and the element of the result. *)
Definition attention_score (w : world) (q k : tensor) (s : R) (causal : bool)
    (D b h i j : nat) : num :=
  if causal && (i <? j) then NInf
  else nmul (dt q)
            (nsum (dt q)
                  (map (fun d => nmul (dt q) (get (tval_of w q) [b; i; h; d])
                                      (get (tval_of w k) [b; j; h; d]))
                       (seq 0 D)))
            (fl (dt q) s).

Definition attention_weight (w : world) (q k : tensor) (s : R) (causal : bool)
    (S D b h i j : nat) : num :=
  softmax_at (dt q)
             (map (fun t => attention_score w q k s causal D b h i t) (seq 0 S))
             (attention_score w q k s causal D b h i j).

Definition attention_output (w : world) (q k v : tensor) (s : R)
    (causal : bool) (S D b h i d : nat) : num :=
  nsum (dt q)
       (map (fun j => nmul (dt q) (attention_weight w q k s causal S D b h i j)
                           (get (tval_of w v) [b; j; h; d]))
            (seq 0 S)).

(** ** Three arithmetics

    The exact one, in which nothing is rounded and nothing overflows; one
    that is exact up to [omega] and overflows beyond; and one that rounds
    and overflows. *)
Definition exact_fl : dtype -> R -> num := fun _ x => Fin x.

Definition exact_exp : dtype -> R -> num := fun _ x => Fin (exp x).

Definition saturating (omega : R) : dtype -> R -> num :=
  fun _ x =>
    if Rlt_dec omega x then PInf
    else if Rlt_dec x (- omega) then NInf
    else Fin x.




(** Two batches and two heads of one position: queries, keys and values
    that agree on batch 0 and head 0 and differ everywhere else. *)
Definition mixing_world : world :=
  World [[Fin 1; Fin 2; Fin 3; Fin 4]; [Fin 1; Fin 9; Fin 9; Fin 9];
         [Fin 10; Fin 20; Fin 30; Fin 40]; [Fin 10; Fin 0; Fin 0; Fin 0]]
        [] [] true.

Definition mixing_qk : tensor := Tensor 0 Float32 [2; 1; 2; 1] [0; 1; 2; 3].
Definition other_qk : tensor := Tensor 1 Float32 [2; 1; 2; 1] [0; 1; 2; 3].
Definition mixing_v : tensor := Tensor 2 Float32 [2; 1; 2; 1] [0; 1; 2; 3].
Definition other_v : tensor := Tensor 3 Float32 [2; 1; 2; 1] [0; 1; 2; 3].

Unset Implicit Arguments.

(** * Lists *)

Lemma nth_map_seq {A} (f : nat -> A) (n p : nat) (d : A) :
  p < n -> nth p (map f (seq 0 n)) d = f p.
Proof.
  intros Hp.
  rewrite (nth_indep _ d (f 0)) by (rewrite length_map, length_seq; exact Hp).
  rewrite map_nth, seq_nth by exact Hp. reflexivity.
Qed.

Lemma nth_map_in {A B} (f : A -> B) (l : list A) (p : nat) (d : A) (e : B) :
  p < length l -> nth p (map f l) e = f (nth p l d).
Proof.
  intros Hp.
  rewrite (nth_indep _ e (f d)) by (rewrite length_map; exact Hp).
  apply map_nth.
Qed.

Lemma map_nth_seq {A} (l : list A) (d : A) :
  map (fun i => nth i l d) (seq 0 (length l)) = l.
Proof.
  apply (nth_ext _ _ d d).
  - now rewrite length_map, length_seq.
  - intros n Hn. rewrite length_map, length_seq in Hn.
    now rewrite nth_map_seq.
Qed.

Lemma gather_map {A B} (f : A -> B) (src : list nat) (l : list A) :
  map f (gather src l) = gather src (map f l).
Proof.
  unfold gather. induction src as [|i src IH]; simpl; [reflexivity|].
  rewrite map_app, IH, nth_error_map.
  destruct (nth_error l i); reflexivity.
Qed.

Lemma gather_full {A} (src : list nat) (l : list A) (d : A) :
  Forall (fun i => i < length l) src ->
  gather src l = map (fun i => nth i l d) src.
Proof.
  unfold gather. induction 1 as [|i src Hi _ IH]; simpl; [reflexivity|].
  rewrite IH. destruct (nth_error l i) eqn:E.
  - now rewrite (nth_error_nth _ _ _ E).
  - apply nth_error_None in E. lia.
Qed.

Lemma length_upd {A} (i : nat) (x : A) (l : list A) :
  length (upd i x l) = length l.
Proof.
  revert i; induction l as [|y l IH]; intros [|i]; simpl; auto.
Qed.

Lemma nth_upd_eq {A} (i : nat) (x d : A) (l : list A) :
  i < length l -> nth i (upd i x l) d = x.
Proof.
  revert i; induction l as [|y l IH]; intros [|i]; simpl; intros; try lia; auto.
  apply IH; lia.
Qed.

Lemma nth_upd_neq {A} (i j : nat) (x d : A) (l : list A) :
  i <> j -> nth j (upd i x l) d = nth j l d.
Proof.
  revert i j; induction l as [|y l IH]; intros [|i] [|j]; simpl; intros;
    try lia; auto.
Qed.

Lemma firstn_upd {A} (i n : nat) (x : A) (l : list A) :
  n <= i -> firstn n (upd i x l) = firstn n l.
Proof.
  revert i n; induction l as [|y l IH]; intros [|i] [|n]; simpl; intros;
    try lia; auto.
  f_equal. apply IH. lia.
Qed.

Lemma upd_app_r {A} (pre l : list A) (x : A) (i : nat) :
  upd (length pre + i) x (pre ++ l) = pre ++ upd i x l.
Proof.
  induction pre as [|y pre IH]; simpl; [reflexivity|]. now rewrite IH.
Qed.

(** In-place filling of a tensor that covers its buffer in order writes
    what [v_masked_fill] computes. *)
Lemma fill_cells_dense_gen (x : num) (rest mask pre : list num) :
  length mask = length rest ->
  fill_cells x mask (seq (length pre) (length rest)) (pre ++ rest) =
  pre ++ map (fun '(y, m) => if truthy m then x else y) (combine rest mask).
Proof.
  unfold fill_cells.
  revert mask pre; induction rest as [|y rest IH]; intros [|m mask] pre Hl;
    simpl in *; try discriminate; [reflexivity|].
  injection Hl as Hl.
  assert (E : forall z, pre ++ z :: rest = (pre ++ [z]) ++ rest)
    by (intros; now rewrite <- app_assoc).
  assert (Hn : S (length pre) = length (pre ++ [y]))
    by (rewrite length_app; simpl; lia).
  destruct (truthy m).
  - replace (upd (length pre) x (pre ++ y :: rest)) with ((pre ++ [x]) ++ rest).
    + replace (S (length pre)) with (length (pre ++ [x]))
        by (rewrite length_app; simpl; lia).
      rewrite IH by exact Hl. now rewrite <- app_assoc.
    + rewrite <- app_assoc. simpl.
      replace (length pre) with (length pre + 0) by lia.
      now rewrite upd_app_r.
  - rewrite E, Hn, IH by exact Hl. now rewrite <- app_assoc.
Qed.

Lemma fill_cells_dense (x : num) (b mask : list num) :
  length mask = length b ->
  fill_cells x mask (seq 0 (length b)) b =
  map (fun '(y, m) => if truthy m then x else y) (combine b mask).
Proof.
  intros Hl. exact (fill_cells_dense_gen x b mask [] Hl).
Qed.

(** * Row-major indexing *)

Lemma ravel_lt (sh idx : list nat) :
  in_bounds sh idx = true -> ravel sh idx < numel sh.
Proof.
  revert idx; induction sh as [|d sh IH]; intros [|i idx]; simpl;
    try discriminate; [lia|].
  intros H. apply andb_prop in H as [Hi Hb].
  apply Nat.ltb_lt in Hi. specialize (IH _ Hb). nia.
Qed.

Lemma unravel_ravel (sh idx : list nat) :
  in_bounds sh idx = true -> unravel sh (ravel sh idx) = idx.
Proof.
  revert idx; induction sh as [|d sh IH]; intros [|i idx]; simpl;
    try discriminate; [reflexivity|].
  intros H. apply andb_prop in H as [Hi Hb].
  pose proof (ravel_lt _ _ Hb) as Hr.
  assert (Hn : numel sh <> 0) by lia.
  rewrite Nat.div_add_l by exact Hn.
  rewrite (Nat.div_small _ _ Hr), Nat.add_0_r.
  rewrite Nat.add_comm, Nat.Div0.mod_add, (Nat.mod_small _ _ Hr).
  now rewrite (IH _ Hb).
Qed.

Lemma unravel_in_bounds (sh : list nat) (p : nat) :
  p < numel sh -> in_bounds sh (unravel sh p) = true.
Proof.
  revert p; induction sh as [|d sh IH]; intros p Hp; simpl in *; [reflexivity|].
  assert (Hn : numel sh <> 0) by (intros E; rewrite E in Hp; lia).
  apply andb_true_intro; split.
  - apply Nat.ltb_lt. apply Nat.Div0.div_lt_upper_bound. lia.
  - apply IH. now apply Nat.mod_upper_bound.
Qed.

Lemma in_bounds_nth (sh idx : list nat) :
  in_bounds sh idx = true <->
  length idx = length sh /\ forall k, k < length sh -> nth k idx 0 < nth k sh 0.
Proof.
  revert idx; induction sh as [|d sh IH]; intros [|i idx]; simpl.
  - split; [intros _; split; [reflexivity|intros; lia]|reflexivity].
  - split; [discriminate|intros [? _]; discriminate].
  - split; [discriminate|intros [? _]; discriminate].
  - rewrite andb_true_iff, Nat.ltb_lt, IH. split.
    + intros [Hi [Hl Hk]]. split; [now rewrite Hl|].
      intros [|k] Hlt; [exact Hi|apply Hk; lia].
    + intros [Hl Hk]. split; [apply (Hk 0); lia|].
      split; [lia|]. intros k Hlt. apply (Hk (S k)). lia.
Qed.

Lemma length_swap (i j : nat) (l : list nat) : length (swap i j l) = length l.
Proof. unfold swap. now rewrite length_map, length_seq. Qed.

Lemma nth_swap (i j k : nat) (l : list nat) :
  k < length l ->
  nth k (swap i j l) 0 =
  nth (if k =? i then j else if k =? j then i else k) l 0.
Proof. intros Hk. unfold swap. now rewrite nth_map_seq. Qed.

Lemma in_bounds_swap (i j : nat) (sh idx : list nat) :
  i < Nat.max (length sh) 1 -> j < Nat.max (length sh) 1 ->
  in_bounds (swap i j sh) idx = true ->
  in_bounds sh (swap i j idx) = true.
Proof.
  intros Hi Hj H. apply in_bounds_nth in H as [Hl Hk].
  rewrite length_swap in Hl, Hk.
  apply in_bounds_nth. rewrite length_swap. split; [exact Hl|].
  intros k Hlt.
  rewrite nth_swap by lia.
  assert (Hp : (if k =? i then j else if k =? j then i else k) < length sh).
  { destruct (k =? i) eqn:E1; [lia|]. destruct (k =? j) eqn:E2; lia. }
  specialize (Hk _ Hp). rewrite nth_swap in Hk by exact Hp.
  destruct (k =? i) eqn:E1.
  - apply Nat.eqb_eq in E1. subst k.
    destruct (j =? i) eqn:E3.
    + apply Nat.eqb_eq in E3. now subst j.
    + now rewrite Nat.eqb_refl in Hk.
  - destruct (k =? j) eqn:E2.
    + apply Nat.eqb_eq in E2. subst k. now rewrite Nat.eqb_refl in Hk.
    + now rewrite E1, E2 in Hk.
Qed.

(** * The operators on tensor values *)

Lemma norm_dim_lt (r : nat) (d : Z) (i : nat) :
  norm_dim r d = Some i -> i < Nat.max r 1.
Proof.
  unfold norm_dim. intros H.
  destruct ((- Z.of_nat (Nat.max r 1) <=? d) && (d <? Z.of_nat (Nat.max r 1)))%Z;
    [|discriminate].
  injection H as <-.
  assert (0 < Z.of_nat (Nat.max r 1))%Z by lia.
  pose proof (Z.mod_pos_bound d (Z.of_nat (Nat.max r 1)) H). lia.
Qed.

Lemma transpose_src_lt (sh : list nat) (i j : nat) :
  i < Nat.max (length sh) 1 -> j < Nat.max (length sh) 1 ->
  Forall (fun p => p < numel sh) (transpose_src sh i j).
Proof.
  intros Hi Hj. unfold transpose_src. apply Forall_forall.
  intros x Hx. apply in_map_iff in Hx as (p & <- & Hp).
  apply in_seq in Hp. apply ravel_lt, in_bounds_swap; try assumption.
  apply unravel_in_bounds. lia.
Qed.

Lemma v_transpose_spec (d0 d1 : Z) (a : tval) :
  match v_transpose d0 d1 a with
  | inl e => e = Raise Transpose IndexError /\
             (norm_dim (length (vshape a)) d0 = None \/
              norm_dim (length (vshape a)) d1 = None)
  | inr a' =>
      exists i j,
        norm_dim (length (vshape a)) d0 = Some i /\
        norm_dim (length (vshape a)) d1 = Some j /\
        vdt a' = vdt a /\ vshape a' = swap i j (vshape a) /\
        (wfv a ->
         wfv a' /\
         forall idx, in_bounds (vshape a') idx = true ->
                     get a' idx = get a (swap i j idx))
  end.
Proof.
  unfold v_transpose.
  destruct (norm_dim (length (vshape a)) d0) as [i|] eqn:E0;
    [|split; [reflexivity|now left]].
  destruct (norm_dim (length (vshape a)) d1) as [j|] eqn:E1;
    [|split; [reflexivity|now right]].
  exists i, j. repeat split; try reflexivity.
  - unfold wfv in *. simpl.
    pose proof (transpose_src_lt (vshape a) i j (norm_dim_lt _ _ _ E0) (norm_dim_lt _ _ _ E1)) as F.
    rewrite <- H in F.
    rewrite (gather_full _ _ NaN F). unfold transpose_src.
    now rewrite !length_map, length_seq.
  - intros idx Hb. unfold get at 1. simpl. simpl in Hb.
    pose proof (transpose_src_lt (vshape a) i j (norm_dim_lt _ _ _ E0) (norm_dim_lt _ _ _ E1)) as F.
    unfold wfv in H. rewrite <- H in F.
    rewrite (gather_full _ _ NaN F). unfold transpose_src.
    rewrite map_map, nth_map_seq by (now apply ravel_lt).
    now rewrite unravel_ravel.
Qed.

Lemma v_reshape_spec (sh : list nat) (a : tval) :
  match v_reshape sh a with
  | inl e => e = Raise Reshape RuntimeError /\ numel sh <> numel (vshape a)
  | inr a' => a' = TVal (vdt a) sh (vdata a) /\ numel sh = numel (vshape a)
  end.
Proof.
  unfold v_reshape. destruct (numel sh =? numel (vshape a)) eqn:E.
  - apply Nat.eqb_eq in E. now split.
  - apply Nat.eqb_neq in E. now split.
Qed.

Lemma dtype_eqb_eq (a b : dtype) : dtype_eqb a b = true <-> a = b.
Proof. destruct a, b; simpl; split; intros; congruence. Qed.

Lemma shape_eqb_eq (a b : list nat) : shape_eqb a b = true <-> a = b.
Proof.
  revert b; induction a as [|x a IH]; intros [|y b]; simpl;
    try (split; [discriminate|congruence]); [tauto|].
  rewrite andb_true_iff, Nat.eqb_eq, IH. split; [intros []|intros [=]]; now subst.
Qed.

Lemma v_matmul_spec (a b : tval) :
  match v_matmul a b with
  | inl e => e = Raise Matmul RuntimeError
  | inr c =>
      exists n r m k,
        vshape a = [n; r; m] /\ vshape b = [n; m; k] /\
        vdt b = vdt a /\ is_floating (vdt a) = true /\
        vdt c = vdt a /\ vshape c = [n; r; k] /\ wfv c /\
        forall x i j, x < n -> i < r -> j < k ->
          get c [x; i; j] =
          nsum (vdt a)
               (map (fun t => nmul (vdt a) (get a [x; i; t]) (get b [x; t; j]))
                    (seq 0 m))
  end.
Proof.
  unfold v_matmul.
  destruct (vshape a) as [|n [|r [|m [|]]]]; try reflexivity.
  destruct (vshape b) as [|n' [|m' [|k [|]]]]; try reflexivity.
  destruct (dtype_eqb (vdt a) (vdt b) && is_floating (vdt a) && (n =? n') && (m =? m'))
    eqn:E; [|reflexivity].
  apply andb_prop in E as [E Em]. apply andb_prop in E as [E En].
  apply andb_prop in E as [Ed Ef].
  apply Nat.eqb_eq in Em, En. apply dtype_eqb_eq in Ed. subst n' m'.
  exists n, r, m, k. repeat split; auto.
  - unfold wfv. cbn [vdata vshape]. now rewrite length_map, length_seq.
  - intros x i j Hx Hi Hj. unfold get at 1. cbn [vdata vshape].
    assert (Hb : in_bounds [n; r; k] [x; i; j] = true).
    { simpl. rewrite !andb_true_iff, !Nat.ltb_lt. tauto. }
    rewrite nth_map_seq by (now apply ravel_lt).
    now rewrite (unravel_ravel _ _ Hb).
Qed.

Lemma get_map (f : num -> num) (a : tval) (d : dtype) (idx : list nat) :
  wfv a -> in_bounds (vshape a) idx = true ->
  get (TVal d (vshape a) (map f (vdata a))) idx = f (get a idx).
Proof.
  intros Hw Hb. unfold get. cbn [vdata vshape].
  apply nth_map_in. rewrite Hw. now apply ravel_lt.
Qed.

Lemma truthy_bool (x : num) :
  truthy (if truthy x then Fin 1 else Fin 0) = truthy x.
Proof.
  destruct (truthy x); simpl; destruct (Req_EM_T _ _); try reflexivity; lra.
Qed.

(** The causal mask: [torch.triu(torch.ones_like(a), diagonal=1).bool()] is
    true exactly above the diagonal. *)
Lemma causal_mask_spec (a : tval) (n r c : nat) :
  vshape a = [n; r; c] ->
  exists mask,
    (forall (A : Type) (K : tval -> exn + A),
       (let? ones := v_ones_like a in
        let? upper := v_triu 1 ones in
        let? mask := v_bool upper in
        K mask) = K mask) /\
    vdt mask = TorchBool /\ vshape mask = [n; r; c] /\ wfv mask /\
    forall x i j, x < n -> i < r -> j < c ->
      truthy (get mask [x; i; j]) = (i <? j).
Proof.
  intros Hs. unfold v_ones_like, v_triu, v_bool. cbn [ebind vshape vdata vdt].
  rewrite Hs. cbn [length Nat.leb Nat.sub ebind].
  eexists. split; [reflexivity|]. cbn [vdt vshape vdata].
  repeat split.
  - unfold wfv. cbn [vdata vshape].
    now rewrite !length_map, length_seq, repeat_length.
  - intros x i j Hx Hi Hj. unfold get. cbn [vdata vshape].
    assert (Hb : in_bounds [n; r; c] [x; i; j] = true).
    { simpl. rewrite !andb_true_iff, !Nat.ltb_lt. tauto. }
    pose proof (ravel_lt _ _ Hb) as Hp.
    rewrite repeat_length.
    rewrite (nth_map_in _ _ _ NaN)
      by (now rewrite length_map, length_seq).
    rewrite truthy_bool, nth_map_seq by exact Hp.
    rewrite (unravel_ravel _ _ Hb). cbn [nth].
    destruct (1 <=? Z.of_nat j - Z.of_nat i)%Z eqn:E.
    + rewrite nth_repeat_lt by exact Hp. simpl.
      destruct (Req_EM_T 1 0); [lra|].
      symmetry. apply Nat.ltb_lt. lia.
    + simpl. destruct (Req_EM_T 0 0); [|lra].
      symmetry. apply Nat.ltb_ge. lia.
Qed.

Lemma v_matmul_ok (a b : tval) (n r m k : nat) :
  vshape a = [n; r; m] -> vshape b = [n; m; k] ->
  vdt b = vdt a -> is_floating (vdt a) = true ->
  exists c,
    v_matmul a b = inr c /\ vdt c = vdt a /\ vshape c = [n; r; k] /\ wfv c /\
    forall x i j, x < n -> i < r -> j < k ->
      get c [x; i; j] =
      nsum (vdt a)
           (map (fun t => nmul (vdt a) (get a [x; i; t]) (get b [x; t; j]))
                (seq 0 m)).
Proof.
  intros Sa Sb Hd Hf. pose proof (v_matmul_spec a b) as P.
  destruct (v_matmul a b) as [e|c] eqn:E.
  - exfalso. unfold v_matmul in E. rewrite Sa, Sb, Hd, Hf, !Nat.eqb_refl in E.
    replace (dtype_eqb (vdt a) (vdt a)) with true in E
      by (symmetry; now apply dtype_eqb_eq).
    discriminate.
  - destruct P as (n' & r' & m' & k' & Sa' & Sb' & _ & _ & Hdc & Sc & Wc & G).
    rewrite Sa in Sa'. rewrite Sb in Sb'.
    injection Sa' as <- <- <-. injection Sb' as <-.
    exists c. repeat split; auto.
Qed.

Lemma v_masked_fill_spec (mask a : tval) (x : num) :
  vdt mask = TorchBool -> vshape mask = vshape a -> wfv mask -> wfv a ->
  exists a',
    v_masked_fill mask x a = inr a' /\
    vdt a' = vdt a /\ vshape a' = vshape a /\ wfv a' /\
    forall idx, in_bounds (vshape a) idx = true ->
      get a' idx = if truthy (get mask idx) then x else get a idx.
Proof.
  intros Hd Hs Hm Ha. unfold v_masked_fill.
  rewrite Hd, Hs. simpl dtype_eqb.
  replace (shape_eqb (vshape a) (vshape a)) with true
    by (symmetry; now apply shape_eqb_eq).
  eexists. split; [reflexivity|]. cbn [vdt vshape vdata].
  assert (Hl : length (vdata a) = length (vdata mask))
    by (unfold wfv in *; congruence).
  repeat split.
  - unfold wfv. cbn [vdata vshape].
    rewrite length_map, length_combine, <- Hl, Nat.min_id. exact Ha.
  - intros idx Hb. unfold get. cbn [vdata vshape]. rewrite Hs.
    pose proof (ravel_lt _ _ Hb) as Hp.
    rewrite (nth_map_in _ _ _ (NaN, NaN))
      by (rewrite length_combine, <- Hl, Nat.min_id, Ha; exact Hp).
    now rewrite combine_nth by exact Hl.
Qed.

Lemma v_softmax_spec (a : tval) (n r c : nat) :
  vshape a = [n; r; c] -> is_floating (vdt a) = true -> wfv a ->
  exists a',
    v_softmax (-1) a = inr a' /\
    vdt a' = vdt a /\ vshape a' = [n; r; c] /\ wfv a' /\
    forall x i j, x < n -> i < r -> j < c ->
      get a' [x; i; j] =
      softmax_at (vdt a) (map (fun t => get a [x; i; t]) (seq 0 c))
                 (get a [x; i; j]).
Proof.
  intros Hs Hf Hw. unfold v_softmax. rewrite Hs, Hf.
  change (norm_dim (length [n; r; c]) (-1)) with (Some 2).
  eexists. split; [reflexivity|]. cbn [vdt vshape vdata].
  repeat split.
  - unfold wfv in *. cbn [vdata vshape].
    now rewrite length_map, length_seq, Hw, Hs.
  - intros x i j Hx Hi Hj. unfold get at 1. cbn [vdata vshape].
    assert (Hb : in_bounds [n; r; c] [x; i; j] = true).
    { simpl. rewrite !andb_true_iff, !Nat.ltb_lt. tauto. }
    pose proof (ravel_lt _ _ Hb) as Hp.
    unfold wfv in Hw. rewrite Hs in Hw.
    rewrite nth_map_seq by (rewrite Hw; exact Hp).
    rewrite (unravel_ravel _ _ Hb). cbn [nth upd].
    unfold get. now rewrite Hs.
Qed.

(** * The heap *)

Lemma ext_refl (w : world) : ext w w.
Proof. split; [exists []; now rewrite app_nil_r|auto]. Qed.

Lemma ext_trans (w1 w2 w3 : world) : ext w1 w2 -> ext w2 w3 -> ext w1 w3.
Proof.
  intros [[n1 E1] [? [? ?]]] [[n2 E2] [? [? ?]]].
  split; [exists (n1 ++ n2); now rewrite E2, E1, app_assoc|].
  repeat split; congruence.
Qed.

Lemma ext_nth (w w' : world) (b : nat) :
  ext w w' -> b < length (heap w) -> nth b (heap w') [] = nth b (heap w) [].
Proof. intros [[new H] _] Hb. rewrite H. now apply app_nth1. Qed.

Lemma ext_live (w w' : world) (t : tensor) : ext w w' -> live w t -> live w' t.
Proof.
  intros [[new H] _]. unfold live. rewrite H, length_app. lia.
Qed.

Lemma ext_contents (w w' : world) (t : tensor) :
  ext w w' -> live w t -> contents w' t = contents w t.
Proof.
  intros X L. unfold contents, cell. now rewrite (ext_nth _ _ _ X L).
Qed.

Lemma ext_tval (w w' : world) (t : tensor) :
  ext w w' -> live w t -> tval_of w' t = tval_of w t.
Proof. intros X L. unfold tval_of. now rewrite (ext_contents _ _ _ X L). Qed.

Lemma ext_dense (w w' : world) (t : tensor) :
  ext w w' -> live w t -> dense w t -> dense w' t.
Proof. intros X L. unfold dense. now rewrite (ext_nth _ _ _ X L). Qed.

Lemma ext_keeps (n : nat) (w w' : world) :
  n <= length (heap w) -> ext w w' -> keeps n w w'.
Proof.
  intros Hn [[new H] [? [? ?]]]. repeat split; try assumption.
  - rewrite H. rewrite firstn_app.
    replace (n - length (heap w)) with 0 by lia.
    now rewrite firstn_0, app_nil_r.
  - rewrite H, length_app. lia.
Qed.

Lemma keeps_trans (n : nat) (w1 w2 w3 : world) :
  keeps n w1 w2 -> keeps n w2 w3 -> keeps n w1 w3.
Proof.
  intros (? & ? & ? & ? & ?) (? & ? & ? & ? & ?).
  repeat split; try congruence. lia.
Qed.

Lemma contents_alloc (w : world) (d : list num) (t : dtype) (sh : list nat) :
  contents (set_heap (heap w ++ [d]) w)
           (Tensor (length (heap w)) t sh (seq 0 (length d))) = d.
Proof.
  unfold contents, cell. cbn [buf offs heap set_heap].
  rewrite nth_middle. apply map_nth_seq.
Qed.

Lemma ext_alloc (w : world) (d : list num) : ext w (set_heap (heap w ++ [d]) w).
Proof. split; [now exists [d]|auto]. Qed.

(** What running a torch operator that allocates its result gives. *)
Lemma lift_run (r : exn + tval) (w : world) :
  exists w' res,
    lift r w = (w', res) /\ ext w w' /\
    match r with
    | inl e => res = inl e
    | inr x =>
        exists t, res = inr t /\ live w' t /\ tval_of w' t = x /\
                  buf t = length (heap w) /\ dense w' t
    end.
Proof.
  destruct r as [e|[d sh x]]; simpl.
  - exists w, (inl e). auto using ext_refl.
  - unfold alloc. cbn [vdata vdt vshape].
    eexists _, _. split; [reflexivity|]. split; [apply ext_alloc|].
    eexists. split; [reflexivity|]. repeat split.
    + unfold live. cbn. rewrite length_app. simpl. lia.
    + unfold tval_of. cbn [dt shape]. f_equal. apply contents_alloc.
    + unfold dense. cbn [buf offs heap set_heap]. now rewrite nth_middle.
Qed.

Lemma transpose_run (t : tensor) (d0 d1 : Z) (w : world) :
  exists res,
    transpose t d0 d1 w = (w, res) /\
    match v_transpose d0 d1 (tval_of w t) with
    | inl e => res = inl e
    | inr x => exists t', res = inr t' /\ buf t' = buf t /\ tval_of w t' = x
    end.
Proof.
  unfold transpose, v_transpose. cbn [vshape tval_of].
  destruct (norm_dim (length (shape t)) d0) as [i|];
    [|eexists; split; reflexivity].
  destruct (norm_dim (length (shape t)) d1) as [j|];
    [|eexists; split; reflexivity].
  eexists. split; [reflexivity|]. eexists. split; [reflexivity|].
  split; [reflexivity|].
  unfold tval_of, contents. cbn [buf dt shape offs vdt vdata].
  now rewrite gather_map.
Qed.

Lemma reshape_run (t : tensor) (sh : list nat) (w : world) :
  live w t ->
  exists w' res,
    reshape t sh w = (w', res) /\ ext w w' /\
    match v_reshape sh (tval_of w t) with
    | inl e => res = inl e
    | inr x => exists t', res = inr t' /\ live w' t' /\ tval_of w' t' = x
    end.
Proof.
  intros L. unfold reshape, v_reshape. cbn [vshape tval_of].
  destruct (numel sh =? numel (shape t));
    [|eexists _, _; split; [reflexivity|split; [apply ext_refl|reflexivity]]].
  destruct (reshape_is_view t sh).
  - eexists _, _. split; [reflexivity|]. split; [apply ext_refl|].
    eexists. split; [reflexivity|]. split; [exact L|reflexivity].
  - unfold alloc. cbn [vdata vdt vshape].
    eexists _, _. split; [reflexivity|]. split; [apply ext_alloc|].
    eexists. split; [reflexivity|]. split.
    + unfold live. cbn. rewrite length_app. simpl. lia.
    + unfold tval_of. cbn [dt shape vdt vdata]. f_equal.
      apply contents_alloc.
Qed.

(** The in-place fill of a tensor that covers its buffer. *)
Lemma masked_fill_run (a mask : tensor) (x : num) (w : world) :
  live w a -> dense w a ->
  length (contents w mask) = length (contents w a) ->
  exists w' res,
    masked_fill_ a mask x w = (w', res) /\
    keeps (buf a) w w' /\
    (forall t, buf t <> buf a -> tval_of w' t = tval_of w t) /\
    (forall t, live w t -> live w' t) /\
    match v_masked_fill (tval_of w mask) x (tval_of w a) with
    | inl e => res = inl e
    | inr a' => res = inr a /\ tval_of w' a = a'
    end.
Proof.
  intros L D Hl. unfold masked_fill_.
  destruct (v_masked_fill (tval_of w mask) x (tval_of w a)) as [e|a'] eqn:E.
  - exists w, (inl e). split; [reflexivity|].
    split; [apply ext_keeps; [unfold live in L; lia|apply ext_refl]|]. auto.
  - eexists _, _. split; [reflexivity|].
    set (b := nth (buf a) (heap w) []) in *.
    assert (Hc : contents w a = b).
    { unfold contents, cell. fold b. rewrite D. fold b. apply map_nth_seq. }
    split; [|split; [|split; [|split]]].
    + repeat split; cbn [heap set_heap stdout warned imported]; auto.
      * now apply firstn_upd.
      * now rewrite length_upd.
    + intros t Ht. unfold tval_of, contents, cell. cbn [heap set_heap].
      now rewrite nth_upd_neq by auto.
    + intros t. unfold live. cbn [heap set_heap]. now rewrite length_upd.
    + reflexivity.
    + unfold v_masked_fill in E.
      destruct (dtype_eqb _ _ && shape_eqb _ _); [|discriminate].
      injection E as <-. unfold tval_of at 1. cbn [tval_of vdt vshape vdata].
      f_equal. unfold contents at 1, cell. cbn [heap set_heap].
      rewrite nth_upd_eq by exact L. fold b.
      assert (Ho : offs a = seq 0 (length b)) by exact D.
      rewrite Hc in *. rewrite !Ho, fill_cells_dense by exact Hl.
      set (nb := map _ (combine b (contents w mask))).
      assert (Hn : length nb = length b).
      { unfold nb. rewrite length_map, length_combine, Hl. apply Nat.min_id. }
      rewrite <- Hn. apply map_nth_seq.
Qed.

(** * Running the entry points *)

Lemma bind_ok {A B} (m : M A) (k : A -> M B) (w w1 : world) (a : A) :
  m w = (w1, inr a) -> bind m k w = k a w1.
Proof. intros E. unfold bind. now rewrite E. Qed.

Lemma bind_err {A B} (m : M A) (k : A -> M B) (w w1 : world) (e : exn) :
  m w = (w1, inl e) -> bind m k w = (w1, inl e).
Proof. intros E. unfold bind. now rewrite E. Qed.

Lemma bind_pure {A B} (r : exn + A) (k : A -> M B) (w : world) :
  bind (pure r) k w = match r with inl e => (w, inl e) | inr a => k a w end.
Proof. unfold bind, pure. now destruct r. Qed.

Lemma bind_ret {A B} (a : A) (k : A -> M B) (w : world) :
  bind (ret a) k w = k a w.
Proof. reflexivity. Qed.

Lemma bind_assoc {A B C} (m : M A) (f : A -> M B) (g : B -> M C) (w : world) :
  bind (bind m f) g w = bind m (fun x => bind (f x) g) w.
Proof. unfold bind. destruct (m w) as [w' [e|a]]; reflexivity. Qed.

Lemma keeps_ext (w0 w w' : world) :
  keeps (length (heap w0)) w0 w -> ext w w' -> keeps (length (heap w0)) w0 w'.
Proof.
  intros K X. apply (keeps_trans _ _ _ _ K). apply ext_keeps; [|exact X].
  destruct K as (_ & ? & _). lia.
Qed.

Lemma keeps_refl (n : nat) (w : world) : keeps n w w.
Proof. repeat split; auto. Qed.

Lemma view_live (w : world) (t t' : tensor) :
  buf t' = buf t -> live w t -> live w t'.
Proof. unfold live. now intros ->. Qed.

Lemma length_v_triu (d : Z) (a a' : tval) :
  v_triu d a = inr a' ->
  length (vdata a') = length (vdata a) /\ vshape a' = vshape a.
Proof.
  unfold v_triu. destruct (2 <=? length (vshape a)); [|discriminate].
  intros [= <-]. cbn. now rewrite length_map, length_seq.
Qed.

(** Facts about a tensor move along an extension of the heap. *)
Ltac advance X :=
  repeat match goal with
         | K : keeps _ _ ?w |- _ =>
             lazymatch type of X with ext w _ => apply (fun k => keeps_ext _ _ _ k X) in K end
         | L : live ?w ?t |- _ =>
             lazymatch type of X with
             | ext w _ =>
                 try match goal with
                     | H : tval_of w t = _ |- _ => rewrite <- (ext_tval _ _ _ X L) in H
                     end;
                 try match goal with
                     | D : dense w t |- _ => apply (ext_dense _ _ _ X L) in D
                     end;
                 apply (ext_live _ _ _ X) in L
             end
         end.

Ltac conj_close :=
  repeat match goal with |- _ /\ _ => split end;
  first [assumption | reflexivity].

Ltac stop_here K :=
  eexists _, _; split; [reflexivity|]; conj_close.

Ltac do_transpose t w Ht L K t' xv Ht' L' :=
  let r := fresh "r" in
  let E := fresh "E" in
  let P := fresh "P" in
  let Hb := fresh "Hb" in
  let e := fresh "e" in
  match goal with
  | |- context [bind (transpose t ?d0 ?d1) _ w] =>
      destruct (transpose_run t d0 d1 w) as (r & E & P);
      rewrite Ht in P; revert P;
      match goal with
      | |- match ?c with _ => _ end -> _ => destruct c as [e|xv]
      end;
      intros P; cbn [ebind];
      [ subst r; rewrite (bind_err _ _ _ _ _ E); stop_here K
      | destruct P as (t' & -> & Hb & Ht'); rewrite (bind_ok _ _ _ _ _ E); cbv beta;
        pose proof (view_live _ _ _ Hb L) as L' ]
  end.

Ltac do_reshape t w Ht L K w' t' xv Ht' L' X :=
  let r := fresh "r" in
  let E := fresh "E" in
  let P := fresh "P" in
  let e := fresh "e" in
  match goal with
  | |- context [bind (reshape t ?sh) _ w] =>
      destruct (reshape_run t sh w L) as (w' & r & E & X & P);
      rewrite Ht in P; revert P;
      match goal with
      | |- match ?c with _ => _ end -> _ => destruct c as [e|xv]
      end;
      intros P; cbn [ebind];
      [ subst r; rewrite (bind_err _ _ _ _ _ E); advance X; stop_here K
      | destruct P as (t' & -> & L' & Ht'); rewrite (bind_ok _ _ _ _ _ E); cbv beta;
        advance X ]
  end.

Ltac do_lift w K w' t' xv Ex Ht' L' X Hbuf D :=
  let res := fresh "res" in
  let E := fresh "E" in
  let P := fresh "P" in
  let e := fresh "e" in
  match goal with
  | |- context [bind ?m _ w] =>
      let r0 := eval cbv beta delta
                  [matmul mul_scalar ones_like triu to_bool softmax] in (m w) in
      match r0 with
      | lift ?r w =>
          destruct (lift_run r w) as (w' & res & E & X & P);
          change (lift r w) with (m w) in E;
          repeat match goal with
                 | H : tval_of w ?t = _ |- _ => rewrite H in P
                 end;
          revert P;
          match goal with
          | |- match ?c with _ => _ end -> _ => destruct c as [e|xv] eqn:Ex
          end;
          intros P; cbn [ebind];
          [ subst res; rewrite (bind_err _ _ _ _ _ E); advance X; stop_here K
          | destruct P as (t' & -> & L' & Ht' & Hbuf & D);
            rewrite (bind_ok _ _ _ _ _ E); cbv beta ]
      end
  end.

Lemma reshape_buf (t t' : tensor) (sh : list nat) (w w' : world) :
  reshape t sh w = (w', inr t') ->
  buf t' = buf t \/ buf t' = length (heap w).
Proof.
  unfold reshape. destruct (numel sh =? numel (shape t)); [|discriminate].
  destruct (reshape_is_view t sh); intros [= <- <-]; auto.
Qed.

(** [flash_attn_func] issues its warning, then computes on the heap what
    [flash_attn_trace] computes on values: it raises the same exception or
    returns a tensor holding [t_out]; the scores and the attention weights
    are tensors of the final heap.  The buffers that existed before the call
    keep their cells, and the result is on a buffer of the call. *)
Lemma flash_attn_func_run (q k v : tensor) (dropout_p : R)
    (softmax_scale : option R) (causal : bool) (window_size : Z * Z)
    (alibi_slopes : option tensor) (deterministic : bool) (w : world) :
  live w q -> live w k -> live w v ->
  exists w' res,
    flash_attn_func q k v dropout_p softmax_scale causal window_size
                    alibi_slopes deterministic w = (w', res) /\
    keeps (length (heap w)) (warned_fallback w) w' /\
    match flash_attn_trace (tval_of w q) (tval_of w k) (tval_of w v)
                           softmax_scale causal with
    | inl e => res = inl e
    | inr tr =>
        exists out sc aw,
          res = inr out /\ live w' out /\ live w' sc /\ live w' aw /\
          tval_of w' out = t_out tr /\ tval_of w' sc = t_scores tr /\
          tval_of w' aw = t_weights tr /\
          length (heap w) <= buf out
    end.
Proof.
  intros Lq Lk Lv.
  unfold flash_attn_func, flash_attn_trace.
  rewrite (bind_ok _ _ w (warned_fallback w) tt) by reflexivity.
  change (tval_of w q) with (tval_of (warned_fallback w) q).
  change (tval_of w k) with (tval_of (warned_fallback w) k).
  change (tval_of w v) with (tval_of (warned_fallback w) v).
  change (live (warned_fallback w) q) in Lq.
  change (live (warned_fallback w) k) in Lk.
  change (live (warned_fallback w) v) in Lv.
  change (length (heap w)) with (length (heap (warned_fallback w))).
  generalize (warned_fallback w) Lq Lk Lv. clear w Lq Lk Lv.
  intros w0 Lq Lk Lv.
  pose proof (keeps_refl (length (heap w0)) w0) as K.
  pose (qv := tval_of w0 q). pose (kv := tval_of w0 k). pose (vv := tval_of w0 v).
  change (tval_of w0 q) with qv. change (tval_of w0 k) with kv.
  change (tval_of w0 v) with vv.
  assert (Hq : tval_of w0 q = qv) by reflexivity.
  assert (Hk : tval_of w0 k = kv) by reflexivity.
  assert (Hv : tval_of w0 v = vv) by reflexivity.
  assert (Sq : shape q = vshape qv) by reflexivity.
  clearbody qv kv vv.
  (* batch, seqlen, nheads, headdim = q.shape *)
  rewrite bind_pure, Sq.
  destruct (unpack4 (vshape qv)) as [e|[[[B S] H] D]]; cbn [ebind];
    [stop_here K|].
  (* softmax_scale *)
  rewrite bind_pure.
  destruct (match softmax_scale with Some s => inr s | None => py_pow D (- (1 / 2)) end)
    as [e|s]; cbn [ebind]; [stop_here K|].
  (* q = q.transpose(1, 2).reshape(...) *)
  do_transpose q w0 Hq Lq K qt qtv Hqt Lqt.
  do_reshape qt w0 Hqt Lqt K w1 q1 q1v Hq1 Lq1 X1.
  (* k = k.transpose(1, 2).reshape(...) *)
  do_transpose k w1 Hk Lk K kt ktv Hkt Lkt.
  do_reshape kt w1 Hkt Lkt K w2 k1 k1v Hk1 Lk1 X2.
  (* v = v.transpose(1, 2).reshape(...) *)
  do_transpose v w2 Hv Lv K vt vtv Hvt Lvt.
  do_reshape vt w2 Hvt Lvt K w3 v1 v1v Hv1 Lv1 X3.
  (* torch.matmul(q, k.transpose(-2, -1)) * softmax_scale *)
  do_transpose k1 w3 Hk1 Lk1 K kT kTv HkT LkT.
  do_lift w3 K w4 qk qkv Eqk Hqk Lqk X4 Bqk Dqk. advance X4.
  do_lift w4 K w5 sc scv Esc Hsc Lsc X5 Bsc Dsc.
  assert (Nv : buf v1 <> buf sc) by (unfold live in Lv1; lia).
  assert (Nn : length (heap w0) <= buf sc) by (destruct K as (_ & ? & _); lia).
  advance X5.
  assert (Wsc : length (vdata scv) = numel (vshape scv)).
  { pose proof (v_matmul_spec q1v kTv) as Sm. rewrite Eqk in Sm.
    destruct Sm as (? & ? & ? & ? & _ & _ & _ & _ & _ & _ & Wqk & _).
    injection Esc as <-. cbn [vdata vshape]. now rewrite length_map. }
  (* the causal mask *)
  assert (MASK : exists w9 r,
    (if causal
     then ones <- ones_like sc ;;
          upper <- triu ones 1 ;;
          mask <- to_bool upper ;;
          masked_fill_ sc mask NInf ;;
          ret tt
     else ret tt) w5 = (w9, r) /\
    keeps (length (heap w0)) w0 w9 /\ live w9 sc /\ live w9 v1 /\
    tval_of w9 v1 = v1v /\
    match (if causal
           then let? ones := v_ones_like scv in
                let? upper := v_triu 1 ones in
                let? mask := v_bool upper in
                v_masked_fill mask NInf scv
           else inr scv) with
    | inl e => r = inl e
    | inr scm => r = inr tt /\ tval_of w9 sc = scm
    end).
  { destruct causal; [|exists w5, (inr tt); split; [reflexivity|conj_close]].
    do_lift w5 K w6 ones onesv Eones Hones Lones X6 Bones Dones. advance X6.
    do_lift w6 K w7 upper upperv Eupper Hupper Lupper X7 Bupper Dupper.
    advance X7.
    do_lift w7 K w8 mask maskv Emask Hmask Lmask X8 Bmask Dmask. advance X8.
    assert (Hlen : length (contents w8 mask) = length (contents w8 sc)).
    { change (length (vdata (tval_of w8 mask)) = length (vdata (tval_of w8 sc))).
      rewrite Hmask, Hsc, Wsc.
      injection Emask as <-. cbn [vdata]. rewrite length_map.
      destruct (length_v_triu _ _ _ Eupper) as [-> _].
      injection Eones as <-. cbn [vdata]. now rewrite repeat_length. }
    destruct (masked_fill_run sc mask NInf w8 Lsc Dsc Hlen)
      as (w9 & r & Efill & Kfill & Pres & Lpres & P).
    rewrite Hmask, Hsc in P.
    assert (K' : keeps (length (heap w0)) w0 w9).
    { apply (keeps_trans _ _ _ _ K). destruct Kfill as (F9 & ? & ? & ? & ?).
      repeat split; try assumption.
      rewrite <- (Nat.min_l _ _ Nn), <- !firstn_firstn. now rewrite F9. }
    pose proof (Lpres _ Lsc) as Lsc9. pose proof (Lpres _ Lv1) as Lv9.
    pose proof (Pres _ Nv) as Hv9. rewrite Hv1 in Hv9.
    destruct (v_masked_fill maskv NInf scv) as [e|scm].
    - subst r. rewrite (bind_err _ _ _ _ _ Efill). eexists _, _.
      split; [reflexivity|conj_close].
    - destruct P as (-> & Hsc9). rewrite (bind_ok _ _ _ _ _ Efill). cbv beta.
      eexists _, _. split; [reflexivity|conj_close]. }
  destruct MASK as (w9 & r9 & Efill & Kfill & Lsc9 & Lv9 & Hv9 & Pfill).
  clear K Hsc Lsc Dsc Hv1 Lv1. rename Kfill into K.
  revert Pfill.
  match goal with
  | |- match ?c with _ => _ end -> _ => destruct c as [e|scm]
  end; intros Pfill; cbn [ebind];
    [subst r9; rewrite (bind_err _ _ _ _ _ Efill); stop_here K|].
  destruct Pfill as (-> & Hscm). rewrite (bind_ok _ _ _ _ _ Efill). cbv beta.
  (* softmax, matmul, and back to the layout of q *)
  do_lift w9 K w10 aw awv Eaw Haw Law X10 Baw Daw. advance X10.
  do_lift w10 K w11 o3 o3v Eo3 Ho3 Lo3 X11 Bo3 Do3.
  assert (Fo3 : length (heap w0) <= buf o3) by (destruct K as (_ & ? & _); lia).
  advance X11.
  assert (N11 : length (heap w0) <= length (heap w11))
    by (destruct K as (_ & ? & _); lia).
  do_reshape o3 w11 Ho3 Lo3 K w12 o4 o4v Ho4 Lo4 X12.
  assert (Fo4 : length (heap w0) <= buf o4).
  { match goal with
    | Er : reshape o3 _ w11 = (w12, inr o4) |- _ =>
        destruct (reshape_buf _ _ _ _ _ Er) as [-> | ->]; assumption
    end. }
  destruct (transpose_run o4 1 2 w12) as (r & Eout & P).
  rewrite Ho4 in P. revert P.
  destruct (v_transpose 1 2 o4v) as [e|outv]; intros P; cbn [ebind].
  - subst r. exists w12, (inl e). split; [exact Eout|conj_close].
  - destruct P as (out & -> & Hbout & Hout).
    exists w12, (inr out). split; [exact Eout|]. split; [exact K|].
    exists out, sc, aw. cbn [t_out t_scores t_weights].
    pose proof (view_live _ _ _ Hbout Lo4). rewrite <- Hbout in Fo4. conj_close.
Qed.

(** * The values computed on inputs of one shape *)

Lemma in_bounds_3 (n r c x i j : nat) :
  x < n -> i < r -> j < c -> in_bounds [n; r; c] [x; i; j] = true.
Proof. intros. simpl. rewrite !andb_true_iff, !Nat.ltb_lt. tauto. Qed.

Lemma in_bounds_4 (a b c d x y z u : nat) :
  x < a -> y < b -> z < c -> u < d ->
  in_bounds [a; b; c; d] [x; y; z; u] = true.
Proof. intros. simpl. rewrite !andb_true_iff, !Nat.ltb_lt. tauto. Qed.

(** [a.transpose(1, 2)] of a tensor with four axes *)
Lemma v_transpose_12 (a : tval) (B S H D : nat) :
  vshape a = [B; S; H; D] -> wfv a ->
  exists a',
    v_transpose 1 2 a = inr a' /\ vdt a' = vdt a /\
    vshape a' = [B; H; S; D] /\ wfv a' /\
    forall b h i d, b < B -> h < H -> i < S -> d < D ->
      get a' [b; h; i; d] = get a [b; i; h; d].
Proof.
  intros Hs Hw. pose proof (v_transpose_spec 1 2 a) as P.
  destruct (v_transpose 1 2 a) as [e|a'].
  - destruct P as [_ [N|N]]; rewrite Hs in N; vm_compute in N; discriminate.
  - destruct P as (i & j & Ni & Nj & Hd & Hsh & Hg).
    rewrite Hs in Ni, Nj. vm_compute in Ni, Nj.
    injection Ni as <-. injection Nj as <-.
    rewrite Hs in Hsh. cbn in Hsh.
    destruct (Hg Hw) as [Hw' Hget].
    exists a'. repeat split; auto.
    intros b h i d Hb Hh Hi Hdd.
    rewrite Hget by (rewrite Hsh; now apply in_bounds_4).
    reflexivity.
Qed.

(** [a.transpose(-2, -1)] of a batch of matrices *)
Lemma v_transpose_last (a : tval) (n r c : nat) :
  vshape a = [n; r; c] -> wfv a ->
  exists a',
    v_transpose (-2) (-1) a = inr a' /\ vdt a' = vdt a /\
    vshape a' = [n; c; r] /\ wfv a' /\
    forall x j i, x < n -> j < c -> i < r ->
      get a' [x; j; i] = get a [x; i; j].
Proof.
  intros Hs Hw. pose proof (v_transpose_spec (-2) (-1) a) as P.
  destruct (v_transpose (-2) (-1) a) as [e|a'].
  - destruct P as [_ [N|N]]; rewrite Hs in N; vm_compute in N; discriminate.
  - destruct P as (i & j & Ni & Nj & Hd & Hsh & Hg).
    rewrite Hs in Ni, Nj. vm_compute in Ni, Nj.
    injection Ni as <-. injection Nj as <-.
    rewrite Hs in Hsh. cbn in Hsh.
    destruct (Hg Hw) as [Hw' Hget].
    exists a'. repeat split; auto.
    intros x j i Hx Hj Hi.
    rewrite Hget by (rewrite Hsh; now apply in_bounds_3).
    reflexivity.
Qed.

(** Batch and head axes merged into one, and split again. *)
Lemma v_reshape_merge (a : tval) (B H S D : nat) :
  vshape a = [B; H; S; D] -> wfv a ->
  exists a',
    v_reshape [B * H; S; D] a = inr a' /\ vdt a' = vdt a /\
    vshape a' = [B * H; S; D] /\ wfv a' /\
    forall b h i d, get a' [b * H + h; i; d] = get a [b; h; i; d].
Proof.
  intros Hs Hw. unfold v_reshape. rewrite Hs.
  replace (numel [B * H; S; D] =? numel [B; H; S; D]) with true
    by (symmetry; apply Nat.eqb_eq; simpl; lia).
  eexists. split; [reflexivity|]. cbn [vdt vshape]. repeat split.
  - unfold wfv in *. cbn [vdata vshape]. rewrite Hw, Hs. simpl. lia.
  - intros b h i d. unfold get. cbn [vdata vshape]. rewrite Hs.
    f_equal. simpl. lia.
Qed.

Lemma v_reshape_split (a : tval) (B H S D : nat) :
  vshape a = [B * H; S; D] -> wfv a ->
  exists a',
    v_reshape [B; H; S; D] a = inr a' /\ vdt a' = vdt a /\
    vshape a' = [B; H; S; D] /\ wfv a' /\
    forall b h i d, get a' [b; h; i; d] = get a [b * H + h; i; d].
Proof.
  intros Hs Hw. unfold v_reshape. rewrite Hs.
  replace (numel [B; H; S; D] =? numel [B * H; S; D]) with true
    by (symmetry; apply Nat.eqb_eq; simpl; lia).
  eexists. split; [reflexivity|]. cbn [vdt vshape]. repeat split.
  - unfold wfv in *. cbn [vdata vshape]. rewrite Hw, Hs. simpl. lia.
  - intros b h i d. unfold get. cbn [vdata vshape]. rewrite Hs.
    f_equal. simpl. lia.
Qed.

Lemma merged_lt (B H b h : nat) : b < B -> h < H -> b * H + h < B * H.
Proof. nia. Qed.

(** What [flash_attn_func] computes from three tensors of one shape and one
    floating dtype, element by element. *)
Lemma flash_attn_trace_formula (q k v : tval) (B S H D : nat)
    (softmax_scale : option R) (s : R) (causal : bool) :
  vshape q = [B; S; H; D] -> vshape k = [B; S; H; D] ->
  vshape v = [B; S; H; D] ->
  wfv q -> wfv k -> wfv v ->
  vdt k = vdt q -> vdt v = vdt q -> is_floating (vdt q) = true ->
  effective_scale softmax_scale D = inr s ->
  exists tr,
    flash_attn_trace q k v softmax_scale causal = inr tr /\
    (vshape (t_out tr) = [B; S; H; D] /\ vdt (t_out tr) = vdt q /\
     wfv (t_out tr)) /\
    (vshape (t_scores tr) = [B * H; S; S] /\
     vshape (t_weights tr) = [B * H; S; S]) /\
    (forall b h i j, b < B -> h < H -> i < S -> j < S ->
       get (t_scores tr) [b * H + h; i; j] =
       if causal && (i <? j) then NInf
       else nmul (vdt q)
                 (nsum (vdt q)
                       (map (fun d => nmul (vdt q) (get q [b; i; h; d])
                                           (get k [b; j; h; d]))
                            (seq 0 D)))
                 (fl (vdt q) s)) /\
    (forall x i j, x < B * H -> i < S -> j < S ->
       get (t_weights tr) [x; i; j] =
       softmax_at (vdt q) (map (fun t => get (t_scores tr) [x; i; t]) (seq 0 S))
                  (get (t_scores tr) [x; i; j])) /\
    (forall b i h d, b < B -> i < S -> h < H -> d < D ->
       get (t_out tr) [b; i; h; d] =
       nsum (vdt q)
            (map (fun j => nmul (vdt q) (get (t_weights tr) [b * H + h; i; j])
                                (get v [b; j; h; d]))
                 (seq 0 S))).
Proof.
  intros Sq Sk Sv Wq Wk Wv Dk Dv Fq Hscale.
  unfold flash_attn_trace. rewrite Sq. cbn [unpack4 ebind].
  unfold effective_scale in Hscale. rewrite Hscale. cbn [ebind].
  destruct (v_transpose_12 q B S H D Sq Wq) as (qt & -> & Dqt & Sqt & Wqt & Gqt).
  cbn [ebind].
  destruct (v_reshape_merge qt B H S D Sqt Wqt) as (q1 & -> & Dq1 & Sq1 & Wq1 & Gq1).
  cbn [ebind].
  destruct (v_transpose_12 k B S H D Sk Wk) as (kt & -> & Dkt & Skt & Wkt & Gkt).
  cbn [ebind].
  destruct (v_reshape_merge kt B H S D Skt Wkt) as (k1 & -> & Dk1 & Sk1 & Wk1 & Gk1).
  cbn [ebind].
  destruct (v_transpose_12 v B S H D Sv Wv) as (vt & -> & Dvt & Svt & Wvt & Gvt).
  cbn [ebind].
  destruct (v_reshape_merge vt B H S D Svt Wvt) as (v1 & -> & Dv1 & Sv1 & Wv1 & Gv1).
  cbn [ebind].
  destruct (v_transpose_last k1 (B * H) S D Sk1 Wk1) as (kT & -> & DkT & SkT & WkT & GkT).
  cbn [ebind].
  assert (Fq1 : is_floating (vdt q1) = true) by (now rewrite Dq1, Dqt).
  destruct (v_matmul_ok q1 kT (B * H) S D S Sq1 SkT) as (qk & -> & Dqk & Sqk & Wqk & Gqk);
    [congruence|exact Fq1|].
  cbn [ebind]. unfold v_mul_scalar at 1. cbv zeta. cbn [ebind].
  assert (Eq1 : vdt q1 = vdt q) by congruence.
  rewrite Eq1 in Gqk, Dqk, Fq1.
  rewrite Dqk, Fq1, Sqk.
  set (sc := TVal (vdt q) [B * H; S; S]
                  (map (fun x => nmul (vdt q) x (fl (vdt q) s)) (vdata qk))).
  assert (Wsc : wfv sc).
  { unfold wfv, sc in *. cbn [vdata vshape]. now rewrite length_map, Wqk, Sqk. }
  assert (Gsc : forall b h i j, b < B -> h < H -> i < S -> j < S ->
            get sc [b * H + h; i; j] =
            nmul (vdt q)
                 (nsum (vdt q)
                       (map (fun d => nmul (vdt q) (get q [b; i; h; d])
                                           (get k [b; j; h; d]))
                            (seq 0 D)))
                 (fl (vdt q) s)).
  { intros b h i j Hb Hh Hi Hj. pose proof (merged_lt B H b h Hb Hh) as Hx.
    unfold sc. rewrite <- Sqk.
    rewrite get_map by (try assumption; rewrite Sqk; now apply in_bounds_3).
    rewrite Gqk by assumption. apply f_equal2; [|reflexivity]. apply f_equal.
    apply map_ext_in. intros d Hd. apply in_seq in Hd.
    rewrite Gq1, Gqt, GkT, Gk1, Gkt by (assumption || lia). reflexivity. }
  assert (Hscm : exists scm,
    (if causal
     then let? ones := v_ones_like sc in
          let? upper := v_triu 1 ones in
          let? mask := v_bool upper in
          v_masked_fill mask NInf sc
     else inr sc) = inr scm /\
    vdt scm = vdt q /\ vshape scm = [B * H; S; S] /\ wfv scm /\
    forall b h i j, b < B -> h < H -> i < S -> j < S ->
      get scm [b * H + h; i; j] =
      if causal && (i <? j) then NInf else get sc [b * H + h; i; j]).
  { destruct causal.
    - destruct (causal_mask_spec sc (B * H) S S eq_refl)
        as (mask & -> & Dm & Sm & Wm & Gm).
      destruct (v_masked_fill_spec mask sc NInf Dm Sm Wm Wsc)
        as (scm & -> & Dscm & Sscm & Wscm & Gscm).
      exists scm. repeat split; auto.
      intros b h i j Hb Hh Hi Hj. pose proof (merged_lt B H b h Hb Hh) as Hx.
      rewrite Gscm by (now apply in_bounds_3).
      now rewrite Gm by assumption.
    - exists sc. repeat split; auto. }
  destruct Hscm as (scm & -> & Dscm & Sscm & Wscm & Gscm). cbn [ebind].
  destruct (v_softmax_spec scm (B * H) S S Sscm) as (aw & -> & Daw & Saw & Waw & Gaw);
    [congruence|exact Wscm|].
  cbn [ebind]. rewrite Dscm in Gaw.
  destruct (v_matmul_ok aw v1 (B * H) S S D Saw Sv1) as (o3 & -> & Do3 & So3 & Wo3 & Go3);
    [congruence|congruence|].
  cbn [ebind]. rewrite Daw, Dscm in Go3.
  destruct (v_reshape_split o3 B H S D So3 Wo3) as (o4 & -> & Do4 & So4 & Wo4 & Go4).
  cbn [ebind].
  destruct (v_transpose_12 o4 B H S D So4 Wo4) as (out & -> & Dout & Sout & Wout & Gout).
  cbn [ebind].
  eexists. split; [reflexivity|]. cbn [t_out t_scores t_weights].
  split; [repeat split; [assumption|congruence|assumption]|].
  split; [split; assumption|].
  split; [|split].
  - intros b h i j Hb Hh Hi Hj. rewrite Gscm by assumption.
    now rewrite Gsc by assumption.
  - exact Gaw.
  - intros b i h d Hb Hi Hh Hd. pose proof (merged_lt B H b h Hb Hh) as Hx.
    rewrite Gout, Go4, Go3 by assumption. apply f_equal.
    apply map_ext_in. intros j Hj. apply in_seq in Hj.
    rewrite Gv1, Gvt by (assumption || lia). reflexivity.
Qed.

(** * Rows of the scores *)

Lemma split_row (B H x : nat) :
  x < B * H -> exists b h, b < B /\ h < H /\ x = b * H + h.
Proof.
  intros Hx. assert (H <> 0) by nia.
  exists (x / H), (x mod H). repeat split.
  - apply Nat.Div0.div_lt_upper_bound. lia.
  - now apply Nat.mod_upper_bound.
  - rewrite Nat.mul_comm. apply Nat.div_mod_eq.
Qed.

(** ** Sums of reals *)









(** ** The maximum of a row *)


(** ** The exponentials of a row, in the standard model *)





(** A sum whose terms from position [n] on are zero stops at [n]. *)
Lemma nsum_zeros (d : dtype) (l : list num) :
  fl d 0 = Fin 0 -> (forall x, In x l -> x = Fin 0) -> nsum d l = Fin 0.
Proof.
  intros Z. induction l as [|x l IH]; intros Hl; [reflexivity|].
  cbn [nsum fold_right]. fold (nsum d l).
  rewrite IH by (intros; apply Hl; now right).
  rewrite (Hl x (or_introl eq_refl)). cbn [nadd].
  now rewrite Rplus_0_l.
Qed.


(** * What a call can end with *)

Lemma effective_scale_err (softmax_scale : option R) (D : nat) (e : exn) :
  effective_scale softmax_scale D = inl e -> e = Raise Pow ZeroDivisionError.
Proof.
  unfold effective_scale, py_pow. destruct softmax_scale; [discriminate|].
  destruct D; [|discriminate].
  destruct (Rlt_dec _ _); [congruence|]. destruct (Req_EM_T _ _); discriminate.
Qed.

Lemma effective_scale_defined (softmax_scale : option R) (D : nat) :
  defined_scale softmax_scale D = true ->
  effective_scale softmax_scale D = inr (scale_value softmax_scale D).
Proof.
  unfold defined_scale, effective_scale, scale_value, py_pow.
  destruct softmax_scale; [reflexivity|]. destruct D; [discriminate|reflexivity].
Qed.

Ltac leaf := subst; simpl; auto 10.

Lemma effective_scale_inr (softmax_scale : option R) (D : nat) (s : R) :
  effective_scale softmax_scale D = inr s -> defined_scale softmax_scale D = true.
Proof.
  unfold effective_scale, defined_scale, py_pow.
  destruct softmax_scale; [reflexivity|]. destruct D; [|reflexivity].
  destruct (Rlt_dec _ _) as [|N]; [discriminate|]. exfalso. apply N. lra.
Qed.

(** Whatever the three tensors are, [flash_attn_func] on values ends with one
    of five exceptions or with a result of the shape and dtype of the query;
    it has a result only if the three dtypes are one floating dtype and the
    scale exists. *)
Lemma flash_attn_trace_outcome (q k v : tval) (softmax_scale : option R)
    (causal : bool) :
  match flash_attn_trace q k v softmax_scale causal with
  | inl e => In e native_errors
  | inr tr =>
      vshape (t_out tr) = vshape q /\ vdt (t_out tr) = vdt q /\
      vdt k = vdt q /\ vdt v = vdt q /\ is_floating (vdt q) = true /\
      exists B S H D,
        vshape q = [B; S; H; D] /\ defined_scale softmax_scale D = true
  end.
Proof.
  unfold flash_attn_trace.
  destruct (vshape q) as [|B [|S [|H [|D [|]]]]] eqn:Sq; cbn [unpack4 ebind];
    try (now leaf).
  fold (effective_scale softmax_scale D).
  destruct (effective_scale softmax_scale D) as [e|s] eqn:Es; cbn [ebind];
    [apply effective_scale_err in Es; now leaf|].
  (* q *)
  pose proof (v_transpose_spec 1 2 q) as P.
  destruct (v_transpose 1 2 q) as [e|qt]; cbn [ebind];
    [destruct P as [-> _]; now leaf|].
  destruct P as (i & j & _ & _ & Dqt & _).
  pose proof (v_reshape_spec [B * H; S; D] qt) as P.
  destruct (v_reshape [B * H; S; D] qt) as [e|q1]; cbn [ebind];
    [destruct P as [-> _]; now leaf|].
  destruct P as [-> _]. clear i j.
  (* k *)
  pose proof (v_transpose_spec 1 2 k) as P.
  destruct (v_transpose 1 2 k) as [e|kt]; cbn [ebind];
    [destruct P as [-> _]; now leaf|].
  destruct P as (i & j & _ & _ & Dkt & _). clear i j.
  pose proof (v_reshape_spec [B * H; S; D] kt) as P.
  destruct (v_reshape [B * H; S; D] kt) as [e|k1]; cbn [ebind];
    [destruct P as [-> _]; now leaf|].
  destruct P as [-> _].
  (* v *)
  pose proof (v_transpose_spec 1 2 v) as P.
  destruct (v_transpose 1 2 v) as [e|vt]; cbn [ebind];
    [destruct P as [-> _]; now leaf|].
  destruct P as (i & j & _ & _ & Dvt & _). clear i j.
  pose proof (v_reshape_spec [B * H; S; D] vt) as P.
  destruct (v_reshape [B * H; S; D] vt) as [e|v1]; cbn [ebind];
    [destruct P as [-> _]; now leaf|].
  destruct P as [-> _].
  (* scores *)
  pose proof (v_transpose_spec (-2) (-1) (TVal (vdt kt) [B * H; S; D] (vdata kt))) as P.
  destruct (v_transpose (-2) (-1) _) as [e|kT]; cbn [ebind];
    [destruct P as [-> _]; now leaf|].
  destruct P as (i & j & Ni & Nj & DkT & SkT & _).
  cbn [vshape vdt] in Ni, Nj, SkT, DkT. vm_compute in Ni, Nj.
  injection Ni as <-. injection Nj as <-. cbn in SkT.
  pose proof (v_matmul_spec (TVal (vdt qt) [B * H; S; D] (vdata qt)) kT) as P.
  destruct (v_matmul _ kT) as [e|qk]; cbn [ebind]; [now leaf|].
  destruct P as (n & r & m & c & Sa & Sb & Dkq & Fq & Dqk & Sqk & Wqk & _).
  cbn [vshape vdt] in Sa, Fq, Dqk, Dkq. rewrite SkT in Sb.
  injection Sa as <- <- <-. injection Sb as <-.
  unfold v_mul_scalar at 1. cbv zeta. cbn [ebind]. rewrite Dqk, Fq, Sqk.
  set (sc := TVal (vdt qt) [B * H; S; S]
                  (map (fun x => nmul (vdt qt) x (fl (vdt qt) s)) (vdata qk))).
  assert (Wsc : wfv sc).
  { unfold wfv, sc in *. cbn [vdata vshape]. now rewrite length_map, Wqk, Sqk. }
  assert (Hscm : exists scm,
    (if causal
     then let? ones := v_ones_like sc in
          let? upper := v_triu 1 ones in
          let? mask := v_bool upper in
          v_masked_fill mask NInf sc
     else inr sc) = inr scm /\
    vdt scm = vdt qt /\ vshape scm = [B * H; S; S] /\ wfv scm).
  { destruct causal.
    - destruct (causal_mask_spec sc (B * H) S S eq_refl)
        as (mask & -> & Dm & Sm & Wm & _).
      destruct (v_masked_fill_spec mask sc NInf Dm Sm Wm Wsc)
        as (scm & -> & Dscm & Sscm & Wscm & _).
      exists scm. repeat split; auto.
    - exists sc. repeat split; auto. }
  destruct Hscm as (scm & -> & Dscm & Sscm & Wscm). cbn [ebind].
  destruct (v_softmax_spec scm (B * H) S S Sscm) as (aw & -> & Daw & Saw & Waw & _);
    [congruence|exact Wscm|].
  cbn [ebind].
  (* the result *)
  pose proof (v_matmul_spec aw (TVal (vdt vt) [B * H; S; D] (vdata vt))) as P.
  destruct (v_matmul aw _) as [e|o3]; cbn [ebind]; [now leaf|].
  destruct P as (n & r & m & c & Sa & Sb & Dva & _ & Do3 & So3 & Wo3 & _).
  cbn [vshape vdt] in Sb, Dva. rewrite Saw in Sa.
  injection Sa as <- <- <-. injection Sb as <-.
  destruct (v_reshape_split o3 B H S D So3 Wo3) as (o4 & -> & Do4 & So4 & Wo4 & _).
  cbn [ebind].
  destruct (v_transpose_12 o4 B H S D So4 Wo4) as (out & -> & Dout & Sout & _).
  cbn [ebind t_out]. split; [assumption|]. split; [congruence|].
  split; [congruence|]. split; [congruence|]. split; [congruence|].
  exists B, S, H, D. split; [reflexivity|]. exact (effective_scale_inr _ _ _ Es).
Qed.

(** * Only the heap is read *)

Lemma tval_of_heap (w1 w2 : world) (t : tensor) :
  heap w1 = heap w2 -> tval_of w1 t = tval_of w2 t.
Proof. intros E. unfold tval_of, contents, cell. now rewrite E. Qed.

Lemma respects_ret {A} (a : A) : respects (ret a).
Proof.
  split; [now intros|]. intros w1 w2 E. repeat split; auto.
  exists []. now rewrite !app_nil_r.
Qed.

Lemma respects_pure {A} (r : exn + A) : respects (pure r).
Proof.
  split; [now intros|]. intros w1 w2 E. repeat split; auto.
  exists []. now rewrite !app_nil_r.
Qed.

Lemma respects_warn (msg : string) (c : category) : respects (warnings_warn msg c).
Proof.
  split; [now intros|]. intros w1 w2 E. repeat split; auto.
  now exists [(c, msg)].
Qed.

Lemma respects_bind {A B} (m : M A) (k : A -> M B) :
  respects m -> (forall a, respects (k a)) -> respects (bind m k).
Proof.
  intros [Qm Rm] Hk. split.
  - intros w. unfold bind. specialize (Qm w).
    destruct (m w) as [w' [e|a]]; [exact Qm|].
    destruct (Hk a) as [Qk _]. specialize (Qk w'). simpl in Qm.
    destruct Qm, Qk. split; congruence.
  - intros w1 w2 E. unfold bind. specialize (Rm w1 w2 E).
    destruct (m w1) as [w1' [e1|a1]], (m w2) as [w2' [e2|a2]];
      simpl in Rm; destruct Rm as (Er & Eh & l & L1 & L2); try discriminate.
    + injection Er as <-. split; [reflexivity|]. split; [exact Eh|]. now exists l.
    + injection Er as <-. destruct (Hk a1) as [_ Rk].
      destruct (Rk w1' w2' Eh) as (Er' & Eh' & l' & L1' & L2').
      split; [exact Er'|]. split; [exact Eh'|]. exists (l ++ l').
      rewrite L1', L2', L1, L2. now rewrite !app_assoc.
Qed.

Lemma respects_lift1 (F : tval -> exn + tval) (a : tensor) :
  respects (fun w => lift (F (tval_of w a)) w).
Proof.
  split.
  - intros w. unfold lift. now destruct (F (tval_of w a)).
  - intros w1 w2 E. rewrite (tval_of_heap w1 w2 a E). unfold lift.
    destruct (F (tval_of w2 a)); simpl; rewrite ?E; repeat split; auto;
      exists []; now rewrite !app_nil_r.
Qed.

Lemma respects_lift2 (F : tval -> tval -> exn + tval) (a b : tensor) :
  respects (fun w => lift (F (tval_of w a) (tval_of w b)) w).
Proof.
  split.
  - intros w. unfold lift. now destruct (F (tval_of w a) (tval_of w b)).
  - intros w1 w2 E.
    rewrite (tval_of_heap w1 w2 a E), (tval_of_heap w1 w2 b E). unfold lift.
    destruct (F (tval_of w2 a) (tval_of w2 b)); simpl; rewrite ?E;
      repeat split; auto; exists []; now rewrite !app_nil_r.
Qed.

Lemma respects_transpose (t : tensor) (d0 d1 : Z) : respects (transpose t d0 d1).
Proof.
  unfold transpose.
  destruct (norm_dim _ d0); [destruct (norm_dim _ d1)|];
    first [apply respects_ret | apply (respects_pure (inl _))].
Qed.

Lemma respects_reshape (t : tensor) (sh : list nat) : respects (reshape t sh).
Proof.
  unfold reshape. destruct (numel sh =? numel (shape t));
    [|apply (respects_pure (inl _))].
  destruct (reshape_is_view t sh); [apply respects_ret|].
  exact (respects_lift1 (fun x => inr (TVal (dt t) sh (vdata x))) t).
Qed.

Lemma respects_masked_fill (a mask : tensor) (x : num) :
  respects (masked_fill_ a mask x).
Proof.
  split.
  - intros w. unfold masked_fill_. now destruct (v_masked_fill _ _ _).
  - intros w1 w2 E. unfold masked_fill_, contents, cell.
    rewrite (tval_of_heap w1 w2 a E), (tval_of_heap w1 w2 mask E), E.
    destruct (v_masked_fill _ _ _); simpl; repeat split; auto;
      exists []; now rewrite !app_nil_r.
Qed.

Ltac respects_step :=
  first
    [ apply respects_ret
    | apply respects_pure
    | apply respects_warn
    | apply respects_transpose
    | apply respects_reshape
    | apply respects_masked_fill
    | exact (respects_lift2 v_matmul _ _)
    | exact (respects_lift1 (v_mul_scalar _) _)
    | exact (respects_lift1 v_ones_like _)
    | exact (respects_lift1 (v_triu _) _)
    | exact (respects_lift1 v_bool _)
    | exact (respects_lift1 (v_softmax _) _)
    | apply respects_bind; [|intros ?]
    | match goal with
      | |- respects (match ?x with _ => _ end) => destruct x
      end ].

Lemma respects_flash_attn_func (q k v : tensor) (dropout_p : R)
    (softmax_scale : option R) (causal : bool) (window_size : Z * Z)
    (alibi_slopes : option tensor) (deterministic : bool) :
  respects (flash_attn_func q k v dropout_p softmax_scale causal window_size
                            alibi_slopes deterministic).
Proof. unfold flash_attn_func. repeat respects_step. Qed.

Lemma respects_flash_attn_varlen_func (q k v cu_seqlens_q cu_seqlens_k : tensor)
    (max_seqlen_q max_seqlen_k : nat) (dropout_p : R)
    (softmax_scale : option R) (causal : bool) (window_size : Z * Z)
    (alibi_slopes : option tensor) (deterministic : bool) :
  respects (flash_attn_varlen_func q k v cu_seqlens_q cu_seqlens_k
              max_seqlen_q max_seqlen_k dropout_p softmax_scale causal
              window_size alibi_slopes deterministic).
Proof.
  unfold flash_attn_varlen_func. apply respects_bind; [apply respects_warn|].
  intros _. apply respects_flash_attn_func.
Qed.

(** * Inputs of one shape *)

Lemma wf_facts (w : world) (t : tensor) :
  wf w t = true -> live w t /\ wfv (tval_of w t).
Proof.
  unfold wf. rewrite andb_true_iff, Nat.ltb_lt, Nat.eqb_eq. intros [L E].
  split; [exact L|]. unfold wfv, tval_of, contents. cbn [vdata vshape].
  now rewrite length_map.
Qed.

Lemma same_shape_inputs_facts (w : world) (q k v : tensor) (B S H D : nat) :
  same_shape_inputs w q k v B S H D = true ->
  (live w q /\ live w k /\ live w v) /\
  (wfv (tval_of w q) /\ wfv (tval_of w k) /\ wfv (tval_of w v)) /\
  (shape q = [B; S; H; D] /\ shape k = [B; S; H; D] /\ shape v = [B; S; H; D]).
Proof.
  unfold same_shape_inputs. rewrite !andb_true_iff, !shape_eqb_eq.
  intros [[[[[Wq Wk] Wv] Sq] Sk] Sv].
  apply wf_facts in Wq, Wk, Wv. tauto.
Qed.

Lemma floating_inputs_facts (q k v : tensor) :
  floating_inputs q k v = true <->
  dt k = dt q /\ dt v = dt q /\ is_floating (dt q) = true.
Proof.
  unfold floating_inputs. rewrite !andb_true_iff, !dtype_eqb_eq. tauto.
Qed.

Lemma real_valued_get (w : world) (t : tensor) (idx : list nat) :
  real_valued w t = true -> wfv (tval_of w t) ->
  in_bounds (shape t) idx = true ->
  exists r, get (tval_of w t) idx = Fin r.
Proof.
  intros Hr Hw Hb. unfold get. cbn [vshape vdata tval_of].
  unfold real_valued in Hr. rewrite forallb_forall in Hr.
  assert (Hp : ravel (shape t) idx < length (contents w t)).
  { unfold wfv in Hw. cbn [vshape vdata tval_of] in Hw. rewrite Hw.
    now apply ravel_lt. }
  specialize (Hr _ (nth_In _ NaN Hp)).
  destruct (nth _ _ _) as [r| | |]; try discriminate. now exists r.
Qed.

(** On three tensors of the shape [(B, S, H, D)] and one floating dtype,
    with a scale, [flash_attn_func] returns.  The scores the softmax read,
    the attention weights it returned and the result are tensors of the
    final heap; element by element they are what scaled dot-product
    attention says, in the arithmetic of the dtype. *)
Lemma flash_attn_func_computes (w : world) (q k v : tensor) (B S H D : nat)
    (dropout_p : R) (softmax_scale : option R) (causal : bool)
    (window_size : Z * Z) (alibi_slopes : option tensor) (deterministic : bool) :
  same_shape_inputs w q k v B S H D = true ->
  floating_inputs q k v = true ->
  defined_scale softmax_scale D = true ->
  exists w' out sc aw,
    flash_attn_func q k v dropout_p softmax_scale causal window_size
                    alibi_slopes deterministic w = (w', inr out) /\
    flash_attn_trace (tval_of w q) (tval_of w k) (tval_of w v) softmax_scale
                     causal
    = inr (Trace (tval_of w' sc) (tval_of w' aw) (tval_of w' out)) /\
    (shape out = [B; S; H; D] /\ dt out = dt q /\
     shape sc = [B * H; S; S] /\ shape aw = [B * H; S; S] /\
     wfv (tval_of w' out)) /\
    (forall b h i j, b < B -> h < H -> i < S -> j < S ->
       get (tval_of w' sc) [b * H + h; i; j] =
       if causal && (i <? j) then NInf
       else nmul (dt q)
                 (nsum (dt q)
                       (map (fun d => nmul (dt q) (get (tval_of w q) [b; i; h; d])
                                           (get (tval_of w k) [b; j; h; d]))
                            (seq 0 D)))
                 (fl (dt q) (scale_value softmax_scale D))) /\
    (forall x i j, x < B * H -> i < S -> j < S ->
       get (tval_of w' aw) [x; i; j] =
       softmax_at (dt q)
                  (map (fun t => get (tval_of w' sc) [x; i; t]) (seq 0 S))
                  (get (tval_of w' sc) [x; i; j])) /\
    (forall b i h d, b < B -> i < S -> h < H -> d < D ->
       get (tval_of w' out) [b; i; h; d] =
       nsum (dt q)
            (map (fun j => nmul (dt q) (get (tval_of w' aw) [b * H + h; i; j])
                                (get (tval_of w v) [b; j; h; d]))
                 (seq 0 S))).
Proof.
  intros Hin Hfl Hsc.
  destruct (same_shape_inputs_facts _ _ _ _ _ _ _ _ Hin)
    as ((Lq & Lk & Lv) & (Wq & Wk & Wv) & (Sq & Sk & Sv)).
  apply floating_inputs_facts in Hfl as (Dk & Dv & F).
  destruct (flash_attn_func_run q k v dropout_p softmax_scale causal window_size
              alibi_slopes deterministic w Lq Lk Lv) as (w' & res & E & _ & P).
  destruct (flash_attn_trace_formula (tval_of w q) (tval_of w k) (tval_of w v)
              B S H D softmax_scale (scale_value softmax_scale D) causal
              Sq Sk Sv Wq Wk Wv Dk Dv F (effective_scale_defined _ _ Hsc))
    as (tr & Etr & (So & Do & Wo) & (Ssc & Saw) & Gsc & Gaw & Gout).
  rewrite Etr in P. destruct P as (out & sc & aw & -> & _ & _ & _ & Ho & Hs & Ha & _).
  exists w', out, sc, aw. split; [exact E|].
  rewrite Ho, Hs, Ha.
  split; [rewrite Etr; now destruct tr|].
  split; [|split; [exact Gsc|split; [exact Gaw|exact Gout]]].
  rewrite <- Ho in So, Do. rewrite <- Hs in Ssc. rewrite <- Ha in Saw.
  repeat split; assumption.
Qed.

(** A call on inputs of one shape that returns had one floating dtype and a
    scale. *)
Lemma flash_attn_func_returned (w w' : world) (q k v out : tensor)
    (B S H D : nat) (dropout_p : R) (softmax_scale : option R) (causal : bool)
    (window_size : Z * Z) (alibi_slopes : option tensor) (deterministic : bool) :
  same_shape_inputs w q k v B S H D = true ->
  flash_attn_func q k v dropout_p softmax_scale causal window_size
                  alibi_slopes deterministic w = (w', inr out) ->
  floating_inputs q k v = true /\ defined_scale softmax_scale D = true.
Proof.
  intros Hin E.
  destruct (same_shape_inputs_facts _ _ _ _ _ _ _ _ Hin)
    as ((Lq & Lk & Lv) & _ & (Sq & _)).
  destruct (flash_attn_func_run q k v dropout_p softmax_scale causal window_size
              alibi_slopes deterministic w Lq Lk Lv) as (w1 & res & E1 & _ & P).
  rewrite E in E1. injection E1 as <- <-.
  pose proof (flash_attn_trace_outcome (tval_of w q) (tval_of w k) (tval_of w v)
                softmax_scale causal) as O.
  destruct (flash_attn_trace _ _ _ _ _) as [e|tr]; [discriminate|].
  destruct O as (_ & _ & Dk & Dv & F & B' & S' & H' & D' & Sq' & Hsc).
  cbn [vshape vdt tval_of] in Dk, Dv, F, Sq'. rewrite Sq in Sq'.
  injection Sq' as -> -> -> ->.
  split; [|exact Hsc]. apply floating_inputs_facts. auto.
Qed.

(** * The exception of a call *)

Lemma norm_dim_small (r d : nat) :
  d < Nat.max r 1 -> norm_dim r (Z.of_nat d) = Some d.
Proof.
  intros Hd. unfold norm_dim.
  replace ((- Z.of_nat (Nat.max r 1) <=? Z.of_nat d)
           && (Z.of_nat d <? Z.of_nat (Nat.max r 1)))%Z with true
    by (symmetry; apply andb_true_iff; split;
        [apply Z.leb_le|apply Z.ltb_lt]; lia).
  rewrite Z.mod_small by lia. now rewrite Nat2Z.id.
Qed.

Lemma norm_dim_large (r d : nat) :
  Nat.max r 1 <= d -> norm_dim r (Z.of_nat d) = None.
Proof.
  intros Hd. unfold norm_dim.
  replace (Z.of_nat d <? Z.of_nat (Nat.max r 1))%Z with false
    by (symmetry; apply Z.ltb_ge; lia).
  now rewrite andb_false_r.
Qed.

(** [transpose(1, 2)] needs three axes. *)
Lemma v_transpose_12_rank (a : tval) :
  v_transpose 1 2 a =
  if 3 <=? length (vshape a)
  then inr (TVal (vdt a) (swap 1 2 (vshape a))
                 (gather (transpose_src (vshape a) 1 2) (vdata a)))
  else inl (Raise Transpose IndexError).
Proof.
  unfold v_transpose.
  change 1%Z with (Z.of_nat 1). change 2%Z with (Z.of_nat 2).
  destruct (3 <=? length (vshape a)) eqn:E.
  - apply Nat.leb_le in E. now rewrite !norm_dim_small by lia.
  - apply Nat.leb_gt in E. rewrite (norm_dim_large _ 2) by lia.
    now destruct (norm_dim _ _).
Qed.

Lemma swap_12 (a b c : nat) (l : list nat) :
  swap 1 2 (a :: b :: c :: l) = a :: c :: b :: l.
Proof.
  apply (nth_ext _ _ 0 0).
  - now rewrite length_swap.
  - intros n Hn. rewrite length_swap in Hn. rewrite nth_swap by exact Hn.
    destruct n as [|[|[|n]]]; reflexivity.
Qed.

(** [transpose(1, 2)] keeps the number of elements. *)
Lemma numel_swap_12 (l : list nat) :
  3 <= length l -> numel (swap 1 2 l) = numel l.
Proof.
  destruct l as [|a [|b [|c l]]]; cbn [length]; try lia. intros _.
  rewrite swap_12. unfold numel. cbn [fold_right]. lia.
Qed.

(** The exception [flash_attn_func] ends with on three tensor values, and
    that it has a result when no check fails. *)
Lemma flash_attn_trace_exception (q k v : tensor) (w : world)
    (softmax_scale : option R) (causal : bool) :
  match flash_attn_trace (tval_of w q) (tval_of w k) (tval_of w v)
          softmax_scale causal with
  | inl e => expected_exception q k v softmax_scale = Some e
  | inr _ => expected_exception q k v softmax_scale = None
  end.
Proof.
  unfold flash_attn_trace, expected_exception. cbn [tval_of vshape].
  destruct (shape q) as [|B [|S [|H [|D [|]]]]] eqn:Sq; cbn [unpack4 ebind];
    try reflexivity.
  fold (effective_scale softmax_scale D).
  destruct (defined_scale softmax_scale D) eqn:Ed; cbn [negb].
  2:{ destruct (effective_scale softmax_scale D) as [e|s] eqn:Es; cbn [ebind].
      - now rewrite (effective_scale_err _ _ _ Es).
      - apply effective_scale_inr in Es. congruence. }
  rewrite (effective_scale_defined _ _ Ed). cbn [ebind].
  set (s := scale_value softmax_scale D).
  assert (N4 : numel [B * H; S; D] = numel [B; S; H; D])
    by (unfold numel; cbn [fold_right]; lia).
  (* q *)
  rewrite (v_transpose_12_rank (tval_of w q)). cbn [tval_of vshape vdt vdata].
  rewrite Sq. cbn [length Nat.leb ebind].
  unfold v_reshape at 1. cbn [vshape vdt vdata].
  rewrite numel_swap_12 by (cbn; lia). rewrite N4, Nat.eqb_refl. cbn [ebind].
  (* k *)
  rewrite (v_transpose_12_rank (tval_of w k)). cbn [tval_of vshape vdt vdata].
  destruct (length (shape k) <? 3) eqn:Rk.
  { apply Nat.ltb_lt in Rk.
    replace (3 <=? length (shape k)) with false
      by (symmetry; apply Nat.leb_gt; lia).
    reflexivity. }
  apply Nat.ltb_ge in Rk.
  replace (3 <=? length (shape k)) with true by (symmetry; now apply Nat.leb_le).
  cbn [ebind]. unfold v_reshape at 1. cbn [vshape vdt vdata].
  rewrite (numel_swap_12 _ Rk), N4, (Nat.eqb_sym (numel [B; S; H; D])).
  destruct (numel (shape k) =? numel [B; S; H; D]); cbn [negb ebind];
    [|reflexivity].
  (* v *)
  rewrite (v_transpose_12_rank (tval_of w v)). cbn [tval_of vshape vdt vdata].
  destruct (length (shape v) <? 3) eqn:Rv.
  { apply Nat.ltb_lt in Rv.
    replace (3 <=? length (shape v)) with false
      by (symmetry; apply Nat.leb_gt; lia).
    reflexivity. }
  apply Nat.ltb_ge in Rv.
  replace (3 <=? length (shape v)) with true by (symmetry; now apply Nat.leb_le).
  cbn [ebind]. unfold v_reshape at 1. cbn [vshape vdt vdata].
  rewrite (numel_swap_12 _ Rv), N4, (Nat.eqb_sym (numel [B; S; H; D])).
  destruct (numel (shape v) =? numel [B; S; H; D]); cbn [negb ebind];
    [|reflexivity].
  (* scores *)
  unfold v_transpose at 1. cbn [vshape vdt vdata length].
  change (norm_dim 3 (-2)) with (Some 1). change (norm_dim 3 (-1)) with (Some 2).
  cbv iota beta. rewrite swap_12. cbn [ebind].
  unfold v_matmul at 1. cbn [vshape vdt vdata].
  rewrite !Nat.eqb_refl, !andb_true_r.
  destruct (dtype_eqb (dt q) (dt k) && is_floating (dt q)) eqn:Dk;
    cbn [negb ebind]; [|reflexivity].
  apply andb_prop in Dk as [Dk Fq].
  match goal with
  | |- context [v_mul_scalar s ?x] => set (qk := x)
  end.
  unfold v_mul_scalar at 1. cbn [ebind]. subst qk. cbn [vdt vshape vdata].
  rewrite Fq.
  match goal with
  | |- context [v_softmax _] =>
      match goal with
      | |- context [TVal (dt q) [B * H; S; S] ?d] =>
          set (sc := TVal (dt q) [B * H; S; S] d)
      end
  end.
  assert (Wsc : wfv sc).
  { unfold wfv, sc. cbn [vdata vshape]. now rewrite !length_map, length_seq. }
  assert (Hscm : exists scm,
    (if causal
     then let? ones := v_ones_like sc in
          let? upper := v_triu 1 ones in
          let? mask := v_bool upper in
          v_masked_fill mask NInf sc
     else inr sc) = inr scm /\
    vdt scm = dt q /\ vshape scm = [B * H; S; S] /\ wfv scm).
  { destruct causal.
    - destruct (causal_mask_spec sc (B * H) S S eq_refl)
        as (mask & -> & Dm & Sm & Wm & _).
      destruct (v_masked_fill_spec mask sc NInf Dm Sm Wm Wsc)
        as (scm & -> & Dscm & Sscm & Wscm & _).
      exists scm. repeat split; auto.
    - exists sc. repeat split; auto. }
  destruct Hscm as (scm & -> & Dscm & Sscm & Wscm). cbn [ebind].
  destruct (v_softmax_spec scm (B * H) S S Sscm) as (aw & -> & Daw & Saw & Waw & _);
    [congruence|exact Wscm|].
  cbn [ebind].
  (* the result *)
  unfold v_matmul at 1. rewrite Saw, Daw, Dscm. cbn [vshape vdt vdata].
  rewrite !Nat.eqb_refl, !andb_true_r, Fq, andb_true_r.
  destruct (dtype_eqb (dt q) (dt v)); cbn [negb ebind]; [|reflexivity].
  match goal with
  | |- context [v_reshape _ ?x] => set (o3 := x)
  end.
  assert (So3 : vshape o3 = [B * H; S; D]) by reflexivity.
  assert (Wo3 : wfv o3).
  { unfold wfv, o3. cbn [vdata vshape]. now rewrite length_map, length_seq. }
  destruct (v_reshape_split o3 B H S D So3 Wo3) as (o4 & -> & Do4 & So4 & Wo4 & _).
  cbn [ebind].
  destruct (v_transpose_12 o4 B H S D So4 Wo4) as (out & -> & _).
  reflexivity.
Qed.


(** * The scores, whatever the shapes of key and value *)

(** When [flash_attn_func] has a result on a query of shape [(B, S, H, D)],
    the key went through [transpose(1, 2)] and [reshape] whatever its shape
    was, and every score is a dot product of a query row and a row of the
    reshaped key, times the scale. *)
Lemma flash_attn_trace_scores (q k v : tval) (B S H D : nat)
    (softmax_scale : option R) (causal : bool) (tr : trace) :
  vshape q = [B; S; H; D] -> wfv q -> wfv k ->
  flash_attn_trace q k v softmax_scale causal = inr tr ->
  exists key,
    merge_heads B S H D k = inr key /\
    vshape key = [B * H; S; D] /\
    vshape (t_scores tr) = [B * H; S; S] /\
    (vshape k = [B; S; H; D] ->
     forall b h j d, b < B -> h < H -> j < S -> d < D ->
       get key [b * H + h; j; d] = get k [b; j; h; d]) /\
    forall b h i j, b < B -> h < H -> i < S -> j < S ->
      get (t_scores tr) [b * H + h; i; j] =
      if causal && (i <? j) then NInf
      else nmul (vdt q)
                (nsum (vdt q)
                      (map (fun d => nmul (vdt q) (get q [b; i; h; d])
                                          (get key [b * H + h; j; d]))
                           (seq 0 D)))
                (fl (vdt q) (scale_value softmax_scale D)).
Proof.
  intros Sq Wq Wk E.
  unfold flash_attn_trace in E. rewrite Sq in E. cbn [unpack4 ebind] in E.
  fold (effective_scale softmax_scale D) in E.
  destruct (effective_scale softmax_scale D) as [e|s] eqn:Es;
    [discriminate|].
  pose proof (effective_scale_defined _ _ (effective_scale_inr _ _ _ Es)) as Es'.
  rewrite Es in Es'. injection Es' as ->. cbn [ebind] in E.
  destruct (v_transpose_12 q B S H D Sq Wq) as (qt & Eqt & Dqt & Sqt & Wqt & Gqt).
  rewrite Eqt in E. cbn [ebind] in E.
  destruct (v_reshape_merge qt B H S D Sqt Wqt) as (q1 & Eq1 & Dq1 & Sq1 & Wq1 & Gq1).
  rewrite Eq1 in E. cbn [ebind] in E.
  (* the key *)
  pose proof (v_transpose_spec 1 2 k) as Pk.
  destruct (v_transpose 1 2 k) as [e|kt] eqn:Ekt; [discriminate|].
  destruct Pk as (ik & jk & _ & _ & Dkt & Skt & Hkt).
  destruct (Hkt Wk) as [Wkt _]. cbn [ebind] in E.
  pose proof (v_reshape_spec [B * H; S; D] kt) as Pk1.
  destruct (v_reshape [B * H; S; D] kt) as [e|k1] eqn:Ek1; [discriminate|].
  destruct Pk1 as [-> Nk1]. cbn [ebind] in E.
  set (k1 := TVal (vdt kt) [B * H; S; D] (vdata kt)) in *.
  assert (Sk1 : vshape k1 = [B * H; S; D]) by reflexivity.
  assert (Wk1 : wfv k1).
  { unfold wfv, k1. cbn [vdata vshape]. unfold wfv in Wkt. congruence. }
  (* the value *)
  destruct (v_transpose 1 2 v) as [e|vt]; [discriminate|]. cbn [ebind] in E.
  destruct (v_reshape [B * H; S; D] vt) as [e|v1]; [discriminate|].
  cbn [ebind] in E.
  (* the scores *)
  destruct (v_transpose_last k1 (B * H) S D Sk1 Wk1)
    as (kT & EkT & DkT & SkT & WkT & GkT).
  rewrite EkT in E. cbn [ebind] in E.
  pose proof (v_matmul_spec q1 kT) as Pm.
  destruct (v_matmul q1 kT) as [e|qk]; [discriminate|]. cbn [ebind] in E.
  destruct Pm as (n & r & m & c & Sa & Sb & Dkq & Fq1 & Dqk & Sqk & Wqk & Gqk).
  rewrite Sq1 in Sa. rewrite SkT in Sb.
  injection Sa as <- <- <-. injection Sb as <-.
  assert (Eq1d : vdt q1 = vdt q) by congruence.
  rewrite Eq1d in Gqk, Dqk, Fq1.
  unfold v_mul_scalar at 1 in E. cbv zeta in E. cbn [ebind] in E.
  rewrite Dqk, Fq1, Sqk in E.
  set (s := scale_value softmax_scale D) in *.
  set (sc := TVal (vdt q) [B * H; S; S]
                  (map (fun x => nmul (vdt q) x (fl (vdt q) s)) (vdata qk))) in *.
  assert (Wsc : wfv sc).
  { unfold wfv, sc in *. cbn [vdata vshape]. now rewrite length_map, Wqk, Sqk. }
  assert (Gsc : forall b h i j, b < B -> h < H -> i < S -> j < S ->
            get sc [b * H + h; i; j] =
            nmul (vdt q)
                 (nsum (vdt q)
                       (map (fun d => nmul (vdt q) (get q [b; i; h; d])
                                           (get k1 [b * H + h; j; d]))
                            (seq 0 D)))
                 (fl (vdt q) s)).
  { intros b h i j Hb Hh Hi Hj. pose proof (merged_lt B H b h Hb Hh) as Hx.
    unfold sc. rewrite <- Sqk.
    rewrite get_map by (try assumption; rewrite Sqk; now apply in_bounds_3).
    rewrite Gqk by assumption. apply f_equal2; [|reflexivity]. apply f_equal.
    apply map_ext_in. intros d Hd. apply in_seq in Hd.
    rewrite Gq1, Gqt, GkT by (assumption || lia). reflexivity. }
  assert (Hscm : exists scm,
    (if causal
     then let? ones := v_ones_like sc in
          let? upper := v_triu 1 ones in
          let? mask := v_bool upper in
          v_masked_fill mask NInf sc
     else inr sc) = inr scm /\
    vshape scm = [B * H; S; S] /\
    forall b h i j, b < B -> h < H -> i < S -> j < S ->
      get scm [b * H + h; i; j] =
      if causal && (i <? j) then NInf else get sc [b * H + h; i; j]).
  { destruct causal.
    - destruct (causal_mask_spec sc (B * H) S S eq_refl)
        as (mask & -> & Dm & Sm & Wm & Gm).
      destruct (v_masked_fill_spec mask sc NInf Dm Sm Wm Wsc)
        as (scm & -> & Dscm & Sscm & Wscm & Gscm).
      exists scm. repeat split; auto.
      intros b h i j Hb Hh Hi Hj. pose proof (merged_lt B H b h Hb Hh) as Hx.
      rewrite Gscm by (now apply in_bounds_3).
      now rewrite Gm by assumption.
    - exists sc. repeat split; auto. }
  destruct Hscm as (scm & Escm & Sscm & Gscm).
  rewrite Escm in E. cbn [ebind] in E.
  destruct (v_softmax (-1) scm) as [e|aw]; [discriminate|]. cbn [ebind] in E.
  destruct (v_matmul aw v1) as [e|o3]; [discriminate|]. cbn [ebind] in E.
  destruct (v_reshape [B; H; S; D] o3) as [e|o4]; [discriminate|].
  cbn [ebind] in E.
  destruct (v_transpose 1 2 o4) as [e|o5]; [discriminate|]. cbn [ebind] in E.
  injection E as <-. cbn [t_scores].
  exists k1. split.
  { unfold merge_heads. rewrite Ekt. cbn [ebind]. exact Ek1. }
  split; [exact Sk1|]. split; [exact Sscm|]. split.
  - intros Sk b h j d Hb Hh Hj Hd.
    destruct (v_transpose_12 k B S H D Sk Wk) as (kt' & Ekt' & _ & Skt' & Wkt' & Gkt').
    rewrite Ekt in Ekt'. injection Ekt' as <-.
    destruct (v_reshape_merge kt B H S D Skt' Wkt') as (k1' & Ek1' & _ & _ & _ & Gk1').
    rewrite Ek1 in Ek1'. injection Ek1' as <-.
    rewrite Gk1'. now apply Gkt'.
  - intros b h i j Hb Hh Hi Hj. rewrite Gscm by assumption.
    now rewrite Gsc by assumption.
Qed.

(** * The properties of the specification *)


(** An operation whose exact result is a number of the format stores it. *)
Lemma exact_value (d : dtype) (l : list R) (x y : R) :
  exact_on d l -> In y l -> x = y -> fl d x = Fin y.
Proof. intros Hex Hy ->. now apply Hex. Qed.

Lemma ndiv_fin (d : dtype) (x z : R) :
  z <> 0%R -> ndiv d (Fin x) (Fin z) = fl d (x / z).
Proof. intros Hz. cbn. destruct (Req_EM_T z 0); [contradiction|reflexivity]. Qed.

Lemma scale_of_one : scale_value None 1 = 1%R.
Proof.
  unfold scale_value, Rpower. simpl INR. rewrite ln_1, Rmult_0_r. apply exp_0.
Qed.

(** The numbers the scenario computes with. *)
Ltac store Hex :=
  match goal with
  | |- context [fl Float32 ?e] =>
      first
        [ rewrite (exact_value Float32 _ e 0 Hex ltac:(simpl; auto 10) ltac:(lra))
        | rewrite (exact_value Float32 _ e 1 Hex ltac:(simpl; auto 10) ltac:(lra))
        | rewrite (exact_value Float32 _ e 2 Hex ltac:(simpl; auto 10) ltac:(lra))
        | rewrite (exact_value Float32 _ e (1 / 2) Hex ltac:(simpl; auto 10) ltac:(lra))
        | rewrite (exact_value Float32 _ e 5 Hex ltac:(simpl; auto 10) ltac:(lra))
        | rewrite (exact_value Float32 _ e 10 Hex ltac:(simpl; auto 10) ltac:(lra))
        | rewrite (exact_value Float32 _ e 15 Hex ltac:(simpl; auto 10) ltac:(lra)) ]
  end.

Ltac scenario_cells :=
  change (dt scenario_q) with Float32 in *;
  repeat
    match goal with
    | |- context [get (tval_of scenario_world scenario_q) [0; ?i; 0; 0]] =>
        change (get (tval_of scenario_world scenario_q) [0; i; 0; 0]) with (Fin 1)
    | |- context [get (tval_of scenario_world scenario_k) [0; ?i; 0; 0]] =>
        change (get (tval_of scenario_world scenario_k) [0; i; 0; 0]) with (Fin 1)
    | |- context [get (tval_of scenario_world scenario_v) [0; 0; 0; 0]] =>
        change (get (tval_of scenario_world scenario_v) [0; 0; 0; 0]) with (Fin 10)
    | |- context [get (tval_of scenario_world scenario_v) [0; 1; 0; 0]] =>
        change (get (tval_of scenario_world scenario_v) [0; 1; 0; 0]) with (Fin 20)
    end.

Ltac compute_row Hex Hexp :=
  repeat
    first
      [ progress unfold softmax_at, nsum, nmaxl
      | progress cbn [seq map fold_right nadd nsub nmul nmax nexp
                      Nat.ltb Nat.leb andb]
      | progress scenario_cells
      | rewrite Rmax_left by lra
      | rewrite ndiv_fin by lra
      | rewrite Hexp
      | store Hex ].

(** C2.  In the concrete scenario with the default scale, [flash_attn_func]
    returns [[15], [15]] without the causal mask, and [[10], [15]] with
    it; the default scale, [1 ** -0.5], is 1.  This holds in every
    arithmetic in which the numbers the scenario meets (0, 1/2, 1, 2, 5, 10
    and 15) are float32 numbers and the exponential of 0 is 1. *)
Theorem concrete_scenario_outputs :
  exact_on Float32 [0; 1; 2; 1 / 2; 5; 10; 15]%R ->
  fexp Float32 0 = Fin 1 ->
  py_pow 1 (- (1 / 2)) = inr 1%R /\
  (exists w' out,
     flash_attn_func scenario_q scenario_k scenario_v 0 None false
                     ((-1)%Z, (-1)%Z) None false scenario_world = (w', inr out) /\
     tval_of w' out = TVal Float32 [1; 2; 1; 1] [Fin 15; Fin 15]) /\
  (exists w' out,
     flash_attn_func scenario_q scenario_k scenario_v 0 None true
                     ((-1)%Z, (-1)%Z) None false scenario_world = (w', inr out) /\
     tval_of w' out = TVal Float32 [1; 2; 1; 1] [Fin 10; Fin 15]).
Proof.
  intros Hex Hexp.
  assert (L0 : 0 < 1) by lia. assert (L1 : 0 < 2) by lia. assert (L2 : 1 < 2) by lia.
  split.
  { unfold py_pow, Rpower. f_equal. simpl INR. rewrite ln_1, Rmult_0_r. apply exp_0. }
  split.
  - destruct (flash_attn_func_computes scenario_world scenario_q scenario_k
                scenario_v 1 2 1 1 0 None false ((-1)%Z, (-1)%Z) None false
                eq_refl eq_refl eq_refl)
      as (w' & out & sc & aw & E & _ & (So & Do & _ & _ & Wo) & Gsc & Gaw & Gout).
    exists w', out. split; [exact E|].
    assert (Hsc : forall i j, i < 2 -> j < 2 -> get (tval_of w' sc) [0; i; j] = Fin 1).
    { intros i j Hi Hj. change 0 with (0 * 1 + 0) at 1. rewrite Gsc by lia.
      rewrite scale_of_one.
      assert (Hc : i = 0 \/ i = 1) by lia. assert (Hd : j = 0 \/ j = 1) by lia.
      destruct Hc as [-> | ->], Hd as [-> | ->]; scenario_cells;
        compute_row Hex Hexp; reflexivity. }
    assert (Haw : forall i j, i < 2 -> j < 2 ->
              get (tval_of w' aw) [0; i; j] = Fin (1 / 2)).
    { intros i j Hi Hj. rewrite Gaw by lia. cbn [seq map].
      rewrite !Hsc by lia. scenario_cells. compute_row Hex Hexp. reflexivity. }
    assert (Hout : forall i, i < 2 -> get (tval_of w' out) [0; i; 0; 0] = Fin 15).
    { intros i Hi. rewrite Gout by lia. cbn [seq map].
      change (0 * 1 + 0) with 0. rewrite !Haw by lia.
      scenario_cells. compute_row Hex Hexp. reflexivity. }
    pose proof (Hout 0 L1) as O0. pose proof (Hout 1 L2) as O1.
    unfold get in O0, O1. unfold wfv in Wo.
    cbn [vshape vdata tval_of] in O0, O1, Wo. rewrite So in O0, O1, Wo.
    unfold tval_of. rewrite So, Do.
    destruct (contents w' out) as [|a [|b [|]]]; try discriminate.
    cbn in O0, O1. now subst a b.
  - destruct (flash_attn_func_computes scenario_world scenario_q scenario_k
                scenario_v 1 2 1 1 0 None true ((-1)%Z, (-1)%Z) None false
                eq_refl eq_refl eq_refl)
      as (w' & out & sc & aw & E & _ & (So & Do & _ & _ & Wo) & Gsc & Gaw & Gout).
    exists w', out. split; [exact E|].
    assert (Hsc : forall i j, i < 2 -> j < 2 ->
              get (tval_of w' sc) [0; i; j] = if i <? j then NInf else Fin 1).
    { intros i j Hi Hj. change 0 with (0 * 1 + 0) at 1. rewrite Gsc by lia.
      rewrite scale_of_one.
      assert (Hc : i = 0 \/ i = 1) by lia. assert (Hd : j = 0 \/ j = 1) by lia.
      destruct Hc as [-> | ->], Hd as [-> | ->]; scenario_cells;
        compute_row Hex Hexp; reflexivity. }
    assert (A00 : get (tval_of w' aw) [0; 0; 0] = Fin 1).
    { rewrite Gaw by lia. cbn [seq map]. rewrite !Hsc by lia.
      scenario_cells. compute_row Hex Hexp. reflexivity. }
    assert (A01 : get (tval_of w' aw) [0; 0; 1] = Fin 0).
    { rewrite Gaw by lia. cbn [seq map]. rewrite !Hsc by lia.
      scenario_cells. compute_row Hex Hexp. reflexivity. }
    assert (A1 : forall j, j < 2 -> get (tval_of w' aw) [0; 1; j] = Fin (1 / 2)).
    { intros j Hj. rewrite Gaw by lia. cbn [seq map]. rewrite !Hsc by lia.
      assert (Hd : j = 0 \/ j = 1) by lia.
      destruct Hd as [-> | ->]; compute_row Hex Hexp; reflexivity. }
    assert (O0 : get (tval_of w' out) [0; 0; 0; 0] = Fin 10).
    { rewrite Gout by lia. cbn [seq map].
      change (0 * 1 + 0) with 0. rewrite A00, A01.
      scenario_cells. compute_row Hex Hexp. reflexivity. }
    assert (O1 : get (tval_of w' out) [0; 1; 0; 0] = Fin 15).
    { rewrite Gout by lia. cbn [seq map].
      change (0 * 1 + 0) with 0. rewrite !A1 by lia.
      scenario_cells. compute_row Hex Hexp. reflexivity. }
    unfold get in O0, O1. unfold wfv in Wo.
    cbn [vshape vdata tval_of] in O0, O1, Wo. rewrite So in O0, O1, Wo.
    unfold tval_of. rewrite So, Do.
    destruct (contents w' out) as [|a [|b [|]]]; try discriminate.
    cbn in O0, O1. now subst a b.
Qed.

(** C3.  Let the query be a tensor of shape [(B, S, H, D)] and the key a
    tensor of any shape.  When [flash_attn_func] returns (it does exactly
    when none of its checks fails), every score the softmax read that the
    causal mask had left alone is the dot product of a query row and a row
    of the key as [transpose(1, 2)] and [reshape] left it (the key itself
    when it has the shape of the query), multiplied by the scale: by
    [headdim ** -0.5], [headdim] the last axis of the query whatever the
    key's is, when [softmax_scale] is [None], and by the given value
    otherwise.  Products and sums are those of the dtype. *)
Theorem scores_are_multiplied_by_the_scale
    (w : world) (q k v : tensor) (B S H D : nat)
    (dropout_p : R) (softmax_scale : option R) (causal : bool)
    (window_size : Z * Z) (alibi_slopes : option tensor) (deterministic : bool) :
  wf w q = true -> wf w k = true -> live w v ->
  shape q = [B; S; H; D] ->
  (expected_exception q k v softmax_scale = None ->
   exists w' out,
     flash_attn_func q k v dropout_p softmax_scale causal window_size
                     alibi_slopes deterministic w = (w', inr out)) /\
  (forall w' out,
     flash_attn_func q k v dropout_p softmax_scale causal window_size
                     alibi_slopes deterministic w = (w', inr out) ->
     exists scores key tr,
       flash_attn_trace (tval_of w q) (tval_of w k) (tval_of w v)
                        softmax_scale causal = inr tr /\
       tval_of w' scores = t_scores tr /\
       merge_heads B S H D (tval_of w k) = inr key /\
       shape scores = [B * H; S; S] /\
       (shape k = [B; S; H; D] ->
        forall b h j d, b < B -> h < H -> j < S -> d < D ->
          get key [b * H + h; j; d] = get (tval_of w k) [b; j; h; d]) /\
       forall b h i j, b < B -> h < H -> i < S -> j < S ->
         causal && (i <? j) = false ->
         get (tval_of w' scores) [b * H + h; i; j] =
         nmul (dt q)
              (nsum (dt q)
                    (map (fun d => nmul (dt q) (get (tval_of w q) [b; i; h; d])
                                        (get key [b * H + h; j; d]))
                         (seq 0 D)))
              (fl (dt q) match softmax_scale with
                         | None => Rpower (INR D) (- (1 / 2))
                         | Some s => s
                         end)).
Proof.
  intros Wfq Wfk Lv Sq.
  destruct (wf_facts w q Wfq) as [Lq Wq]. destruct (wf_facts w k Wfk) as [Lk Wk].
  destruct (flash_attn_func_run q k v dropout_p softmax_scale causal window_size
              alibi_slopes deterministic w Lq Lk Lv) as (w1 & res & E1 & _ & P).
  pose proof (flash_attn_trace_exception q k v w softmax_scale causal) as X.
  split.
  - intros Hx. rewrite Hx in X.
    destruct (flash_attn_trace _ _ _ _ _) as [e|tr]; [discriminate|].
    destruct P as (out & _ & _ & -> & _). now exists w1, out.
  - intros w' out E. rewrite E in E1. injection E1 as <- <-.
    destruct (flash_attn_trace (tval_of w q) (tval_of w k) (tval_of w v)
                softmax_scale causal) as [e|tr] eqn:Etr; [discriminate|].
    destruct P as (out' & sc & aw & _ & _ & _ & _ & _ & Hs & _).
    destruct (flash_attn_trace_scores (tval_of w q) (tval_of w k) (tval_of w v)
                B S H D softmax_scale causal tr Sq Wq Wk Etr)
      as (key & Ekey & _ & Ssc & Gkey & Gsc).
    exists sc, key, tr. split; [reflexivity|]. split; [exact Hs|].
    split; [exact Ekey|].
    split; [rewrite <- Hs in Ssc; exact Ssc|]. split; [exact Gkey|].
    intros b h i j Hb Hh Hi Hj Hm. rewrite Hs, Gsc by assumption. rewrite Hm.
    unfold scale_value. now destruct softmax_scale.
Qed.

Lemma keeps_heap_kept (n : nat) (w w' : world) :
  keeps n (warned_fallback w) w' -> heap_kept n w w'.
Proof. intros (F & L & _). split; [exact F|exact L]. Qed.

Lemma keeps_tval (n : nat) (w w' : world) (t : tensor) :
  heap_kept n w w' -> buf t < n -> tval_of w' t = tval_of w t.
Proof.
  intros (F & _) Hb.
  apply (f_equal (fun l => nth (buf t) l [])) in F.
  rewrite !nth_firstn in F.
  apply Nat.ltb_lt in Hb. rewrite Hb in F.
  unfold tval_of, contents, cell. now rewrite F.
Qed.

Lemma keeps_live (n : nat) (w w' : world) (t : tensor) :
  heap_kept n w w' -> live w t -> live w' t.
Proof. intros (_ & L). unfold live. lia. Qed.

(** C4.  Let query, key and value have one shape [(B, S, H, D)].  The
    tensor [flash_attn_func] returns has the shape and the dtype of the
    query, with or without the causal mask; and it does return one if the
    three dtypes are one floating dtype and a scale is given or [D] is
    not 0. *)
Theorem output_has_the_shape_of_the_query
    (w : world) (q k v : tensor) (B S H D : nat)
    (dropout_p : R) (softmax_scale : option R) (causal : bool)
    (window_size : Z * Z) (alibi_slopes : option tensor) (deterministic : bool) :
  same_shape_inputs w q k v B S H D = true ->
  (floating_inputs q k v = true -> defined_scale softmax_scale D = true ->
   exists w' out,
     flash_attn_func q k v dropout_p softmax_scale causal window_size
                     alibi_slopes deterministic w = (w', inr out)) /\
  (forall w' out,
     flash_attn_func q k v dropout_p softmax_scale causal window_size
                     alibi_slopes deterministic w = (w', inr out) ->
     shape out = shape q /\ shape out = [B; S; H; D] /\ dt out = dt q).
Proof.
  intros Hin. split.
  - intros Hfl Hsc.
    destruct (flash_attn_func_computes w q k v B S H D dropout_p softmax_scale
                causal window_size alibi_slopes deterministic Hin Hfl Hsc)
      as (w' & out & _ & _ & E & _).
    now exists w', out.
  - intros w' out E.
    destruct (same_shape_inputs_facts _ _ _ _ _ _ _ _ Hin)
      as ((Lq & Lk & Lv) & _ & (Sq & _)).
    destruct (flash_attn_func_run q k v dropout_p softmax_scale causal window_size
                alibi_slopes deterministic w Lq Lk Lv) as (w1 & res & E1 & _ & P).
    rewrite E in E1. injection E1 as <- <-.
    pose proof (flash_attn_trace_outcome (tval_of w q) (tval_of w k) (tval_of w v)
                  softmax_scale causal) as O.
    destruct (flash_attn_trace _ _ _ _ _) as [e|tr]; [discriminate|].
    destruct P as (out' & _ & _ & [= <-] & _ & _ & _ & Ho & _).
    destruct O as (Os & Od & _). rewrite <- Ho in Os, Od. cbn in Os, Od.
    rewrite <- Sq. auto.
Qed.

(** C5.  Whatever the ragged-batching arguments are,
    [flash_attn_varlen_func] returns what [flash_attn_func] returns on the
    same query, key, value and remaining arguments, and leaves the same heap:
    the same exception, or the same tensor with the same elements.  The two
    final states differ in the one warning more that the variable-length
    entry point issues first. *)
Theorem varlen_is_the_fixed_length_call
    (q k v cu_seqlens_q cu_seqlens_k : tensor) (max_seqlen_q max_seqlen_k : nat)
    (dropout_p : R) (softmax_scale : option R) (causal : bool)
    (window_size : Z * Z) (alibi_slopes : option tensor) (deterministic : bool)
    (w : world) :
  let varlen := flash_attn_varlen_func q k v cu_seqlens_q cu_seqlens_k
                  max_seqlen_q max_seqlen_k dropout_p softmax_scale causal
                  window_size alibi_slopes deterministic w in
  let fixed := flash_attn_func q k v dropout_p softmax_scale causal window_size
                 alibi_slopes deterministic w in
  snd varlen = snd fixed /\
  heap (fst varlen) = heap (fst fixed) /\
  (forall out, tval_of (fst varlen) out = tval_of (fst fixed) out) /\
  stdout (fst varlen) = stdout (fst fixed) /\
  imported (fst varlen) = imported (fst fixed) /\
  exists l,
    warned (fst fixed) = warned w ++ l /\
    warned (fst varlen) =
    (warned w ++
     [(UserWarning,
       "Variable-length Flash Attention fallback not fully implemented. Using basic implementation."%string)])
    ++ l.
Proof.
  cbv zeta. unfold flash_attn_varlen_func.
  rewrite (bind_ok _ _ w
             (World (heap w) (stdout w)
                (warned w ++
                 [(UserWarning,
                   "Variable-length Flash Attention fallback not fully implemented. Using basic implementation."%string)])
                (imported w)) tt) by reflexivity.
  set (w1 := World _ _ _ _).
  destruct (respects_flash_attn_func q k v dropout_p softmax_scale causal
              window_size alibi_slopes deterministic) as [Q Rl].
  destruct (Rl w1 w eq_refl) as (Er & Eh & l & L1 & L2).
  destruct (Q w1) as [O1 I1]. destruct (Q w) as [O2 I2].
  split; [exact Er|]. split; [exact Eh|].
  split; [intros out; now apply tval_of_heap|].
  split; [now rewrite O1, O2|]. split; [now rewrite I1, I2|].
  exists l. split; [exact L2|exact L1].
Qed.

(** C6, as the code has it.  Every exception [flash_attn_func] lets out is
    the exception of one of its own statements and torch operators: of the
    tuple unpacking of [q.shape], of [**], of [transpose], of [reshape] or
    of [matmul]; nothing else is raised, by [softmax] or by a validation. *)
Theorem exceptions_are_the_native_ones
    (w : world) (q k v : tensor) (dropout_p : R) (softmax_scale : option R)
    (causal : bool) (window_size : Z * Z) (alibi_slopes : option tensor)
    (deterministic : bool) (e : exn) :
  live w q -> live w k -> live w v ->
  snd (flash_attn_func q k v dropout_p softmax_scale causal window_size
                       alibi_slopes deterministic w) = inl e ->
  In e native_errors.
Proof.
  intros Lq Lk Lv E.
  destruct (flash_attn_func_run q k v dropout_p softmax_scale causal window_size
              alibi_slopes deterministic w Lq Lk Lv) as (w1 & res & E1 & _ & P).
  rewrite E1 in E. cbn in E. subst res.
  pose proof (flash_attn_trace_outcome (tval_of w q) (tval_of w k) (tval_of w v)
                softmax_scale causal) as O.
  destruct (flash_attn_trace _ _ _ _ _) as [e'|tr].
  - now injection P as ->.
  - destruct P as (? & ? & ? & [=] & _).
Qed.

(** C7.  [dropout_p], [window_size], [alibi_slopes] and [deterministic] have
    no effect: two calls that agree on the other arguments end in the same
    state with the same result. *)
Theorem unsupported_parameters_have_no_effect
    (q k v : tensor) (softmax_scale : option R) (causal : bool)
    (dropout_p dropout_p' : R) (window_size window_size' : Z * Z)
    (alibi_slopes alibi_slopes' : option tensor)
    (deterministic deterministic' : bool) (w : world) :
  flash_attn_func q k v dropout_p softmax_scale causal window_size
                  alibi_slopes deterministic w =
  flash_attn_func q k v dropout_p' softmax_scale causal window_size'
                  alibi_slopes' deterministic' w.
Proof. reflexivity. Qed.

(** The outcome of a call is a function of what query, key and value hold:
    calls on tensors with the same dtype, shape and elements, from whatever
    states, raise the same exception or return tensors that hold the same. *)
Lemma outcome_depends_on_values
    (w w2 : world) (q k v q2 k2 v2 : tensor) (dropout_p : R)
    (softmax_scale : option R) (causal : bool) (window_size : Z * Z)
    (alibi_slopes : option tensor) (deterministic : bool) :
  live w q -> live w k -> live w v ->
  live w2 q2 -> live w2 k2 -> live w2 v2 ->
  tval_of w2 q2 = tval_of w q -> tval_of w2 k2 = tval_of w k ->
  tval_of w2 v2 = tval_of w v ->
  match flash_attn_func q k v dropout_p softmax_scale causal window_size
                        alibi_slopes deterministic w,
        flash_attn_func q2 k2 v2 dropout_p softmax_scale causal window_size
                        alibi_slopes deterministic w2 with
  | (_, inl e1), (_, inl e2) => e1 = e2
  | (w1', inr out1), (w2', inr out2) => tval_of w2' out2 = tval_of w1' out1
  | _, _ => False
  end.
Proof.
  intros Lq Lk Lv Lq2 Lk2 Lv2 Hq Hk Hv.
  destruct (flash_attn_func_run q k v dropout_p softmax_scale causal window_size
              alibi_slopes deterministic w Lq Lk Lv) as (w1 & r1 & -> & _ & P1).
  destruct (flash_attn_func_run q2 k2 v2 dropout_p softmax_scale causal
              window_size alibi_slopes deterministic w2 Lq2 Lk2 Lv2)
    as (w3 & r2 & -> & _ & P2).
  rewrite Hq, Hk, Hv in P2.
  destruct (flash_attn_trace _ _ _ _ _) as [e|tr].
  - now subst r1 r2.
  - destruct P1 as (o1 & _ & _ & -> & _ & _ & _ & Ho1 & _).
    destruct P2 as (o2 & _ & _ & -> & _ & _ & _ & Ho2 & _).
    now rewrite Ho1, Ho2.
Qed.

(** C8.  [flash_attn_func] is deterministic.  A second call on tensors that
    hold what query, key and value hold, from whatever state, ends as the
    first: both raise the same exception, or both return a tensor, with
    the same dtype, shape and elements.  So do two calls in a row on the
    same tensors, the second one from the state the first one left; the
    first result still holds after the second call what it held when it was
    returned. *)
Theorem two_calls_give_identical_outputs
    (w : world) (q k v : tensor) (dropout_p : R) (softmax_scale : option R)
    (causal : bool) (window_size : Z * Z) (alibi_slopes : option tensor)
    (deterministic : bool) :
  live w q -> live w k -> live w v ->
  let first := flash_attn_func q k v dropout_p softmax_scale causal window_size
                 alibi_slopes deterministic w in
  (forall w2 q2 k2 v2,
     live w2 q2 -> live w2 k2 -> live w2 v2 ->
     tval_of w2 q2 = tval_of w q -> tval_of w2 k2 = tval_of w k ->
     tval_of w2 v2 = tval_of w v ->
     let second := flash_attn_func q2 k2 v2 dropout_p softmax_scale causal
                     window_size alibi_slopes deterministic w2 in
     match snd first, snd second with
     | inl e1, inl e2 => e1 = e2
     | inr out1, inr out2 =>
         tval_of (fst second) out2 = tval_of (fst first) out1
     | _, _ => False
     end) /\
  (let second := flash_attn_func q k v dropout_p softmax_scale causal
                   window_size alibi_slopes deterministic (fst first) in
   match snd first, snd second with
   | inl e1, inl e2 => e1 = e2
   | inr out1, inr out2 =>
       tval_of (fst second) out2 = tval_of (fst second) out1 /\
       tval_of (fst second) out1 = tval_of (fst first) out1
   | _, _ => False
   end).
Proof.
  intros Lq Lk Lv. cbv zeta. split.
  - intros w2 q2 k2 v2 Lq2 Lk2 Lv2 Hq Hk Hv.
    pose proof (outcome_depends_on_values w w2 q k v q2 k2 v2 dropout_p
                  softmax_scale causal window_size alibi_slopes deterministic
                  Lq Lk Lv Lq2 Lk2 Lv2 Hq Hk Hv) as O.
    destruct (flash_attn_func q k v _ _ _ _ _ _ w) as [w1 [e1|o1]],
             (flash_attn_func q2 k2 v2 _ _ _ _ _ _ w2) as [w3 [e2|o2]];
      exact O.
  - destruct (flash_attn_func_run q k v dropout_p softmax_scale causal
                window_size alibi_slopes deterministic w Lq Lk Lv)
      as (w1 & r1 & E1 & K1 & P1).
    pose proof (keeps_heap_kept _ _ _ K1) as K1'. clear K1.
    assert (Lq1 : live w1 q) by (now apply (keeps_live _ _ _ _ K1')).
    assert (Lk1 : live w1 k) by (now apply (keeps_live _ _ _ _ K1')).
    assert (Lv1 : live w1 v) by (now apply (keeps_live _ _ _ _ K1')).
    pose proof (outcome_depends_on_values w w1 q k v q k v dropout_p
                  softmax_scale causal window_size alibi_slopes deterministic
                  Lq Lk Lv Lq1 Lk1 Lv1 (keeps_tval _ _ _ q K1' Lq)
                  (keeps_tval _ _ _ k K1' Lk) (keeps_tval _ _ _ v K1' Lv)) as O.
    rewrite E1 in *. cbn [fst snd].
    destruct (flash_attn_func_run q k v dropout_p softmax_scale causal
                window_size alibi_slopes deterministic w1 Lq1 Lk1 Lv1)
      as (w2 & r2 & E2 & K2 & _).
    rewrite E2 in *. cbn [fst snd].
    destruct r1 as [e1|o1], r2 as [e2|o2]; try exact O.
    assert (Lo1 : live w1 o1).
    { destruct (flash_attn_trace _ _ _ _ _) as [e|tr]; [discriminate|].
      destruct P1 as (o & _ & _ & [= <-] & L & _). exact L. }
    assert (Ho : tval_of w2 o1 = tval_of w1 o1).
    { apply (keeps_tval (length (heap w1)) w1 w2 o1 (keeps_heap_kept _ _ _ K2) Lo1). }
    split; [|exact Ho]. now rewrite Ho.
Qed.

(** C9.  [flash_attn_func] does not write to its inputs: after the call,
    raised or returned, with or without the causal mask, query, key and
    value hold the elements they held before, and so does every buffer that
    existed before the call. *)
Theorem inputs_are_not_mutated
    (w : world) (q k v : tensor) (dropout_p : R) (softmax_scale : option R)
    (causal : bool) (window_size : Z * Z) (alibi_slopes : option tensor)
    (deterministic : bool) :
  live w q -> live w k -> live w v ->
  let w' := fst (flash_attn_func q k v dropout_p softmax_scale causal
                   window_size alibi_slopes deterministic w) in
  contents w' q = contents w q /\ contents w' k = contents w k /\
  contents w' v = contents w v /\
  firstn (length (heap w)) (heap w') = heap w.
Proof.
  intros Lq Lk Lv. cbv zeta.
  destruct (flash_attn_func_run q k v dropout_p softmax_scale causal window_size
              alibi_slopes deterministic w Lq Lk Lv) as (w1 & r1 & E1 & K1 & _).
  rewrite E1. cbn [fst].
  pose proof (keeps_heap_kept _ _ _ K1) as K.
  pose proof (keeps_tval _ _ _ q K Lq) as Hq.
  pose proof (keeps_tval _ _ _ k K Lk) as Hk.
  pose proof (keeps_tval _ _ _ v K Lv) as Hv.
  injection Hq as Hq. injection Hk as Hk. injection Hv as Hv.
  repeat split; try assumption.
  destruct K as (F & _). rewrite F. apply firstn_all.
Qed.

(** A process that has loaded the module prints nothing more, whatever it
    calls. *)
Lemma run_call_quiet (c : call) (w : world) :
  imported w = true ->
  stdout (run_call c w) = stdout w /\ imported (run_call c w) = true.
Proof.
  intros I. destruct c; unfold run_call.
  - unfold import_module. rewrite I. now split.
  - destruct (respects_flash_attn_func q k v dropout_p softmax_scale causal
                window_size alibi_slopes deterministic) as [Q _].
    destruct (Q w) as [-> ->]. now split.
  - destruct (respects_flash_attn_varlen_func q k v cu_seqlens_q cu_seqlens_k
                max_seqlen_q max_seqlen_k dropout_p softmax_scale causal
                window_size alibi_slopes deterministic) as [Q _].
    destruct (Q w) as [-> ->]. now split.
  - unfold forward.
    destruct (respects_flash_attn_func q k v (self_dropout_p self)
                (self_softmax_scale self) causal ((-1)%Z, (-1)%Z) None false)
      as [Q _].
    destruct (Q w) as [-> ->]. now split.
Qed.

(** C10.  In a process that starts with nothing printed and the module not
    loaded, the first import prints the advisory; after it, whatever entry
    points are called, however often, and however often the module is
    imported again, the advisory is on the standard output exactly once. *)
Theorem advisory_is_printed_exactly_once
    (h : list (list num)) (ws : list (category * string)) (calls : list call) :
  count_occ string_dec
    (stdout (run_calls calls (run_call Import (World h [] ws false))))
    advisory = 1.
Proof.
  assert (G : forall w, imported w = true ->
            stdout (run_calls calls w) = stdout w).
  { induction calls as [|c cs IH]; intros w I; [reflexivity|].
    unfold run_calls in *. cbn [fold_left].
    destruct (run_call_quiet c w I) as [<- I']. now apply IH. }
  rewrite G by reflexivity. cbn. destruct (string_dec advisory advisory); congruence.
Qed.

(** * More of the module: warnings, exits, aliasing, the other entry points *)

Lemma silent_ret {A} (a : A) : silent (ret a).
Proof. now intros w. Qed.

Lemma silent_pure {A} (r : exn + A) : silent (pure r).
Proof. now intros w. Qed.

Lemma silent_bind {A B} (m : M A) (k : A -> M B) :
  silent m -> (forall a, silent (k a)) -> silent (bind m k).
Proof.
  intros Hm Hk w. unfold bind. specialize (Hm w).
  destruct (m w) as [w' [e|a]]; [exact Hm|].
  rewrite (Hk a w'). exact Hm.
Qed.

Lemma silent_lift (F : world -> exn + tval) : silent (fun w => lift (F w) w).
Proof. intros w. unfold lift. now destruct (F w). Qed.

Lemma silent_transpose (t : tensor) (d0 d1 : Z) : silent (transpose t d0 d1).
Proof.
  unfold transpose. destruct (norm_dim _ d0); [destruct (norm_dim _ d1)|];
    now intros w.
Qed.

Lemma silent_reshape (t : tensor) (sh : list nat) : silent (reshape t sh).
Proof.
  unfold reshape. destruct (numel sh =? numel (shape t)); [|now intros w].
  destruct (reshape_is_view t sh); now intros w.
Qed.

Lemma silent_masked_fill (a mask : tensor) (x : num) : silent (masked_fill_ a mask x).
Proof. intros w. unfold masked_fill_. now destruct (v_masked_fill _ _ _). Qed.

Ltac silent_step :=
  first
    [ apply silent_ret
    | apply silent_pure
    | apply silent_transpose
    | apply silent_reshape
    | apply silent_masked_fill
    | exact (silent_lift _)
    | apply silent_bind; [|intros ?]
    | match goal with
      | |- silent (match ?x with _ => _ end) => destruct x
      end ].

(** Every call of [flash_attn_func] issues its warning, once, whatever the
    arguments and however the call ends. *)
Lemma flash_attn_func_warns (q k v : tensor) (dropout_p : R)
    (softmax_scale : option R) (causal : bool) (window_size : Z * Z)
    (alibi_slopes : option tensor) (deterministic : bool) (w : world) :
  warned (fst (flash_attn_func q k v dropout_p softmax_scale causal window_size
                 alibi_slopes deterministic w)) =
  warned w ++ [fallback_warning].
Proof.
  unfold flash_attn_func.
  rewrite (bind_ok _ _ w (warned_fallback w) tt) by reflexivity.
  match goal with
  | |- warned (fst (?m _)) = _ =>
      assert (S : silent m) by (repeat silent_step)
  end.
  now rewrite S.
Qed.

(** X1.  The warnings of a process are those of its calls, in order: one
    fallback warning for every call of [flash_attn_func] and of [forward],
    the variable-length warning and then the fallback warning for every call
    of [flash_attn_varlen_func], none for an import; whatever the arguments
    are and whether the calls return or raise. *)
Theorem warnings_follow_the_calls (calls : list call) (w : world) :
  warned (run_calls calls w) = warned w ++ flat_map call_warnings calls.
Proof.
  revert w. induction calls as [|c cs IH]; intros w.
  - cbn. now rewrite app_nil_r.
  - unfold run_calls in *. cbn [fold_left flat_map]. rewrite IH, app_assoc.
    f_equal. destruct c; unfold run_call, call_warnings.
    + unfold import_module. destruct (imported w); cbn; now rewrite app_nil_r.
    + apply flash_attn_func_warns.
    + unfold flash_attn_varlen_func.
      rewrite (bind_ok _ _ w
                 (World (heap w) (stdout w) (warned w ++ [varlen_warning])
                        (imported w)) tt) by reflexivity.
      rewrite flash_attn_func_warns. cbn [warned]. now rewrite <- app_assoc.
    + unfold forward. apply flash_attn_func_warns.
Qed.

(** X5.  The tensor [flash_attn_func] returns is on a buffer allocated by
    the call: it shares its buffer with no tensor that existed before, query,
    key and value included, so that writing into the result changes none of
    them. *)
Theorem result_is_on_a_new_buffer
    (w w' : world) (q k v out : tensor) (dropout_p : R)
    (softmax_scale : option R) (causal : bool) (window_size : Z * Z)
    (alibi_slopes : option tensor) (deterministic : bool) :
  live w q -> live w k -> live w v ->
  flash_attn_func q k v dropout_p softmax_scale causal window_size
                  alibi_slopes deterministic w = (w', inr out) ->
  length (heap w) <= buf out /\ buf out < length (heap w') /\
  (forall t, live w t -> buf t <> buf out) /\
  forall (x : num) (o : nat) (t : tensor), live w t ->
    contents (set_heap (upd (buf out) (upd o x (nth (buf out) (heap w') []))
                            (heap w')) w') t
    = contents w t.
Proof.
  intros Lq Lk Lv E.
  destruct (flash_attn_func_run q k v dropout_p softmax_scale causal window_size
              alibi_slopes deterministic w Lq Lk Lv) as (w1 & res & E1 & K & P).
  rewrite E in E1. injection E1 as <- <-.
  destruct (flash_attn_trace _ _ _ _ _) as [e|tr]; [discriminate|].
  destruct P as (o' & _ & _ & [= <-] & Lo & _ & _ & _ & _ & _ & F).
  split; [exact F|]. split; [exact Lo|].
  split; [intros t Lt; unfold live in Lt; lia|].
  intros x o t Lt. unfold contents, cell. cbn [heap set_heap].
  rewrite nth_upd_neq by (unfold live in Lt; lia).
  pose proof (keeps_tval _ _ _ t (keeps_heap_kept _ _ _ K) Lt) as Ht.
  now injection Ht.
Qed.

(** X6.  A query that does not have four axes, and a query whose last axis
    is 0 when no scale is given, end the call before any tensor operation:
    with the [ValueError] of the unpacking, or the [ZeroDivisionError] of
    [0 ** -0.5].  Key and value are not looked at, and the state is the one
    before the call with the warning added. *)
Theorem early_exits_leave_the_heap
    (w : world) (q k v : tensor) (dropout_p : R) (softmax_scale : option R)
    (causal : bool) (window_size : Z * Z) (alibi_slopes : option tensor)
    (deterministic : bool) :
  exits_early q softmax_scale = true ->
  flash_attn_func q k v dropout_p softmax_scale causal window_size
                  alibi_slopes deterministic w =
  (warned_fallback w,
   inl (match shape q with
        | [_; _; _; _] => Raise Pow ZeroDivisionError
        | _ => Raise TupleUnpack ValueError
        end)).
Proof.
  unfold exits_early, flash_attn_func. intros Hx.
  rewrite (bind_ok _ _ w (warned_fallback w) tt) by reflexivity.
  rewrite bind_pure.
  destruct (shape q) as [|B [|S [|H [|D [|]]]]]; try reflexivity.
  cbn [unpack4]. rewrite bind_pure.
  fold (effective_scale softmax_scale D).
  destruct (effective_scale softmax_scale D) as [e|s] eqn:Es.
  - now rewrite (effective_scale_err _ _ _ Es).
  - apply effective_scale_inr in Es. rewrite Es in Hx. discriminate.
Qed.

(** X7.  Giving the default scale by hand changes nothing: for a query
    with four axes, the last one [headdim] not 0, a call without a scale and
    a call with the scale [headdim ** -0.5] end in the same state with the
    same result, whatever key and value are. *)
Theorem default_scale_given_by_hand
    (w : world) (q k v : tensor) (B S H D : nat) (dropout_p : R)
    (causal : bool) (window_size : Z * Z) (alibi_slopes : option tensor)
    (deterministic : bool) :
  shape q = [B; S; H; D] -> D <> 0 ->
  flash_attn_func q k v dropout_p None causal window_size
                  alibi_slopes deterministic w =
  flash_attn_func q k v dropout_p (Some (Rpower (INR D) (- (1 / 2)))) causal
                  window_size alibi_slopes deterministic w.
Proof.
  intros Sq HD. unfold flash_attn_func.
  rewrite !(bind_ok _ _ w (warned_fallback w) tt) by reflexivity.
  rewrite !bind_pure, Sq. cbn [unpack4]. rewrite !bind_pure.
  unfold py_pow. destruct D; [contradiction|reflexivity].
Qed.

(** X8.  What holds of [flash_attn_func] holds of the two entry points on
    top of it.  [flash_attn_varlen_func] and [FlashAttention.forward] write
    to no buffer that existed before the call, so query, key and value hold
    what they held; they raise one of the five native exceptions or return a
    tensor of the shape and dtype of the query. *)
Theorem other_entry_points_behave_alike
    (w : world) (q k v cu_seqlens_q cu_seqlens_k : tensor)
    (max_seqlen_q max_seqlen_k : nat) (dropout_p : R)
    (softmax_scale : option R) (causal : bool) (window_size : Z * Z)
    (alibi_slopes : option tensor) (deterministic : bool)
    (self : FlashAttention) :
  live w q -> live w k -> live w v ->
  let varlen := flash_attn_varlen_func q k v cu_seqlens_q cu_seqlens_k
                  max_seqlen_q max_seqlen_k dropout_p softmax_scale causal
                  window_size alibi_slopes deterministic w in
  let module := forward self q k v causal w in
  (firstn (length (heap w)) (heap (fst varlen)) = heap w /\
   contents (fst varlen) q = contents w q /\
   contents (fst varlen) k = contents w k /\
   contents (fst varlen) v = contents w v /\
   match snd varlen with
   | inl e => In e native_errors
   | inr out => shape out = shape q /\ dt out = dt q
   end) /\
  (firstn (length (heap w)) (heap (fst module)) = heap w /\
   contents (fst module) q = contents w q /\
   contents (fst module) k = contents w k /\
   contents (fst module) v = contents w v /\
   match snd module with
   | inl e => In e native_errors
   | inr out => shape out = shape q /\ dt out = dt q
   end).
Proof.
  intros Lq Lk Lv. cbv zeta.
  assert (G : forall p s ws al dd w0,
            heap w0 = heap w ->
            let r := flash_attn_func q k v p s causal ws al dd w0 in
            firstn (length (heap w)) (heap (fst r)) = heap w /\
            contents (fst r) q = contents w q /\
            contents (fst r) k = contents w k /\
            contents (fst r) v = contents w v /\
            match snd r with
            | inl e => In e native_errors
            | inr out => shape out = shape q /\ dt out = dt q
            end).
  { intros p s ws al dd w0 Eh. cbv zeta.
    assert (Lq0 : live w0 q) by (unfold live; now rewrite Eh).
    assert (Lk0 : live w0 k) by (unfold live; now rewrite Eh).
    assert (Lv0 : live w0 v) by (unfold live; now rewrite Eh).
    destruct (flash_attn_func_run q k v p s causal ws al dd w0 Lq0 Lk0 Lv0)
      as (w1 & res & E1 & K & P).
    rewrite E1. cbn [fst snd].
    pose proof (keeps_heap_kept _ _ _ K) as Kh. rewrite Eh in Kh.
    assert (Kw : heap_kept (length (heap w)) w w1).
    { destruct Kh as [F L]. split; [now rewrite F, Eh|now rewrite <- Eh]. }
    pose proof (keeps_tval _ _ _ q Kw Lq) as Hq.
    pose proof (keeps_tval _ _ _ k Kw Lk) as Hk.
    pose proof (keeps_tval _ _ _ v Kw Lv) as Hv.
    injection Hq as Hq. injection Hk as Hk. injection Hv as Hv.
    split; [destruct Kw as [F _]; rewrite F; apply firstn_all|].
    split; [exact Hq|]. split; [exact Hk|]. split; [exact Hv|].
    pose proof (flash_attn_trace_outcome (tval_of w0 q) (tval_of w0 k)
                  (tval_of w0 v) s causal) as O.
    destruct (flash_attn_trace _ _ _ _ _) as [e|tr].
    - now subst res.
    - destruct P as (out & _ & _ & -> & _ & _ & _ & Ho & _).
      destruct O as (Os & Od & _). rewrite <- Ho in Os, Od. now cbn in Os, Od. }
  split.
  - unfold flash_attn_varlen_func.
    rewrite (bind_ok _ _ w
               (World (heap w) (stdout w) (warned w ++ [varlen_warning])
                      (imported w)) tt) by reflexivity.
    apply (G dropout_p softmax_scale window_size alibi_slopes deterministic).
    reflexivity.
  - unfold forward. apply G. reflexivity.
Qed.

(** * The exception of a call *)

(** X2.  Which exception a call ends with, and whether it returns, is
    decided by the shapes and dtypes of query, key and value and by the
    scale alone, in this order: a query without four axes gives the
    [ValueError] of the unpacking; no scale and a last axis of 0 the
    [ZeroDivisionError]; a key of fewer than three axes the [IndexError] of
    [transpose]; a key with another number of elements than the query the
    [RuntimeError] of [reshape]; the same two for the value; a key of another
    dtype than the query, or a query that is not floating, the
    [RuntimeError] of the first [matmul]; a value of another dtype that of the
    second.  In every other case the call returns: a key or value of another
    shape with the same number of elements is accepted, and neither [causal]
    nor what the tensors hold can make the call fail. *)
Theorem exception_is_decided_by_shapes_and_dtypes
    (w : world) (q k v : tensor) (dropout_p : R) (softmax_scale : option R)
    (causal : bool) (window_size : Z * Z) (alibi_slopes : option tensor)
    (deterministic : bool) :
  live w q -> live w k -> live w v ->
  match snd (flash_attn_func q k v dropout_p softmax_scale causal window_size
               alibi_slopes deterministic w) with
  | inl e => expected_exception q k v softmax_scale = Some e
  | inr _ => expected_exception q k v softmax_scale = None
  end.
Proof.
  intros Lq Lk Lv.
  destruct (flash_attn_func_run q k v dropout_p softmax_scale causal window_size
              alibi_slopes deterministic w Lq Lk Lv) as (w1 & res & E1 & _ & P).
  rewrite E1. cbn [snd].
  pose proof (flash_attn_trace_exception q k v w softmax_scale causal) as X.
  destruct (flash_attn_trace _ _ _ _ _) as [e|tr].
  - now subst res.
  - destruct P as (out & _ & _ & -> & _). exact X.
Qed.

(** * What the result holds *)

(** On inputs of one shape a result of [flash_attn_func] holds, element by
    element, scaled dot-product attention in the arithmetic of the dtype,
    whatever the cells hold. *)
Lemma flash_attn_func_elementwise (w w' : world) (q k v out : tensor)
    (B S H D : nat) (dropout_p : R) (softmax_scale : option R) (causal : bool)
    (window_size : Z * Z) (alibi_slopes : option tensor) (deterministic : bool) :
  same_shape_inputs w q k v B S H D = true ->
  flash_attn_func q k v dropout_p softmax_scale causal window_size
                  alibi_slopes deterministic w = (w', inr out) ->
  forall b i h d, b < B -> i < S -> h < H -> d < D ->
    get (tval_of w' out) [b; i; h; d] =
    attention_output w q k v (scale_value softmax_scale D) causal S D b h i d.
Proof.
  intros Hin E b i h d Hb Hi Hh Hd.
  destruct (flash_attn_func_returned w w' q k v out B S H D dropout_p
              softmax_scale causal window_size alibi_slopes deterministic Hin E)
    as [Hfl Hsc].
  destruct (flash_attn_func_computes w q k v B S H D dropout_p softmax_scale
              causal window_size alibi_slopes deterministic Hin Hfl Hsc)
    as (w'' & out' & sc & aw & E' & _ & _ & Gsc & Gaw & Gout).
  rewrite E in E'. injection E' as <- <-.
  pose proof (merged_lt B H b h Hb Hh) as Hx.
  rewrite Gout by assumption. unfold attention_output.
  apply f_equal. apply map_ext_in. intros j Hj. apply in_seq in Hj.
  apply f_equal2; [|reflexivity].
  rewrite Gaw by lia. unfold attention_weight.
  apply f_equal2.
  - apply map_ext_in. intros t Ht. apply in_seq in Ht.
    now rewrite Gsc by lia.
  - now rewrite Gsc by lia.
Qed.

(** X3.  On q, k, v of one shape [(B, S, H, D)] every result of
    [flash_attn_func] is scaled dot-product attention, element by element
    and in the arithmetic of the dtype, whatever the cells hold (infinities
    and NaN included): [out[b, i, h, d]] is the sum over the key positions
    [j] of the attention weight of [j] times [v[b, j, h, d]]; the weights are
    the softmax, taken after subtracting the maximum, of the scores of the
    row; a score is [-inf] where the causal mask applies and elsewhere the
    dot product of [q[b, i, h, :]] and [k[b, j, h, :]] times the scale. *)
Theorem result_is_softmax_attention
    (w w' : world) (q k v out : tensor) (B S H D : nat) (dropout_p : R)
    (softmax_scale : option R) (causal : bool) (window_size : Z * Z)
    (alibi_slopes : option tensor) (deterministic : bool) (b i h d : nat) :
  same_shape_inputs w q k v B S H D = true ->
  flash_attn_func q k v dropout_p softmax_scale causal window_size
                  alibi_slopes deterministic w = (w', inr out) ->
  b < B -> i < S -> h < H -> d < D ->
  get (tval_of w' out) [b; i; h; d] =
  attention_output w q k v (scale_value softmax_scale D) causal S D b h i d.
Proof.
  intros Hin E Hb Hi Hh Hd.
  exact (flash_attn_func_elementwise w w' q k v out B S H D dropout_p
           softmax_scale causal window_size alibi_slopes deterministic
           Hin E b i h d Hb Hi Hh Hd).
Qed.

(** X4.  Batches, heads and query positions do not mix, whatever the cells
    hold (infinities and NaN included): two calls on queries of one dtype
    that agree on the row [(b, i, h)], with keys and values that agree on
    batch [b] and head [h], give results that agree on the row
    [(b, i, h)]. *)
Theorem result_row_depends_on_its_batch_and_head
    (w1 w2 w1' w2' : world) (q1 k1 v1 q2 k2 v2 out1 out2 : tensor)
    (B S H D : nat) (dropout_p : R) (softmax_scale : option R) (causal : bool)
    (window_size : Z * Z) (alibi_slopes : option tensor) (deterministic : bool)
    (b i h : nat) :
  same_shape_inputs w1 q1 k1 v1 B S H D = true ->
  same_shape_inputs w2 q2 k2 v2 B S H D = true ->
  dt q2 = dt q1 ->
  b < B -> i < S -> h < H ->
  (forall d, d < D ->
     get (tval_of w1 q1) [b; i; h; d] = get (tval_of w2 q2) [b; i; h; d]) ->
  (forall j d, j < S -> d < D ->
     get (tval_of w1 k1) [b; j; h; d] = get (tval_of w2 k2) [b; j; h; d] /\
     get (tval_of w1 v1) [b; j; h; d] = get (tval_of w2 v2) [b; j; h; d]) ->
  flash_attn_func q1 k1 v1 dropout_p softmax_scale causal window_size
                  alibi_slopes deterministic w1 = (w1', inr out1) ->
  flash_attn_func q2 k2 v2 dropout_p softmax_scale causal window_size
                  alibi_slopes deterministic w2 = (w2', inr out2) ->
  forall d, d < D ->
    get (tval_of w1' out1) [b; i; h; d] = get (tval_of w2' out2) [b; i; h; d].
Proof.
  intros Hin1 Hin2 Hdt Hb Hi Hh Hq Hkv E1 E2 d Hd.
  rewrite (flash_attn_func_elementwise w1 w1' q1 k1 v1 out1 B S H D dropout_p
             softmax_scale causal window_size alibi_slopes deterministic
             Hin1 E1 b i h d Hb Hi Hh Hd).
  rewrite (flash_attn_func_elementwise w2 w2' q2 k2 v2 out2 B S H D dropout_p
             softmax_scale causal window_size alibi_slopes deterministic
             Hin2 E2 b i h d Hb Hi Hh Hd).
  assert (Hs : forall j, j < S ->
            attention_score w1 q1 k1 (scale_value softmax_scale D) causal D b h i j =
            attention_score w2 q2 k2 (scale_value softmax_scale D) causal D b h i j).
  { intros j Hj. unfold attention_score. rewrite Hdt.
    destruct (causal && (i <? j)); [reflexivity|].
    apply f_equal2; [|reflexivity]. apply f_equal. apply map_ext_in.
    intros d0 Hd0. apply in_seq in Hd0.
    rewrite Hq by lia. now rewrite (proj1 (Hkv j d0 Hj ltac:(lia))). }
  unfold attention_output. rewrite Hdt. apply f_equal. apply map_ext_in.
  intros j Hj. apply in_seq in Hj.
  rewrite (proj2 (Hkv j d ltac:(lia) Hd)). apply f_equal2; [|reflexivity].
  unfold attention_weight. rewrite Hdt. apply f_equal2.
  - apply map_ext_in. intros t Ht. apply in_seq in Ht. apply Hs. lia.
  - apply Hs. lia.
Qed.

(** The weight of a masked position is zero, or the row is NaN. *)
Lemma masked_weight (d : dtype) (row : list num) :
  fl d 0 = Fin 0 ->
  softmax_at d row NInf = Fin 0 \/ softmax_at d row NInf = NaN.
Proof.
  intros Z. unfold softmax_at.
  destruct (nmaxl row) as [m| | |]; cbn [nsub nexp];
    try (now right);
    (destruct (nsum d _) as [y| | |]; cbn [ndiv]; auto;
     destruct (Req_EM_T y 0);
     [destruct (Req_EM_T 0 0); [now right|contradiction]|];
     left; unfold Rdiv; now rewrite Rmult_0_l).
Qed.

(** X9.  With [causal] no position sees a later one: on real inputs, two
    calls on queries of one dtype, in whose arithmetic 0 is a number, that
    agree on the row [(b, i, h)], with keys and values that agree on the
    positions [0..i] of batch [b] and head [h], give results that agree on
    the row [(b, i, h)], however keys and values differ at later
    positions. *)
Theorem causal_result_ignores_later_positions
    (w1 w2 w1' w2' : world) (q1 k1 v1 q2 k2 v2 out1 out2 : tensor)
    (B S H D : nat) (dropout_p : R) (softmax_scale : option R)
    (window_size : Z * Z) (alibi_slopes : option tensor) (deterministic : bool)
    (b i h : nat) :
  same_shape_inputs w1 q1 k1 v1 B S H D = true ->
  same_shape_inputs w2 q2 k2 v2 B S H D = true ->
  real_valued w1 q1 && real_valued w1 k1 && real_valued w1 v1 = true ->
  real_valued w2 q2 && real_valued w2 k2 && real_valued w2 v2 = true ->
  dt q2 = dt q1 -> fl (dt q1) 0 = Fin 0 ->
  b < B -> i < S -> h < H ->
  (forall d, d < D ->
     get (tval_of w1 q1) [b; i; h; d] = get (tval_of w2 q2) [b; i; h; d]) ->
  (forall j d, j <= i -> d < D ->
     get (tval_of w1 k1) [b; j; h; d] = get (tval_of w2 k2) [b; j; h; d] /\
     get (tval_of w1 v1) [b; j; h; d] = get (tval_of w2 v2) [b; j; h; d]) ->
  flash_attn_func q1 k1 v1 dropout_p softmax_scale true window_size
                  alibi_slopes deterministic w1 = (w1', inr out1) ->
  flash_attn_func q2 k2 v2 dropout_p softmax_scale true window_size
                  alibi_slopes deterministic w2 = (w2', inr out2) ->
  forall d, d < D ->
    get (tval_of w1' out1) [b; i; h; d] = get (tval_of w2' out2) [b; i; h; d].
Proof.
  intros Hin1 Hin2 Hr1 Hr2 Hdt Z Hb Hi Hh Hq Hkv E1 E2 d Hd.
  rewrite (flash_attn_func_elementwise w1 w1' q1 k1 v1 out1 B S H D dropout_p
             softmax_scale true window_size alibi_slopes deterministic
             Hin1 E1 b i h d Hb Hi Hh Hd).
  rewrite (flash_attn_func_elementwise w2 w2' q2 k2 v2 out2 B S H D dropout_p
             softmax_scale true window_size alibi_slopes deterministic
             Hin2 E2 b i h d Hb Hi Hh Hd).
  apply andb_prop in Hr1 as [_ Rv1]. apply andb_prop in Hr2 as [_ Rv2].
  destruct (same_shape_inputs_facts _ _ _ _ _ _ _ _ Hin1)
    as (_ & (_ & _ & Wv1) & (_ & _ & Sv1)).
  destruct (same_shape_inputs_facts _ _ _ _ _ _ _ _ Hin2)
    as (_ & (_ & _ & Wv2) & (_ & _ & Sv2)).
  assert (Hs : forall j, j < S ->
            attention_score w1 q1 k1 (scale_value softmax_scale D) true D b h i j =
            attention_score w2 q2 k2 (scale_value softmax_scale D) true D b h i j).
  { intros j Hj. unfold attention_score. rewrite Hdt. cbn [andb].
    destruct (i <? j) eqn:Elt; [reflexivity|]. apply Nat.ltb_ge in Elt.
    apply f_equal2; [|reflexivity]. apply f_equal. apply map_ext_in.
    intros d0 Hd0. apply in_seq in Hd0.
    rewrite Hq by lia. now rewrite (proj1 (Hkv j d0 Elt ltac:(lia))). }
  assert (Hw : forall j, j < S ->
            attention_weight w1 q1 k1 (scale_value softmax_scale D) true S D b h i j =
            attention_weight w2 q2 k2 (scale_value softmax_scale D) true S D b h i j).
  { intros j Hj. unfold attention_weight. rewrite Hdt. apply f_equal2.
    - apply map_ext_in. intros t Ht. apply in_seq in Ht. apply Hs. lia.
    - apply Hs. lia. }
  unfold attention_output. rewrite Hdt. apply f_equal. apply map_ext_in.
  intros j Hj. apply in_seq in Hj. rewrite <- Hw by lia.
  destruct (Nat.le_gt_cases j i) as [Hle|Hgt].
  - now rewrite (proj2 (Hkv j d Hle Hd)).
  - destruct (real_valued_get w1 v1 [b; j; h; d] Rv1 Wv1) as [y1 ->];
      [rewrite Sv1; apply in_bounds_4; lia|].
    destruct (real_valued_get w2 v2 [b; j; h; d] Rv2 Wv2) as [y2 ->];
      [rewrite Sv2; apply in_bounds_4; lia|].
    assert (Ej : attention_score w1 q1 k1 (scale_value softmax_scale D) true
                   D b h i j = NInf).
    { unfold attention_score. cbn [andb].
      now replace (i <? j) with true by (symmetry; apply Nat.ltb_lt; lia). }
    unfold attention_weight. rewrite Ej.
    destruct (masked_weight (dt q1)
                (map (fun t => attention_score w1 q1 k1
                                 (scale_value softmax_scale D) true D b h i t)
                     (seq 0 S)) Z) as [-> | ->].
    + cbn [nmul]. now rewrite !Rmult_0_l.
    + reflexivity.
Qed.

(** A row with one real score, before positions that hold -inf: the weight
    of the real score is 1 and the other weights are 0. *)
Lemma softmax_single (d : dtype) (r : R) (rest : list num) :
  exact_on d [0; 1]%R -> fexp d 0 = Fin 1 ->
  (forall x, In x rest -> x = NInf) ->
  softmax_at d (Fin r :: rest) (Fin r) = Fin 1 /\
  softmax_at d (Fin r :: rest) NInf = Fin 0.
Proof.
  intros Hex Hexp Hrest.
  assert (Z : fl d 0 = Fin 0) by (apply Hex; simpl; auto).
  assert (O : fl d 1 = Fin 1) by (apply Hex; simpl; auto).
  assert (Hm : nmaxl rest = NInf).
  { induction rest as [|x l IH]; [reflexivity|].
    cbn [nmaxl fold_right]. fold (nmaxl l).
    rewrite IH by (intros; apply Hrest; now right).
    now rewrite (Hrest x (or_introl eq_refl)). }
  assert (Hsum : nsum d (map (fun y => nexp d (nsub d y (Fin r))) rest) = Fin 0).
  { apply (nsum_zeros d _ Z). intros y Hy.
    apply in_map_iff in Hy as (x & <- & Hx). now rewrite (Hrest x Hx). }
  unfold softmax_at. cbn [nmaxl fold_right]. fold (nmaxl rest).
  rewrite Hm. cbn [nmax map nsum fold_right].
  fold (nsum d (map (fun y => nexp d (nsub d y (Fin r))) rest)).
  rewrite Hsum. cbn [nsub nexp].
  replace (r - r)%R with 0%R by lra. rewrite Z. cbn [nexp]. rewrite Hexp.
  cbn [nadd]. replace (1 + 0)%R with 1%R by lra. rewrite O.
  cbn [ndiv]. destruct (Req_EM_T 1 0) as [F|_]; [lra|].
  replace (1 / 1)%R with 1%R by lra. replace (0 / 1)%R with 0%R by lra.
  now rewrite Z, O.
Qed.

(** X10.  A query position that sees one key position returns the value
    there.  Let 0 and 1 be numbers of the dtype and the exponential of 0
    be 1.  On inputs of one shape with a real-valued value tensor, when the
    score of query position 0 against key position 0 did not overflow and
    the value there is a number of the dtype, the result at position 0 of a
    [causal] call, and the one position of a call with sequence length 1,
    is the value unchanged. *)
Theorem single_position_returns_the_value
    (w w' : world) (q k v out : tensor) (B S H D : nat) (dropout_p : R)
    (softmax_scale : option R) (causal : bool) (window_size : Z * Z)
    (alibi_slopes : option tensor) (deterministic : bool) (b h d : nat) :
  same_shape_inputs w q k v B S H D = true ->
  real_valued w v = true ->
  exact_on (dt q) [0; 1]%R -> fexp (dt q) 0 = Fin 1 ->
  causal = true \/ S = 1 ->
  is_fin (attention_score w q k (scale_value softmax_scale D) causal D b h 0 0)
  = true ->
  number_of (dt q) (get (tval_of w v) [b; 0; h; d]) ->
  flash_attn_func q k v dropout_p softmax_scale causal window_size
                  alibi_slopes deterministic w = (w', inr out) ->
  b < B -> 0 < S -> h < H -> d < D ->
  get (tval_of w' out) [b; 0; h; d] = get (tval_of w v) [b; 0; h; d].
Proof.
  intros Hin Rv Hex Hexp Hone Hfin Hnum E Hb HS Hh Hd.
  rewrite (flash_attn_func_elementwise w w' q k v out B S H D dropout_p
             softmax_scale causal window_size alibi_slopes deterministic
             Hin E b 0 h d Hb HS Hh Hd).
  destruct (same_shape_inputs_facts _ _ _ _ _ _ _ _ Hin)
    as (_ & (_ & _ & Wv) & (_ & _ & Sv)).
  assert (Z : fl (dt q) 0 = Fin 0) by (apply Hex; simpl; auto).
  assert (O : fl (dt q) 1 = Fin 1) by (apply Hex; simpl; auto).
  set (s := scale_value softmax_scale D) in *.
  destruct (attention_score w q k s causal D b h 0 0) as [r| | |] eqn:E0;
    try discriminate.
  destruct S as [|S']; [lia|].
  assert (Hrest : forall t, In t (seq 1 S') ->
            attention_score w q k s causal D b h 0 t = NInf).
  { intros t Ht. apply in_seq in Ht.
    destruct Hone as [-> | HS1]; [|lia].
    unfold attention_score. cbn [andb].
    now replace (0 <? t) with true by (symmetry; apply Nat.ltb_lt; lia). }
  set (rest := map (fun t => attention_score w q k s causal D b h 0 t) (seq 1 S')).
  assert (Hrest' : forall x, In x rest -> x = NInf).
  { intros x Hx. apply in_map_iff in Hx as (t & <- & Ht). now apply Hrest. }
  destruct (softmax_single (dt q) r rest Hex Hexp Hrest') as [W0 W1].
  assert (Hrow : map (fun t => attention_score w q k s causal D b h 0 t)
                     (seq 0 (S S')) = Fin r :: rest).
  { cbn [seq map]. now rewrite E0. }
  unfold attention_output. cbn [seq map nsum fold_right].
  fold (nsum (dt q)
          (map (fun j => nmul (dt q) (attention_weight w q k s causal (S S') D b h 0 j)
                              (get (tval_of w v) [b; j; h; d]))
               (seq 1 S'))).
  rewrite (nsum_zeros (dt q) _ Z).
  - unfold attention_weight. rewrite Hrow, E0, W0.
    destruct (real_valued_get w v [b; 0; h; d] Rv Wv) as [y Hy];
      [rewrite Sv; apply in_bounds_4; lia|].
    rewrite Hy in Hnum |- *. cbn [number_of] in Hnum. cbn [nmul].
    rewrite Rmult_1_l, Hnum. cbn [nadd]. now rewrite Rplus_0_r, Hnum.
  - intros x Hx. apply in_map_iff in Hx as (j & <- & Hj).
    unfold attention_weight. rewrite Hrow, (Hrest j Hj), W1.
    apply in_seq in Hj.
    destruct (real_valued_get w v [b; j; h; d] Rv Wv) as [y ->];
      [rewrite Sv; apply in_bounds_4; lia|].
    cbn [nmul]. now rewrite Rmult_0_l.
Qed.
End Fallback.

(** * The three arithmetics *)

(** The exact arithmetic follows the standard model with no error, on every
    range. *)
Lemma exact_standard_model (d : dtype) (omega : R) :
  standard_model exact_fl exact_exp d 0 0 omega.
Proof.
  constructor; unfold exact_fl, exact_exp.
  - lra.
  - lra.
  - reflexivity.
  - intros x _. now exists x.
  - intros x y [= <-]. rewrite Rminus_diag, Rabs_R0. lra.
  - intros x y [= <-] H. exact H.
  - intros x y [= <-] H. exact H.
  - discriminate.
  - discriminate.
  - discriminate.
  - f_equal. apply exp_0.
  - intros x Hx. exists (exp x). split; [reflexivity|].
    split; [left; apply exp_pos|].
    replace (1 + 0)%R with 1%R by lra. rewrite <- exp_0.
    destruct Hx as [Hlt| ->]; [left; now apply exp_increasing|right; reflexivity].
Qed.

Lemma saturating_fin (omega : R) (d : dtype) (x : R) :
  (- omega <= x <= omega)%R -> saturating omega d x = Fin x.
Proof.
  intros Hx. unfold saturating.
  destruct (Rlt_dec omega x); [lra|]. destruct (Rlt_dec x (- omega)); [lra|].
  reflexivity.
Qed.


(** The arithmetic that is exact up to [omega] and overflows beyond follows
    the standard model with no error on that range. *)
Lemma saturating_standard_model (d : dtype) (omega : R) :
  (0 <= omega)%R -> standard_model (saturating omega) exact_exp d 0 0 omega.
Proof.
  intros Hom.
  assert (F : forall x y, saturating omega d x = Fin y -> y = x).
  { intros x y. unfold saturating.
    destruct (Rlt_dec omega x); [discriminate|].
    destruct (Rlt_dec x (- omega)); [discriminate|]. now intros [= <-]. }
  constructor.
  - lra.
  - lra.
  - apply saturating_fin. lra.
  - intros x Hx. exists x. apply saturating_fin.
    unfold Rabs in Hx. destruct (Rcase_abs x); lra.
  - intros x y E. rewrite (F x y E), Rminus_diag, Rabs_R0. lra.
  - intros x y E H. now rewrite (F x y E).
  - intros x y E H. now rewrite (F x y E).
  - intros x. unfold saturating.
    destruct (Rlt_dec omega x); [lra|].
    destruct (Rlt_dec x (- omega)); discriminate.
  - intros x. unfold saturating.
    destruct (Rlt_dec omega x); [discriminate|].
    destruct (Rlt_dec x (- omega)); [lra|discriminate].
  - intros x. unfold saturating.
    destruct (Rlt_dec omega x); [discriminate|].
    destruct (Rlt_dec x (- omega)); discriminate.
  - unfold exact_exp. f_equal. apply exp_0.
  - intros x Hx. exists (exp x). split; [reflexivity|].
    split; [left; apply exp_pos|].
    replace (1 + 0)%R with 1%R by lra. rewrite <- exp_0.
    destruct Hx as [Hlt| ->]; [left; now apply exp_increasing|right; reflexivity].
Qed.


(** * The theorems at the concrete scenario *)



(** C2 in the arithmetic that is exact up to the largest float32 number. *)
Lemma scenario_outputs_in_float32_range :
  py_pow 1 (- (1 / 2)) = inr 1%R /\
  (exists w' out,
     flash_attn_func (saturating 3.4028235e38) exact_exp always_view
                     scenario_q scenario_k scenario_v 0 None false
                     ((-1)%Z, (-1)%Z) None false scenario_world = (w', inr out) /\
     tval_of w' out = TVal Float32 [1; 2; 1; 1] [Fin 15; Fin 15]) /\
  (exists w' out,
     flash_attn_func (saturating 3.4028235e38) exact_exp always_view
                     scenario_q scenario_k scenario_v 0 None true
                     ((-1)%Z, (-1)%Z) None false scenario_world = (w', inr out) /\
     tval_of w' out = TVal Float32 [1; 2; 1; 1] [Fin 10; Fin 15]).
Proof.
  apply (concrete_scenario_outputs (saturating 3.4028235e38) exact_exp
           always_view).
  - intros x Hx. apply saturating_fin. simpl in Hx.
    repeat (destruct Hx as [<-|Hx]; [lra|]). destruct Hx.
  - unfold exact_exp. f_equal. apply exp_0.
Defined.

(** C3 on a key of another shape than the query: the query has the shape
    [(1, 1, 1, 2)], the key [(1, 1, 2, 1)]; the default scale is that of the
    last axis of the query, 2. *)
Lemma scores_at_scenario :
  exists w' out scores key,
    flash_attn_func exact_fl exact_exp always_view
                    (Tensor 0 Float32 [1; 1; 1; 2] [0; 1])
                    (Tensor 1 Float32 [1; 1; 2; 1] [0; 1])
                    (Tensor 2 Float32 [1; 1; 1; 2] [0; 1]) 0 None
                    false ((-1)%Z, (-1)%Z) None false scenario_world = (w', inr out) /\
    merge_heads 1 1 1 2
      (tval_of scenario_world (Tensor 1 Float32 [1; 1; 2; 1] [0; 1])) = inr key /\
    shape scores = [1 * 1; 1; 1] /\
    get (tval_of w' scores) [0 * 1 + 0; 0; 0] =
    nmul exact_fl Float32
         (nsum exact_fl Float32
               (map (fun d =>
                       nmul exact_fl Float32
                            (get (tval_of scenario_world
                                    (Tensor 0 Float32 [1; 1; 1; 2] [0; 1]))
                                 [0; 0; 0; d])
                            (get key [0 * 1 + 0; 0; d]))
                    (seq 0 2)))
         (exact_fl Float32 (Rpower (INR 2) (- (1 / 2)))).
Proof.
  destruct (scores_are_multiplied_by_the_scale exact_fl exact_exp always_view
              scenario_world
              (Tensor 0 Float32 [1; 1; 1; 2] [0; 1])
              (Tensor 1 Float32 [1; 1; 2; 1] [0; 1])
              (Tensor 2 Float32 [1; 1; 1; 2] [0; 1])
              1 1 1 2 0 None false ((-1)%Z, (-1)%Z) None false
              eq_refl eq_refl ltac:(unfold live; simpl; lia) eq_refl)
    as [T P].
  destruct (T eq_refl) as (w' & out & E).
  destruct (P w' out E) as (sc & key & tr & _ & _ & Ek & Ssc & _ & G).
  exists w', out, sc, key. split; [exact E|]. split; [exact Ek|].
  split; [exact Ssc|].
  apply G; try reflexivity; lia.
Defined.

(** C4 at the scenario. *)
Lemma output_shape_at_scenario :
  exists w' out,
    flash_attn_func exact_fl exact_exp always_view scenario_q scenario_k scenario_v 0 None false
                    ((-1)%Z, (-1)%Z) None false scenario_world = (w', inr out) /\
    shape out = [1; 2; 1; 1] /\ dt out = Float32.
Proof.
  destruct (output_has_the_shape_of_the_query exact_fl exact_exp always_view scenario_world
              scenario_q scenario_k scenario_v 1 2 1 1 0 None false
              ((-1)%Z, (-1)%Z) None false eq_refl)
    as [T P].
  destruct (T eq_refl eq_refl) as (w' & out & E).
  destruct (P w' out E) as (_ & So & Do).
  exists w', out. split; [exact E|]. split; [exact So|exact Do].
Defined.

(** C6 as the specification has it fails: a key with three positions
    against a query with two is refused by [reshape], before any [matmul]
    or [softmax] runs. *)
Lemma shape_mismatch_is_raised_by_reshape :
  exists e,
    snd (flash_attn_func exact_fl exact_exp always_view scenario_q longer_k scenario_v 0 None false
                         ((-1)%Z, (-1)%Z) None false scenario_world) = inl e /\
    raised_by e <> Matmul /\ raised_by e <> Softmax.
Proof.
  exists (Raise Reshape RuntimeError).
  split; [reflexivity|]. split; discriminate.
Qed.

(** C6 as the code has it, at that input. *)
Lemma native_exception_at_scenario :
  snd (flash_attn_func exact_fl exact_exp always_view scenario_q longer_k scenario_v 0 None false
                       ((-1)%Z, (-1)%Z) None false scenario_world)
  = inl (Raise Reshape RuntimeError) /\
  In (Raise Reshape RuntimeError) native_errors.
Proof.
  split; [reflexivity|].
  apply (exceptions_are_the_native_ones exact_fl exact_exp always_view scenario_world scenario_q
           longer_k scenario_v 0 None false ((-1)%Z, (-1)%Z) None false).
  - unfold live. simpl. lia.
  - unfold live. simpl. lia.
  - unfold live. simpl. lia.
  - reflexivity.
Defined.

(** C8 at the scenario: a second call on the key in place of the query,
    which holds the same, and two calls in a row. *)
Lemma two_calls_at_scenario :
  let first := flash_attn_func exact_fl exact_exp always_view scenario_q scenario_k scenario_v 0
                 None true ((-1)%Z, (-1)%Z) None false scenario_world in
  let other := flash_attn_func exact_fl exact_exp always_view scenario_k scenario_k scenario_v 0
                 None true ((-1)%Z, (-1)%Z) None false scenario_world in
  let second := flash_attn_func exact_fl exact_exp always_view scenario_q scenario_k scenario_v 0
                  None true ((-1)%Z, (-1)%Z) None false (fst first) in
  match snd first, snd other with
  | inl e1, inl e2 => e1 = e2
  | inr out1, inr out2 => tval_of (fst other) out2 = tval_of (fst first) out1
  | _, _ => False
  end /\
  match snd first, snd second with
  | inl e1, inl e2 => e1 = e2
  | inr out1, inr out2 =>
      tval_of (fst second) out2 = tval_of (fst second) out1 /\
      tval_of (fst second) out1 = tval_of (fst first) out1
  | _, _ => False
  end.
Proof.
  assert (L : forall t, buf t < 4 -> live scenario_world t)
    by (intros t Ht; exact Ht).
  destruct (two_calls_give_identical_outputs exact_fl exact_exp always_view scenario_world
              scenario_q scenario_k scenario_v 0 None true ((-1)%Z, (-1)%Z)
              None false (L scenario_q ltac:(simpl; lia))
              (L scenario_k ltac:(simpl; lia)) (L scenario_v ltac:(simpl; lia)))
    as [A B].
  split; [|exact B].
  exact (A scenario_world scenario_k scenario_k scenario_v
           (L scenario_k ltac:(simpl; lia)) (L scenario_k ltac:(simpl; lia))
           (L scenario_v ltac:(simpl; lia)) eq_refl eq_refl eq_refl).
Defined.

(** C9 at the scenario, with the causal mask. *)
Lemma inputs_kept_at_scenario :
  let w' := fst (flash_attn_func exact_fl exact_exp always_view scenario_q scenario_k scenario_v 0
                   None true ((-1)%Z, (-1)%Z) None false scenario_world) in
  contents w' scenario_q = contents scenario_world scenario_q /\
  contents w' scenario_k = contents scenario_world scenario_k /\
  contents w' scenario_v = contents scenario_world scenario_v /\
  firstn (length (heap scenario_world)) (heap w') = heap scenario_world.
Proof.
  apply (inputs_are_not_mutated exact_fl exact_exp always_view scenario_world scenario_q
           scenario_k scenario_v 0 None true ((-1)%Z, (-1)%Z) None false).
  - unfold live. simpl. lia.
  - unfold live. simpl. lia.
  - unfold live. simpl. lia.
Defined.

(** * Further properties at the scenario *)

(** X2 at the scenario, with the key of three positions. *)
Lemma exception_decided_at_scenario :
  match snd (flash_attn_func exact_fl exact_exp always_view scenario_q longer_k scenario_v 0 None
               false ((-1)%Z, (-1)%Z) None false scenario_world) with
  | inl e => expected_exception scenario_q longer_k scenario_v None = Some e
  | inr _ => expected_exception scenario_q longer_k scenario_v None = None
  end.
Proof.
  apply (exception_is_decided_by_shapes_and_dtypes exact_fl exact_exp always_view scenario_world
           scenario_q longer_k scenario_v 0 None false ((-1)%Z, (-1)%Z) None
           false).
  - unfold live. simpl. lia.
  - unfold live. simpl. lia.
  - unfold live. simpl. lia.
Defined.

(** X3 at the scenario, with the causal mask, at the second position. *)
Lemma softmax_attention_at_scenario :
  exists w' out,
    flash_attn_func exact_fl exact_exp always_view scenario_q scenario_k
                    scenario_v 0 None true ((-1)%Z, (-1)%Z) None false
                    scenario_world = (w', inr out) /\
    get (tval_of w' out) [0; 1; 0; 0] =
    attention_output exact_fl exact_exp scenario_world scenario_q scenario_k
                     scenario_v (scale_value None 1) true 2 1 0 0 1 0.
Proof.
  destruct (flash_attn_func_computes exact_fl exact_exp always_view
              scenario_world scenario_q scenario_k scenario_v 1 2 1 1 0 None
              true ((-1)%Z, (-1)%Z) None false eq_refl eq_refl eq_refl)
    as (w' & out & _ & _ & E & _).
  exists w', out. split; [exact E|].
  apply (result_is_softmax_attention exact_fl exact_exp always_view
           scenario_world w' scenario_q scenario_k scenario_v out 1 2 1 1 0
           None true ((-1)%Z, (-1)%Z) None false 0 1 0 0 eq_refl E); lia.
Defined.

(** X4 on two batches and two heads: queries, keys and values that differ
    in every other batch and head and agree on batch 0 and head 0 give
    results that agree there. *)
Lemma result_row_at_scenario :
  exists w1' out1 w2' out2,
    flash_attn_func exact_fl exact_exp always_view mixing_qk mixing_qk
                    mixing_v 0 None false ((-1)%Z, (-1)%Z) None false
                    mixing_world = (w1', inr out1) /\
    flash_attn_func exact_fl exact_exp always_view other_qk other_qk
                    other_v 0 None false ((-1)%Z, (-1)%Z) None false
                    mixing_world = (w2', inr out2) /\
    (forall b h, b < 2 -> h < 2 -> b + h <> 0 ->
       get (tval_of mixing_world mixing_qk) [b; 0; h; 0] <>
       get (tval_of mixing_world other_qk) [b; 0; h; 0] /\
       get (tval_of mixing_world mixing_v) [b; 0; h; 0] <>
       get (tval_of mixing_world other_v) [b; 0; h; 0]) /\
    forall d, d < 1 ->
      get (tval_of w1' out1) [0; 0; 0; d] = get (tval_of w2' out2) [0; 0; 0; d].
Proof.
  destruct (flash_attn_func_computes exact_fl exact_exp always_view
              mixing_world mixing_qk mixing_qk mixing_v 2 1 2 1 0 None
              false ((-1)%Z, (-1)%Z) None false eq_refl eq_refl eq_refl)
    as (w1' & out1 & _ & _ & E1 & _).
  destruct (flash_attn_func_computes exact_fl exact_exp always_view
              mixing_world other_qk other_qk other_v 2 1 2 1 0 None
              false ((-1)%Z, (-1)%Z) None false eq_refl eq_refl eq_refl)
    as (w2' & out2 & _ & _ & E2 & _).
  exists w1', out1, w2', out2. split; [exact E1|]. split; [exact E2|].
  split.
  { intros b h Hb Hh Hbh.
    assert (Hc : (b = 0 /\ h = 1) \/ (b = 1 /\ h = 0) \/ (b = 1 /\ h = 1))
      by lia.
    destruct Hc as [[-> ->]|[[-> ->]|[-> ->]]];
      (split; unfold get; simpl; intros [= F]; lra). }
  apply (result_row_depends_on_its_batch_and_head exact_fl exact_exp
           always_view mixing_world mixing_world w1' w2'
           mixing_qk mixing_qk mixing_v other_qk other_qk other_v
           out1 out2 2 1 2 1 0 None false ((-1)%Z, (-1)%Z) None false 0 0 0
           eq_refl eq_refl eq_refl).
  - lia.
  - lia.
  - lia.
  - intros d Hd. destruct d; [reflexivity|lia].
  - intros j d Hj Hd. destruct d; [|lia]. destruct j; [|lia].
    split; reflexivity.
  - exact E1.
  - exact E2.
Defined.

(** X5 at the scenario. *)
Lemma new_buffer_at_scenario :
  exists w' out,
    flash_attn_func exact_fl exact_exp always_view scenario_q scenario_k scenario_v 0 None true
                    ((-1)%Z, (-1)%Z) None false scenario_world = (w', inr out) /\
    length (heap scenario_world) <= buf out /\ buf out < length (heap w') /\
    (forall t, live scenario_world t -> buf t <> buf out) /\
    forall (x : num) (o : nat) (t : tensor), live scenario_world t ->
      contents (set_heap (upd (buf out) (upd o x (nth (buf out) (heap w') []))
                              (heap w')) w') t
      = contents scenario_world t.
Proof.
  destruct (flash_attn_func_computes exact_fl exact_exp always_view scenario_world scenario_q
              scenario_k scenario_v 1 2 1 1 0 None true ((-1)%Z, (-1)%Z) None
              false eq_refl eq_refl eq_refl)
    as (w' & out & _ & _ & E & _).
  exists w', out. split; [exact E|].
  apply (result_is_on_a_new_buffer exact_fl exact_exp always_view scenario_world w' scenario_q
           scenario_k scenario_v out 0 None true ((-1)%Z, (-1)%Z) None false).
  - unfold live. simpl. lia.
  - unfold live. simpl. lia.
  - unfold live. simpl. lia.
  - exact E.
Defined.

(** X6 on a query of three axes. *)
Lemma early_exit_at_scenario :
  flash_attn_func exact_fl exact_exp always_view (Tensor 0 Float32 [2; 1; 1] [0; 1]) scenario_k
                  scenario_v 0 None false ((-1)%Z, (-1)%Z) None false
                  scenario_world
  = (warned_fallback scenario_world, inl (Raise TupleUnpack ValueError)).
Proof.
  exact (early_exits_leave_the_heap exact_fl exact_exp always_view scenario_world
           (Tensor 0 Float32 [2; 1; 1] [0; 1]) scenario_k scenario_v 0 None
           false ((-1)%Z, (-1)%Z) None false eq_refl).
Defined.

(** X7 at the scenario, where [headdim] is 1. *)
Lemma default_scale_at_scenario :
  flash_attn_func exact_fl exact_exp always_view scenario_q scenario_k scenario_v 0 None false
                  ((-1)%Z, (-1)%Z) None false scenario_world =
  flash_attn_func exact_fl exact_exp always_view scenario_q scenario_k scenario_v 0
                  (Some (Rpower (INR 1) (- (1 / 2)))) false ((-1)%Z, (-1)%Z)
                  None false scenario_world.
Proof.
  apply (default_scale_given_by_hand exact_fl exact_exp always_view scenario_world scenario_q
           scenario_k scenario_v 1 2 1 1 0 false ((-1)%Z, (-1)%Z) None false).
  - reflexivity.
  - lia.
Defined.

(** X8 at the scenario. *)
Lemma other_entry_points_at_scenario :
  let varlen := flash_attn_varlen_func exact_fl exact_exp always_view scenario_q scenario_k
                  scenario_v longer_k longer_k 2 2 0 None true
                  ((-1)%Z, (-1)%Z) None false scenario_world in
  let module := forward exact_fl exact_exp always_view (FlashAttention_init None 0) scenario_q
                  scenario_k scenario_v true scenario_world in
  (firstn (length (heap scenario_world)) (heap (fst varlen))
   = heap scenario_world /\
   contents (fst varlen) scenario_q = contents scenario_world scenario_q /\
   contents (fst varlen) scenario_k = contents scenario_world scenario_k /\
   contents (fst varlen) scenario_v = contents scenario_world scenario_v /\
   match snd varlen with
   | inl e => In e native_errors
   | inr out => shape out = shape scenario_q /\ dt out = dt scenario_q
   end) /\
  (firstn (length (heap scenario_world)) (heap (fst module))
   = heap scenario_world /\
   contents (fst module) scenario_q = contents scenario_world scenario_q /\
   contents (fst module) scenario_k = contents scenario_world scenario_k /\
   contents (fst module) scenario_v = contents scenario_world scenario_v /\
   match snd module with
   | inl e => In e native_errors
   | inr out => shape out = shape scenario_q /\ dt out = dt scenario_q
   end).
Proof.
  apply (other_entry_points_behave_alike exact_fl exact_exp always_view scenario_world scenario_q
           scenario_k scenario_v longer_k longer_k 2 2 0 None true
           ((-1)%Z, (-1)%Z) None false (FlashAttention_init None 0)).
  - unfold live. simpl. lia.
  - unfold live. simpl. lia.
  - unfold live. simpl. lia.
Defined.

(** X9 at the scenario, against a value tensor that differs at the second
    position: the first position of the result is the same. *)
Lemma causal_result_at_scenario :
  exists w1' out1 w2' out2,
    flash_attn_func exact_fl exact_exp always_view scenario_q scenario_k
                    scenario_v 0 None true ((-1)%Z, (-1)%Z) None false
                    scenario_world = (w1', inr out1) /\
    flash_attn_func exact_fl exact_exp always_view scenario_q scenario_k
                    (Tensor 2 Float32 [1; 2; 1; 1] [0; 0]) 0 None true
                    ((-1)%Z, (-1)%Z) None false scenario_world = (w2', inr out2) /\
    get (tval_of scenario_world scenario_v) [0; 1; 0; 0] <>
    get (tval_of scenario_world (Tensor 2 Float32 [1; 2; 1; 1] [0; 0])) [0; 1; 0; 0] /\
    forall d, d < 1 ->
      get (tval_of w1' out1) [0; 0; 0; d] = get (tval_of w2' out2) [0; 0; 0; d].
Proof.
  destruct (flash_attn_func_computes exact_fl exact_exp always_view
              scenario_world scenario_q scenario_k scenario_v 1 2 1 1 0 None
              true ((-1)%Z, (-1)%Z) None false eq_refl eq_refl eq_refl)
    as (w1' & out1 & _ & _ & E1 & _).
  destruct (flash_attn_func_computes exact_fl exact_exp always_view
              scenario_world scenario_q scenario_k
              (Tensor 2 Float32 [1; 2; 1; 1] [0; 0]) 1 2 1 1 0 None
              true ((-1)%Z, (-1)%Z) None false eq_refl eq_refl eq_refl)
    as (w2' & out2 & _ & _ & E2 & _).
  exists w1', out1, w2', out2. split; [exact E1|]. split; [exact E2|].
  split.
  { unfold get. simpl. intros [= F]. lra. }
  apply (causal_result_ignores_later_positions exact_fl exact_exp always_view
           scenario_world scenario_world w1' w2' scenario_q scenario_k
           scenario_v scenario_q scenario_k
           (Tensor 2 Float32 [1; 2; 1; 1] [0; 0]) out1 out2 1 2 1 1
           0 None ((-1)%Z, (-1)%Z) None false 0 0 0 eq_refl eq_refl eq_refl
           eq_refl eq_refl eq_refl).
  - lia.
  - lia.
  - lia.
  - intros d Hd. reflexivity.
  - intros j d Hj Hd. destruct d; [|lia].
    destruct j; [split; reflexivity|lia].
  - exact E1.
  - exact E2.
Defined.

(** X10 at the scenario, with the causal mask: the first position of the
    result is the first value. *)
Lemma single_position_at_scenario :
  exists w' out,
    flash_attn_func exact_fl exact_exp always_view scenario_q scenario_k
                    scenario_v 0 None true ((-1)%Z, (-1)%Z) None false
                    scenario_world = (w', inr out) /\
    get (tval_of w' out) [0; 0; 0; 0] =
    get (tval_of scenario_world scenario_v) [0; 0; 0; 0].
Proof.
  destruct (flash_attn_func_computes exact_fl exact_exp always_view
              scenario_world scenario_q scenario_k scenario_v 1 2 1 1 0 None
              true ((-1)%Z, (-1)%Z) None false eq_refl eq_refl eq_refl)
    as (w' & out & _ & _ & E & _).
  exists w', out. split; [exact E|].
  apply (single_position_returns_the_value exact_fl exact_exp always_view
           scenario_world w' scenario_q scenario_k scenario_v out 1 2 1 1 0
           None true ((-1)%Z, (-1)%Z) None false 0 0 0 eq_refl eq_refl).
  - intros x _. reflexivity.
  - unfold exact_exp. f_equal. apply exp_0.
  - now left.
  - reflexivity.
  - reflexivity.
  - exact E.
  - lia.
  - lia.
  - lia.
  - lia.
Defined.
